(** * Frame-based image transmission over TCP: framing, reconstruction, slots

    A shallow embedding of the protocol core of [Transmitter.py] and
    [Receiver.py]:

    - the chunk splitter [generate_frames_from_file] (Transmitter.py),
    - the exact-read helper [_recv_all], the handshake and the frame loop
      of [_handle_client_connection] together with its row-major
      reconstruction (Receiver.py),
    - the live-feed slot policy [_update_live_feed_display] (Receiver.py).

    Python integers are [Z], byte strings are lists of [Byte.byte], the
    dictionary [frame_grid] is a [gmap (Z * Z)], the socket is an explicit
    state threaded through a small state-and-exception monad. *)

From Stdlib Require Import ZArith Lia.
From Stdlib Require Import Strings.Byte.
From stdpp Require Import gmap strings list fin_maps pretty.

Open Scope Z_scope.

Abbreviation bytes := (list Byte.byte).

(* ===================================================================== *)
(** ** Python exceptions and the outcome of a computation *)
(* ===================================================================== *)

(** The exceptions the modelled code can raise. *)
Inductive exn : Type :=
  | socket_timeout
  | socket_error
  | ConnectionAbortedError (msg : string)
  | ValueError (msg : string)
  | UnicodeDecodeError
  | OverflowError
  | ZeroDivisionError
  | IndexError.

(** [OutOfFuel] is the only outcome that has no Python counterpart: the
    [while] loops are unrolled with a fuel bound, and the totality lemmas
    below show that the bound chosen by the callers is never exhausted. *)
Inductive res (A : Type) : Type :=
  | Done (a : A)
  | Raised (e : exn)
  | OutOfFuel.
Arguments Done {A} a.
Arguments Raised {A} e.
Arguments OutOfFuel {A}.

Definition res_bind {A B : Type} (m : res A) (k : A -> res B) : res B :=
  match m with
  | Done a => k a
  | Raised e => Raised e
  | OutOfFuel => OutOfFuel
  end.

(* ===================================================================== *)
(** ** Byte strings: [int.from_bytes], [int.to_bytes], slicing *)
(* ===================================================================== *)

Module PyBytes.

Definition byte_val (b : Byte.byte) : Z := Z.of_N (Byte.to_N b).

Definition byte_of_Z (v : Z) : Byte.byte :=
  match Byte.of_N (Z.to_N (v mod 256)) with
  | Some b => b
  | None => Byte.x00
  end.

(** [int.from_bytes(b, 'big')]: unsigned, any length, [b''] gives 0. *)
Definition from_bytes (b : bytes) : Z :=
  foldl (fun acc x => acc * 256 + byte_val x) 0 b.

Fixpoint be_digits (len : nat) (v : Z) : bytes :=
  match len with
  | O => []
  | S k => be_digits k (v / 256) ++ [byte_of_Z v]
  end.

(** [v.to_bytes(len, 'big')]: raises [OverflowError] for a negative [v]
    and for a [v] that does not fit in [len] bytes. *)
Definition to_bytes (v : Z) (len : nat) : res bytes :=
  if (0 <=? v) && (v <? 256 ^ Z.of_nat len)
  then Done (be_digits len v)
  else Raised OverflowError.

(** [b[lo:hi]] for non-negative [lo] and [hi] (the only slices the
    modelled code takes): clamped at the end of [b], empty when
    [hi <= lo]. *)
Definition slice (b : bytes) (lo hi : Z) : bytes :=
  take (Z.to_nat (hi - lo)) (drop (Z.to_nat lo) b).

(** [b[lo:]] for a non-negative [lo]. *)
Definition slice_from (b : bytes) (lo : Z) : bytes :=
  drop (Z.to_nat lo) b.

(** [b[:hi]] for a non-negative [hi]. *)
Definition slice_to (b : bytes) (hi : Z) : bytes :=
  take (Z.to_nat hi) b.

(** [len(b)] *)
Definition len (b : bytes) : Z := Z.of_nat (length b).

(** [b'\x00' * k]: empty for [k <= 0]. *)
Definition zeros (k : Z) : bytes := replicate (Z.to_nat k) Byte.x00.

(** [b.ljust(width, b'\x00')]: padded on the right, never cut. *)
Definition ljust (b : bytes) (width : Z) : bytes := b ++ zeros (width - len b).

End PyBytes.

(* ===================================================================== *)
(** ** Transmitter.py: the chunk splitter *)
(* ===================================================================== *)

Module Transmitter.
Import PyBytes.

(** Module-level configuration of Transmitter.py. *)
Definition header_size : Z := 10.
Definition cols : Z := 20.

Local Notation "'let*' x ':=' m 'in' k" := (res_bind m (fun x => k))
  (at level 10, x pattern, k at level 200).

(** The 10-byte header of frame [i] at [(row_idx, col_idx)]. *)
Definition make_header (i row_idx col_idx total_frames : Z) : res bytes :=
  let* bi := to_bytes i 2 in
  let* br := to_bytes row_idx 2 in
  let* bc := to_bytes col_idx 2 in
  let* bt := to_bytes total_frames 2 in
  Done (bi ++ br ++ bc ++ bt ++ [Byte.x00; Byte.x00]).

(** The body of the loop [for i in range(total_frames)]: slice, pad,
    build the header, and return [frame_content].  [C] is the column
    count; [i // C] raises [ZeroDivisionError] when it is zero. *)
Definition make_frame (C chunk_size total_frames : Z) (file_bytes : bytes)
    (i : Z) : res bytes :=
  let chunk_start := i * chunk_size in
  let chunk_end := (i + 1) * chunk_size in
  let raw_chunk := slice file_bytes chunk_start chunk_end in
  let chunk := raw_chunk ++ zeros (chunk_size - len raw_chunk) in
  if C =? 0 then Raised ZeroDivisionError
  else
    let row_idx := i / C in
    let col_idx := i mod C in
    let* header := make_header i row_idx col_idx total_frames in
    Done (header ++ chunk).

(** The loop itself: frames are produced in index order and the first
    exception aborts it. *)
Fixpoint frames_loop (C chunk_size total_frames : Z) (file_bytes : bytes)
    (indices : list Z) : res (list bytes) :=
  match indices with
  | [] => Done []
  | i :: rest =>
    let* fr := make_frame C chunk_size total_frames file_bytes i in
    let* frs := frames_loop C chunk_size total_frames file_bytes rest in
    Done (fr :: frs)
  end.

(** [generate_frames_from_file], on the bytes read from the file, for a
    total frame size [total_frame_size] (the value of [data_size_var])
    and a column count [C].  [Done None] is the configuration-error
    return [(None, 0, None)]; [Done (Some (total_frames, frames))] is
    the normal return, [frames] being the contents of the frame files
    in index order, which is the order [_send_data_task] sends them. *)
Definition generate_frames (C : Z) (file_bytes : bytes)
    (total_frame_size : Z) : res (option (Z * list bytes)) :=
  let chunk_size := total_frame_size - header_size in
  if chunk_size <=? 0 then Done None
  else
    let total_frames := (len file_bytes + chunk_size - 1) / chunk_size in
    let* frs := frames_loop C chunk_size total_frames file_bytes
                  (seqZ 0 total_frames) in
    Done (Some (total_frames, frs)).

(** What [connect_to_receiver] and [_send_data_task] send before the
    frames: the transmitter name on 50 bytes, the file name on 100, the
    total frame size on 4. *)
Definition handshake_bytes (name filename : bytes) (total_frame_size : Z)
    : res bytes :=
  let* size_bytes := to_bytes total_frame_size 4 in
  Done (ljust name 50 ++ ljust filename 100 ++ size_bytes).

(** The function with the module's own column count. *)
Definition generate_frames_from_file : bytes -> Z -> res (option (Z * list bytes)) :=
  generate_frames cols.

End Transmitter.

(* ===================================================================== *)
(** ** Receiver.py: socket, exact reads, handshake, frame loop *)
(* ===================================================================== *)

Module Receiver.
Import PyBytes.

(** *** The connection

    What the peer and the network will deliver, in order: data segments
    ([recv] returns at most one segment's worth of bytes per call) and
    faults, which [recv] raises.  The end of the list is the peer's
    close, where [recv] returns [b''].  An empty segment carries nothing
    and is skipped, so that [b''] always means a closed connection. *)
Inductive net_event : Type :=
  | Data (p : bytes)
  | Fault (e : exn).

Abbreviation socket := (list net_event).

(** What [_log_event] is called with, as far as the protocol goes. *)
Inductive log_event : Type :=
  | LogTransmitterName (name : string)
  | LogFilename (name : string)
  | LogDataSize (data_size : Z)
  | LogDisconnected
  | LogExpecting (total : Z)
  | LogTotalMismatch (expected got row col : Z)
  | LogReceivedFrame (row col : Z)
  | LogAllReceived (total : Z)
  | LogMissingChunk (row col : Z)
  | LogIncomplete (expected got : Z)
  | LogException (e : exn)
  | LogClosed.

(** The state the handler acts on: its connection and the event log. *)
Record world : Type := World { conn : socket; log : list log_event }.

Definition M (A : Type) : Type := world -> res A * world.

Definition ret {A} (a : A) : M A := fun w => (Done a, w).
Definition raise {A} (e : exn) : M A := fun w => (Raised e, w).
Definition out_of_fuel {A} : M A := fun w => (OutOfFuel, w).
Definition bind {A B} (m : M A) (k : A -> M B) : M B :=
  fun w =>
    match m w with
    | (Done a, w') => k a w'
    | (Raised e, w') => (Raised e, w')
    | (OutOfFuel, w') => (OutOfFuel, w')
    end.

(** [try: m except Exception as e: h e] *)
Definition try_except {A} (m : M A) (h : exn -> M A) : M A :=
  fun w =>
    match m w with
    | (Raised e, w') => h e w'
    | r => r
    end.

Local Notation "'let*' x ':=' m 'in' k" := (bind m (fun x => k))
  (at level 10, x pattern, k at level 200).
Local Notation "m ';;' k" := (bind m (fun _ => k))
  (at level 100, k at level 200, right associativity).

Definition _log_event (e : log_event) : M unit :=
  fun w => (Done tt, {| conn := conn w; log := log w ++ [e] |}).

(** [sock.recv(k)] on the pending events. *)
Fixpoint recv_from (s : socket) (k : Z) : res bytes * socket :=
  match s with
  | [] => (Done [], [])
  | Data [] :: rest => recv_from rest k
  | Data p :: rest =>
      (Done (take (Z.to_nat k) p), Data (drop (Z.to_nat k) p) :: rest)
  | Fault e :: rest => (Raised e, rest)
  end.

Definition recv (k : Z) : M bytes :=
  fun w =>
    let '(r, s) := recv_from (conn w) k in
    (r, {| conn := s; log := log w |}).

(** The loop of [_recv_all]: [while len(data) < n]. *)
Fixpoint recv_all_loop (fuel : nat) (n : Z) (data : bytes) : M (option bytes) :=
  match fuel with
  | O => out_of_fuel
  | S fuel' =>
    if len data <? n then
      let* packet := recv (n - len data) in
      match packet with
      | [] => ret None
      | _ => recv_all_loop fuel' n (data ++ packet)
      end
    else ret (Some data)
  end.

(** [_recv_all(sock, n)].  Every turn of the loop adds at least one byte,
    so [n] turns and the final test are enough. *)
Definition _recv_all (n : Z) : M (option bytes) :=
  recv_all_loop (S (Z.to_nat n)) n [].

(** Python's [not x] for the result of [_recv_all]: [None] and [b'']. *)
Definition falsy (r : option bytes) : bool :=
  match r with
  | None | Some [] => true
  | Some _ => false
  end.

(** *** The reconstruction buffer and the per-frame step *)

Record session : Type := Session {
  frame_grid : gmap (Z * Z) bytes;
  max_row : Z;
  max_col : Z;
  total_frames_expected : Z;
  total_frames_received : Z  (* total_frames_received_for_current_image *)
}.

Definition expected_header_size : Z := 10.

Definition new_session : session :=
  {| frame_grid := ∅; max_row := -1; max_col := -1;
     total_frames_expected := -1; total_frames_received := 0 |}.

(** The fields read from a frame (lines 213 to 219). *)
Record frame_fields : Type := FrameFields {
  frame_idx : Z; row_idx : Z; col_idx : Z; current_total_frames : Z;
  chunk : bytes
}.

Definition parse_frame (full_frame_data : bytes) : frame_fields :=
  let header := slice_to full_frame_data expected_header_size in
  {| chunk := slice_from full_frame_data expected_header_size;
     frame_idx := from_bytes (slice header 0 2);
     row_idx := from_bytes (slice header 2 4);
     col_idx := from_bytes (slice header 4 6);
     current_total_frames := from_bytes (slice header 6 8) |}.

(** The body of the [while True] loop after a full frame was read
    (lines 213 to 247), the write of the raw frame file left out. *)
Definition process_frame (st : session) (full_frame_data : bytes) : M session :=
  let f := parse_frame full_frame_data in
  let* total :=
    if total_frames_expected st =? -1 then
      _log_event (LogExpecting (current_total_frames f)) ;;
      ret (current_total_frames f)
    else if negb (total_frames_expected st =? current_total_frames f) then
      _log_event (LogTotalMismatch (total_frames_expected st)
                    (current_total_frames f) (row_idx f) (col_idx f)) ;;
      ret (total_frames_expected st)
    else ret (total_frames_expected st) in
  let grid := <[(row_idx f, col_idx f) := chunk f]> (frame_grid st) in
  let st' :=
    {| frame_grid := grid;
       max_row := Z.max (max_row st) (row_idx f);
       max_col := Z.max (max_col st) (col_idx f);
       total_frames_expected := total;
       total_frames_received := Z.of_nat (size grid) |} in
  _log_event (LogReceivedFrame (row_idx f) (col_idx f)) ;;
  ret st'.

(** The [while True] loop (lines 205 to 252). *)
Fixpoint receive_loop (fuel : nat) (expected_frame_content_size : Z)
    (st : session) : M session :=
  match fuel with
  | O => out_of_fuel
  | S fuel' =>
    let* full_frame_data := _recv_all expected_frame_content_size in
    match full_frame_data with
    | Some (b :: bs) =>
      let* st' := process_frame st (b :: bs) in
      if total_frames_received st' =? total_frames_expected st' then
        _log_event (LogAllReceived (total_frames_expected st')) ;;
        ret st'
      else receive_loop fuel' expected_frame_content_size st'
    | _ => _log_event LogDisconnected ;; ret st
    end
  end.

(** The number of bytes still to come on a connection. *)
Definition pending (s : socket) : nat :=
  sum_list (map (fun ev => match ev with Data p => length p | Fault _ => O end) s).

(** The loop with a bound that suffices: every turn that goes on has
    consumed at least one byte. *)
Definition receive_frames (expected_frame_content_size : Z) (st : session)
    : M session :=
  fun w => receive_loop (S (pending (conn w))) expected_frame_content_size st w.

(** *** Reconstruction (lines 254 to 269 and 314 to 316) *)

(** The inner loop [for c in range(max_col + 1)]: the row's chunks. *)
Fixpoint row_loop (grid : gmap (Z * Z) bytes) (r : Z) (cs : list Z)
    (row_chunks : list bytes) : M (list bytes) :=
  match cs with
  | [] => ret row_chunks
  | c :: cs' =>
    match grid !! (r, c) with
    | Some ch => row_loop grid r cs' (row_chunks ++ [ch])
    | None =>
      _log_event (LogMissingChunk r c) ;;
      row_loop grid r cs' (row_chunks ++ [[]])
    end
  end.

(** The outer loop [for r in range(max_row + 1)]. *)
Fixpoint rows_loop (grid : gmap (Z * Z) bytes) (rs : list Z) (max_col : Z)
    (rows_to_combine : list bytes) : M (list bytes) :=
  match rs with
  | [] => ret rows_to_combine
  | r :: rs' =>
    let* row_chunks := row_loop grid r (seqZ 0 (max_col + 1)) [] in
    rows_loop grid rs' max_col (rows_to_combine ++ [concat row_chunks])
  end.

(** What follows the loop: [Some combined_bytes] when every expected
    frame was received, [None] with the failure logged otherwise. *)
Definition reconstruct (st : session) : M (option bytes) :=
  if (0 <? total_frames_expected st)
     && (total_frames_received st =? total_frames_expected st) then
    let* rows_to_combine :=
      rows_loop (frame_grid st) (seqZ 0 (max_row st + 1)) (max_col st) [] in
    ret (Some (concat rows_to_combine))
  else
    _log_event (LogIncomplete (total_frames_expected st)
                  (total_frames_received st)) ;;
    ret None.

(** The Grid Reconstruction Engine on a connection that has passed the
    handshake: the frame loop from a fresh buffer, then reconstruction. *)
Definition receive_image (data_size : Z) : M (option bytes) :=
  let* st := receive_frames data_size new_session in
  reconstruct st.

(** *** Handshake and handler *)

Definition is_nul (a : Ascii.ascii) : bool := bool_decide (a = Ascii.zero).

Fixpoint lstrip_nul (s : string) : string :=
  match s with
  | String a s' => if is_nul a then lstrip_nul s' else s
  | EmptyString => EmptyString
  end.

Fixpoint rstrip_nul (s : string) : string :=
  match s with
  | EmptyString => EmptyString
  | String a s' =>
    match rstrip_nul s' with
    | EmptyString => if is_nul a then EmptyString else String a EmptyString
    | r => String a r
    end
  end.

(** [s.strip('\x00')] *)
Definition strip_nul (s : string) : string := rstrip_nul (lstrip_nul s).

(** The folders the handler creates, by the received names they are
    built from: [tx_main_folder], its [images] and [frames] subfolders
    (lines 155 to 167), and [current_raw_frames_dir] (lines 198 to
    201), whose name comes from the file name and the clock. *)
Inductive folder : Type :=
  | TransmitterFolder (transmitter_name : string)
  | ImagesFolder (transmitter_name : string)
  | FramesFolder (transmitter_name : string)
  | RawFramesFolder (transmitter_name filename : string).

Section Handler.
(** [bytes.decode('utf-8')], [None] for a [UnicodeDecodeError]; the
    codec is Python's, not the repository's. *)
Variable utf8_decode : bytes -> option string.

(** [os.makedirs(path, exist_ok=True)] on the path of a folder: [None]
    when it returns, the exception it raises otherwise (a [ValueError]
    for a name with an embedded NUL character, an [OSError] when the
    file system refuses).  The path functions and the file system are
    Python's and the machine's, not the repository's. *)
Variable os_makedirs : folder -> option exn.

Definition makedirs (d : folder) : M unit :=
  match os_makedirs d with
  | Some e => raise e
  | None => ret tt
  end.

Definition decode (b : bytes) : M string :=
  match utf8_decode b with
  | Some s => ret s
  | None => raise UnicodeDecodeError
  end.

(** Lines 148 to 180: identity, the transmitter's folders, filename
    and frame size. *)
Definition handshake : M (string * string * Z) :=
  let* transmitter_name_bytes := _recv_all 50 in
  if falsy transmitter_name_bytes then
    raise (ConnectionAbortedError "Failed to receive transmitter name.")
  else
  let* decoded_name := decode (default [] transmitter_name_bytes) in
  let transmitter_name := strip_nul decoded_name in
  _log_event (LogTransmitterName transmitter_name) ;;
  makedirs (TransmitterFolder transmitter_name) ;;
  makedirs (ImagesFolder transmitter_name) ;;
  makedirs (FramesFolder transmitter_name) ;;
  let* filename_bytes := _recv_all 100 in
  if falsy filename_bytes then
    raise (ConnectionAbortedError "Failed to receive filename.")
  else
  let* decoded_filename := decode (default [] filename_bytes) in
  let filename := strip_nul decoded_filename in
  _log_event (LogFilename filename) ;;
  let* data_size_bytes := _recv_all 4 in
  if falsy data_size_bytes then
    raise (ConnectionAbortedError "Failed to receive data size.")
  else
  let data_size := from_bytes (default [] data_size_bytes) in
  if data_size <=? 0 then
    raise (ValueError ("Invalid data size received: " +:+ pretty data_size))
  else
  _log_event (LogDataSize data_size) ;;
  ret (transmitter_name, filename, data_size).

(** [_handle_client_connection], up to the bytes handed to the image
    codec: [Some (transmitter_name, combined_bytes)] when an image was
    reassembled.  The folder of the raw frames is created between the
    handshake and the frame loop.  Every exception is caught and
    logged, and the connection is closed at the end. *)
Definition _handle_client_connection : M (option (string * bytes)) :=
  let* r :=
    try_except
      (let* hs := handshake in
       let '(transmitter_name, filename, data_size) := hs in
       makedirs (RawFramesFolder transmitter_name filename) ;;
       let* combined := receive_image data_size in
       ret (option_map (fun b => (transmitter_name, b)) combined))
      (fun e => _log_event (LogException e) ;; ret None) in
  _log_event LogClosed ;;
  ret r.
End Handler.

End Receiver.

(* ===================================================================== *)
(** ** Receiver.py: the live-feed slot table *)
(* ===================================================================== *)

Module Feeds.

Local Notation "'let*' x ':=' m 'in' k" := (res_bind m (fun x => k))
  (at level 10, x pattern, k at level 200).

(** One entry of [live_feed_assignments]; the two widget references of
    the dictionary play no part in the assignment and are left out. *)
Record feed (image : Type) : Type := Feed {
  transmitter_name : string;
  last_image_data : option image
}.
Arguments Feed {image} _ _.
Arguments transmitter_name {image} _.
Arguments last_image_data {image} _.

(** The label of a slot nobody holds. *)
Definition unassigned : string := "N/A".

(** The table [__init__] builds: four slots, all unassigned. *)
Definition live_feed_assignments {image : Type} : list (feed image) :=
  replicate 4 (Feed unassigned None).

(** The dictionary literal of [_update_live_feed_display]. *)
Definition preferred_assignments : gmap string Z :=
  <["Tx1" := 0]> (<["Tx2" := 1]> ∅).

(** The position Python's [l[i]] denotes: negative indices count from
    the end, anything else out of range is an [IndexError]. *)
Definition position {A} (l : list A) (i : Z) : option nat :=
  if (0 <=? i) && (i <? Z.of_nat (length l)) then Some (Z.to_nat i)
  else if (i <? 0) && (- Z.of_nat (length l) <=? i)
  then Some (Z.to_nat (Z.of_nat (length l) + i))
  else None.

Definition getitem {A} (l : list A) (i : Z) : res A :=
  match position l i with
  | Some k =>
    match l !! k with
    | Some x => Done x
    | None => Raised IndexError
    end
  | None => Raised IndexError
  end.

(** [for i, feed in enumerate(feeds): if P i feed: idx = i; break],
    with [-1] left in [idx] when the loop runs to its end. *)
Fixpoint first_from {A} (P : Z -> A -> bool) (i : Z) (l : list A) : Z :=
  match l with
  | [] => -1
  | x :: l' => if P i x then i else first_from P (i + 1) l'
  end.

Definition first_feed {A} (P : Z -> A -> bool) (l : list A) : Z :=
  first_from P 0 l.

(** [i in preferred_assignments.values()] *)
Definition is_preferred_slot (prefs : gmap string Z) (i : Z) : bool :=
  bool_decide (i ∈ (map_to_list prefs).*2).

Definition named {image} (n : string) (f : feed image) : bool :=
  bool_decide (transmitter_name f = n).

Section Policy.
Context {image : Type}.

(** [_update_live_feed_display] for a table of preferred slots
    [prefs]: the index chosen and the table after the update. *)
Definition update_live_feed (prefs : gmap string Z)
    (feeds : list (feed image)) (name : string) (cv2_image : image)
    : res (Z * list (feed image)) :=
  (* 1. the preferred slot, free or already this transmitter's *)
  let* by_preference :=
    match prefs !! name with
    | Some preferred_idx =>
      let* f := getitem feeds preferred_idx in
      if named unassigned f || named name f
      then Done preferred_idx else Done (-1)
    | None => Done (-1)
    end in
  (* 2. the slot this transmitter already has *)
  let existing :=
    if by_preference =? -1
    then first_feed (fun _ f => named name f) feeds
    else by_preference in
  (* 3. a free slot that is nobody's preferred slot *)
  let general :=
    if existing =? -1
    then first_feed (fun i f => named unassigned f
                                && negb (is_preferred_slot prefs i)) feeds
    else existing in
  (* 4. any free slot, else slot 0 *)
  let assigned_to_feed_index :=
    if general =? -1 then
      let fallback := first_feed (fun _ f => named unassigned f) feeds in
      if fallback =? -1 then 0 else fallback
    else general in
  if negb (assigned_to_feed_index =? -1) then
    let* _ := getitem feeds assigned_to_feed_index in
    match position feeds assigned_to_feed_index with
    | Some k =>
      Done (assigned_to_feed_index,
            <[k := Feed name (Some cv2_image)]> feeds)
    | None => Raised IndexError
    end
  else Done (-1, feeds).

(** The method as the source has it, with its own preferences. *)
Definition _update_live_feed_display :
    list (feed image) -> string -> image -> res (Z * list (feed image)) :=
  update_live_feed preferred_assignments.

(** Successive arrivals on one table: the slots chosen, in order, and
    the final table. *)
Fixpoint arrivals (prefs : gmap string Z) (feeds : list (feed image))
    (names : list (string * image)) : res (list Z * list (feed image)) :=
  match names with
  | [] => Done ([], feeds)
  | (n, img) :: rest =>
    let* r := update_live_feed prefs feeds n img in
    let* r' := arrivals prefs (snd r) rest in
    Done (fst r :: fst r', snd r')
  end.
End Policy.

End Feeds.


(* ===================================================================== *)
(** ** The slot rules, as the specification words them *)
(* ===================================================================== *)

Module SlotSpec.
Import Feeds.

(** The Feed Slot Table of the specification: each slot holds an
    optional assigned identity, absent for an unassigned slot. *)
Definition table : Type := list (option string).

(** The first index whose slot satisfies [P], if any. *)
Fixpoint first_index_from {A} (P : nat -> A -> bool) (i : nat) (l : list A)
    : option nat :=
  match l with
  | [] => None
  | x :: l' => if P i x then Some i else first_index_from P (S i) l'
  end.

Definition first_index {A} (P : nat -> A -> bool) (l : list A) : option nat :=
  first_index_from P O l.

(** Slot [i] is the preferred slot of an identity other than [name]. *)
Definition preferred_by_another (prefs : gmap string Z) (name : string)
    (i : nat) : bool :=
  bool_decide (Exists (fun op => op.1 <> name /\ op.2 = Z.of_nat i)
                 (map_to_list prefs)).

Definition unassigned_slot (s : option string) : bool :=
  bool_decide (s = None).

Definition holds (name : string) (s : option string) : bool :=
  bool_decide (s = Some name).

(** Rule 1: [name] has a preferred slot, and that slot is unassigned or
    already held by [name]. *)
Definition rule_preferred (prefs : gmap string Z) (t : table) (name : string)
    : option nat :=
  match prefs !! name with
  | Some p =>
    if 0 <=? p then
      match t !! Z.to_nat p with
      | Some s =>
        if unassigned_slot s || holds name s then Some (Z.to_nat p) else None
      | None => None
      end
    else None
  | None => None
  end.

(** Rule 2: [name] already holds some slot. *)
Definition rule_existing (t : table) (name : string) : option nat :=
  first_index (fun _ s => holds name s) t.

(** Rule 3: the first unassigned slot that is not another identity's
    preferred slot. *)
Definition rule_general (prefs : gmap string Z) (t : table) (name : string)
    : option nat :=
  first_index (fun i s => unassigned_slot s
                          && negb (preferred_by_another prefs name i)) t.

(** Rule 4: the first unassigned slot. *)
Definition rule_fallback (t : table) : option nat :=
  first_index (fun _ s => unassigned_slot s) t.

(** The five rules in their strict order; rule 5 is slot 0. *)
Definition rule_slot (prefs : gmap string Z) (t : table) (name : string)
    : nat :=
  match rule_preferred prefs t name with
  | Some i => i
  | None =>
    match rule_existing t name with
    | Some i => i
    | None =>
      match rule_general prefs t name with
      | Some i => i
      | None =>
        match rule_fallback t with
        | Some i => i
        | None => O
        end
      end
    end
  end.

(** Successive arrivals: the slots the rules choose, in order, and the
    table they leave, each chosen slot being assigned to its arrival. *)
Fixpoint assign_all (prefs : gmap string Z) (t : table) (names : list string)
    : list nat * table :=
  match names with
  | [] => ([], t)
  | n :: rest =>
    let k := rule_slot prefs t n in
    let r := assign_all prefs (<[k := Some n]> t) rest in
    (k :: r.1, r.2)
  end.

(** How the source's table shows a slot of the specification: the
    identity, or the label of the unassigned slots. *)
Definition label (s : option string) : string := default unassigned s.

(** A table of the source that shows a table of the specification, none
    of whose identities is the label of the unassigned slots. *)
Definition shows {image : Type} (feeds : list (feed image)) (t : table)
    : Prop :=
  transmitter_name <$> feeds = label <$> t /\ Some unassigned ∉ t.

(** The preferences of the specification's example. *)
Definition example_preferences : gmap string Z :=
  <["A" := 0]> (<["B" := 1]> ∅).

End SlotSpec.

(* ===================================================================== *)
(** ** Receiver.py: the method's choice, search by search *)
(* ===================================================================== *)

Module Labels.
Import Feeds SlotSpec.

Section Searches.
Context {image : Type}.

(** The two tests the method makes on a slot (lines 615, 623, 633 and
    644): [feed['transmitter_name'] == 'N/A'] and
    [feed['transmitter_name'] == transmitter_name]. *)
Definition is_unassigned (f : feed image) : bool := named unassigned f.
Definition held_by (name : string) (f : feed image) : bool := named name f.

(** Step 1 (lines 612 to 617) on a preferred index of the table. *)
Definition pick_preferred (prefs : gmap string Z) (feeds : list (feed image))
    (name : string) : option nat :=
  match prefs !! name with
  | Some p =>
    match feeds !! Z.to_nat p with
    | Some f =>
      if is_unassigned f || held_by name f then Some (Z.to_nat p) else None
    | None => None
    end
  | None => None
  end.

(** Step 2 (lines 621 to 626). *)
Definition pick_existing (feeds : list (feed image)) (name : string)
    : option nat :=
  first_index (fun _ f => held_by name f) feeds.

(** Step 3 (lines 630 to 636), once step 1 has not chosen: the test
    [i not in preferred_assignments.values()] then excludes the same
    unassigned slots as [preferred_by_another]. *)
Definition pick_general (prefs : gmap string Z) (feeds : list (feed image))
    (name : string) : option nat :=
  first_index (fun i f => is_unassigned f
                          && negb (preferred_by_another prefs name i)) feeds.

(** Step 4, the first loop (lines 643 to 647). *)
Definition pick_fallback (feeds : list (feed image)) : option nat :=
  first_index (fun _ f => is_unassigned f) feeds.

(** The steps in their order; the last resort is slot 0 (line 651). *)
Definition pick_slot (prefs : gmap string Z) (feeds : list (feed image))
    (name : string) : nat :=
  match pick_preferred prefs feeds name with
  | Some i => i
  | None =>
    match pick_existing feeds name with
    | Some i => i
    | None =>
      match pick_general prefs feeds name with
      | Some i => i
      | None =>
        match pick_fallback feeds with
        | Some i => i
        | None => O
        end
      end
    end
  end.

(** Every preferred slot is a slot of the table. *)
Definition prefs_in_range (prefs : gmap string Z) (feeds : list (feed image))
    : Prop :=
  forall n p, prefs !! n = Some p -> 0 <= p < Z.of_nat (length feeds).

(** The preferred slot of an identity that sits elsewhere is taken. *)
Definition preferred_taken (prefs : gmap string Z) (feeds : list (feed image))
    : Prop :=
  forall i fi p,
    feeds !! i = Some fi ->
    transmitter_name fi <> unassigned ->
    prefs !! transmitter_name fi = Some p ->
    Z.to_nat p <> i ->
    exists fp, feeds !! Z.to_nat p = Some fp
               /\ transmitter_name fp <> unassigned.

(** No identity other than the label of the unassigned slots labels two
    slots. *)
Definition one_slot_each (feeds : list (feed image)) : Prop :=
  forall i j fi fj,
    feeds !! i = Some fi -> feeds !! j = Some fj ->
    transmitter_name fi = transmitter_name fj ->
    transmitter_name fi <> unassigned ->
    i = j.
End Searches.

End Labels.

(* ===================================================================== *)
(** ** Vocabulary of the statements *)
(* ===================================================================== *)

Module Wire.
Import PyBytes Receiver.

(** The bytes a connection delivers before it closes or fails. *)
Fixpoint stream (s : socket) : bytes :=
  match s with
  | [] => []
  | Data p :: rest => p ++ stream rest
  | Fault _ :: _ => []
  end.

(** A connection on which nothing but data arrives before the close. *)
Fixpoint clean (s : socket) : bool :=
  match s with
  | [] => true
  | Data _ :: rest => clean rest
  | Fault _ :: _ => false
  end.

(** The buffer after one more frame, and what the step logs: the pure
    content of [process_frame]. *)
Definition next_session (st : session) (full_frame_data : bytes) : session :=
  let f := parse_frame full_frame_data in
  let grid := <[(row_idx f, col_idx f) := chunk f]> (frame_grid st) in
  {| frame_grid := grid;
     max_row := Z.max (max_row st) (row_idx f);
     max_col := Z.max (max_col st) (col_idx f);
     total_frames_expected :=
       if total_frames_expected st =? -1 then current_total_frames f
       else total_frames_expected st;
     total_frames_received := Z.of_nat (size grid) |}.

Definition frame_events (st : session) (full_frame_data : bytes)
    : list log_event :=
  let f := parse_frame full_frame_data in
  (if total_frames_expected st =? -1
   then [LogExpecting (current_total_frames f)]
   else if negb (total_frames_expected st =? current_total_frames f)
   then [LogTotalMismatch (total_frames_expected st)
           (current_total_frames f) (row_idx f) (col_idx f)]
   else [])
  ++ [LogReceivedFrame (row_idx f) (col_idx f)].

(** The grid position a frame is stored at. *)
Definition key_of (full_frame_data : bytes) : Z * Z :=
  (row_idx (parse_frame full_frame_data),
   col_idx (parse_frame full_frame_data)).

(** The completion test of the frame loop. *)
Definition complete (st : session) : bool :=
  total_frames_received st =? total_frames_expected st.

(** The frame loop on a list of whole frames followed by the close of
    the connection: the buffer it ends with and what it logs. *)
Fixpoint run_frames (st : session) (fs : list bytes)
    : session * list log_event :=
  match fs with
  | [] => (st, [LogDisconnected])
  | f :: fs' =>
    let st' := next_session st f in
    if complete st'
    then (st', frame_events st f
               ++ [LogAllReceived (total_frames_expected st')])
    else let r := run_frames st' fs' in (r.1, frame_events st f ++ r.2)
  end.

(** All the frames of a list stored one after the other. *)
Definition feed (st : session) (fs : list bytes) : session :=
  foldl next_session st fs.

(** What the frames of a list log when each of them is stored. *)
Fixpoint feed_events (st : session) (fs : list bytes) : list log_event :=
  match fs with
  | [] => []
  | f :: fs' => frame_events st f ++ feed_events (next_session st f) fs'
  end.

(** The reconstruction loops, as values: the chunks of a row, the
    reports of its gaps, and the same for the whole grid. *)
Definition row_bytes (grid : gmap (Z * Z) bytes) (r : Z) (cs : list Z)
    : list bytes :=
  map (fun c => default [] (grid !! (r, c))) cs.

Definition row_missing (grid : gmap (Z * Z) bytes) (r : Z) (cs : list Z)
    : list log_event :=
  flat_map (fun c => match grid !! (r, c) with
                     | Some _ => []
                     | None => [LogMissingChunk r c]
                     end) cs.

Definition grid_bytes (grid : gmap (Z * Z) bytes) (max_row max_col : Z)
    : bytes :=
  concat (map (fun r => concat (row_bytes grid r (seqZ 0 (max_col + 1))))
              (seqZ 0 (max_row + 1))).

Definition grid_missing (grid : gmap (Z * Z) bytes) (max_row max_col : Z)
    : list log_event :=
  flat_map (fun r => row_missing grid r (seqZ 0 (max_col + 1)))
           (seqZ 0 (max_row + 1)).

(** The payload of frame [i]: its slice of the file, padded with zero
    bytes to the chunk size. *)
Definition padded_chunk (chunk_size : Z) (file_bytes : bytes) (i : Z) : bytes :=
  let raw := slice file_bytes (i * chunk_size) ((i + 1) * chunk_size) in
  raw ++ zeros (chunk_size - len raw).

(** Frame [i] of a transfer of [total] frames on [C] columns, written
    out: four big-endian 16-bit fields, two reserved zero bytes, the
    payload. *)
Definition frame_of (C chunk_size total : Z) (file_bytes : bytes) (i : Z)
    : bytes :=
  be_digits 2 i ++ be_digits 2 (i / C) ++ be_digits 2 (i mod C)
  ++ be_digits 2 total ++ [Byte.x00; Byte.x00]
  ++ padded_chunk chunk_size file_bytes i.

(** Frames that agree on the [total_frames] field [T]. *)
Definition agree (T : Z) (fs : list bytes) : Prop :=
  Forall (fun f => current_total_frames (parse_frame f) = T) fs.

(** The frames of the splitter, in the order it produces them. *)
Definition produced (C chunk_size T : Z) (file_bytes : bytes) : list bytes :=
  frame_of C chunk_size T file_bytes <$> seqZ 0 T.

(** Chunk [j] of a transfer of [T] chunks, nothing past the last one. *)
Definition within (T : Z) (g : Z -> bytes) (j : Z) : bytes :=
  if j <? T then g j else [].

(** UTF-8 decoding of ASCII text, the case the examples need: any byte
    above 127 is refused here. *)
Definition decode_ascii (b : bytes) : option string :=
  if forallb (fun x => byte_val x <? 128) b
  then Some (String.string_of_list_ascii (map Ascii.ascii_of_byte b))
  else None.

(** A file system in which every folder can be created. *)
Definition writable (d : folder) : option exn := None.

(** The transmitter's three folders can be created. *)
Definition folders_ok (os_makedirs : folder -> option exn) (name : string)
    : Prop :=
  os_makedirs (TransmitterFolder name) = None
  /\ os_makedirs (ImagesFolder name) = None
  /\ os_makedirs (FramesFolder name) = None.

(** A file system that refuses the folders of a transmitter whose name
    holds a NUL character, as [os.makedirs] does, and no other. *)
Definition has_nul (s : string) : bool :=
  existsb is_nul (String.list_ascii_of_string s).

Definition refuses_nul (d : folder) : option exn :=
  match d with
  | TransmitterFolder n | ImagesFolder n | FramesFolder n
  | RawFramesFolder n _ =>
    if has_nul n then Some (ValueError "embedded null byte") else None
  end.

(** The text [TX2] and the text [a.jpg], encoded. *)
Definition sample_name : bytes := [Byte.x54; Byte.x58; Byte.x32].
Definition sample_filename : bytes :=
  [Byte.x61; Byte.x2e; Byte.x6a; Byte.x70; Byte.x67].

(** A handshake that announces [frame_size], followed by [rest]. *)
Definition sample_stream (frame_size : Z) (rest : bytes) : bytes :=
  ljust sample_name 50 ++ ljust sample_filename 100
  ++ be_digits 4 frame_size ++ rest.

(** A file of 65536 chunks of 45 bytes, and a file of twelve chunks of
    one byte. *)
Definition large_file : bytes := replicate (Z.to_nat 2949120) Byte.x00.
Definition twelve_bytes : bytes := replicate 12 Byte.x41.

(** Ten bytes that follow a handshake in the examples. *)
Definition sample_rest : bytes :=
  [Byte.x00; Byte.x00; Byte.x00; Byte.x00; Byte.x00;
   Byte.x01; Byte.x00; Byte.x02; Byte.x00; Byte.x00].

(** Two sample frames of one payload byte: frame 0 at (0, 0) of a
    transfer of 3, and frame 1 at (0, 1) announcing a total of 5. *)
Definition sample_frame_a : bytes :=
  [Byte.x00; Byte.x00; Byte.x00; Byte.x00; Byte.x00; Byte.x00;
   Byte.x00; Byte.x03; Byte.x00; Byte.x00; Byte.x41].

Definition sample_frame_b : bytes :=
  [Byte.x00; Byte.x01; Byte.x00; Byte.x00; Byte.x00; Byte.x01;
   Byte.x00; Byte.x05; Byte.x00; Byte.x00; Byte.x42].

(** A computation that never exhausts the bound of its loops. *)
Definition returns {A} (m : M A) : Prop :=
  forall w, (m w).1 <> OutOfFuel.

(** The frame count of the source: [(len + chunk_size - 1) // chunk_size]. *)
Definition frame_count (file_bytes : bytes) (chunk_size : Z) : Z :=
  (len file_bytes + chunk_size - 1) / chunk_size.

End Wire.

(* ===================================================================== *)
(** ** Transmitter.py: sending a file *)
(* ===================================================================== *)

Module Sender.
Import PyBytes Transmitter.

(** The outgoing connection: what [sendall] has put on the wire so far,
    one entry per call, and how many more calls succeed before the
    connection breaks ([None]: it never breaks). *)
Record outbox : Type := Outbox { sent : list bytes; budget : option nat }.

Definition T (A : Type) : Type := outbox -> res A * outbox.

Definition ret {A} (a : A) : T A := fun o => (Done a, o).
Definition lift {A} (r : res A) : T A := fun o => (r, o).
Definition bind {A B} (m : T A) (k : A -> T B) : T B :=
  fun o =>
    match m o with
    | (Done a, o') => k a o'
    | (Raised e, o') => (Raised e, o')
    | (OutOfFuel, o') => (OutOfFuel, o')
    end.

(** [try: m except Exception as e: h e] *)
Definition try_except {A} (m : T A) (h : exn -> T A) : T A :=
  fun o =>
    match m o with
    | (Raised e, o') => h e o'
    | r => r
    end.

Local Notation "'let*' x ':=' m 'in' k" := (bind m (fun x => k))
  (at level 10, x pattern, k at level 200).
Local Notation "m ';;' k" := (bind m (fun _ => k))
  (at level 100, k at level 200, right associativity).

(** [conn.sendall(b)] *)
Definition sendall (b : bytes) : T unit :=
  fun o =>
    match budget o with
    | Some O => (Raised socket_error, o)
    | Some (S k) => (Done tt, {| sent := sent o ++ [b]; budget := Some k |})
    | None => (Done tt, {| sent := sent o ++ [b]; budget := None |})
    end.

(** [connect_to_receiver]: [true] for the connected socket it returns,
    [false] for [None].  [reachable] says whether [s.connect] succeeds;
    every exception is caught inside the method. *)
Definition connect_to_receiver (reachable : bool) (name : bytes) : T bool :=
  if reachable then
    try_except (sendall (ljust name 50) ;; ret true) (fun _ => ret false)
  else ret false.

(** The loop of [_send_data_task] over the frame files, which hold the
    frames in index order. *)
Fixpoint send_frames (frames : list bytes) : T unit :=
  match frames with
  | [] => ret tt
  | f :: rest => sendall f ;; send_frames rest
  end.

(** [_send_data_task] for a transmitter name, a file name and the bytes
    of the file: [true] when the loop over the frames ran to its end
    (the branch that reports the transmission complete).  Frame
    generation comes first and is outside the [try]; everything after it
    is inside. *)
Definition _send_data_task (reachable : bool) (name filename : bytes)
    (C : Z) (file_bytes : bytes) (total_frame_size : Z) : T bool :=
  let* generated := lift (generate_frames C file_bytes total_frame_size) in
  match generated with
  | None => ret false
  | Some (total_frames, frames) =>
    try_except
      (let* conn := connect_to_receiver reachable name in
       if negb conn then ret false
       else
         sendall (ljust filename 100) ;;
         let* size_bytes := lift (to_bytes total_frame_size 4) in
         sendall size_bytes ;;
         send_frames frames ;;
         ret true)
      (fun _ => ret false)
  end.

(** A fresh connection that never breaks. *)
Definition reliable : outbox := {| sent := []; budget := None |}.

End Sender.

(* ===================================================================== *)
(** ** Vocabulary of the further statements *)
(* ===================================================================== *)

Module Streams.
Import PyBytes Receiver Wire.

(** Two states of the handler that differ at most in how the bytes still
    to come are cut into segments. *)
Definition same_stream (w1 w2 : world) : Prop :=
  clean (conn w1) = true /\ clean (conn w2) = true
  /\ stream (conn w1) = stream (conn w2)
  /\ log w1 = log w2.

(** A computation whose result, log and unread bytes do not depend on
    the segmentation. *)
Definition respects {A} (m : M A) : Prop :=
  forall w1 w2, same_stream w1 w2 ->
    (m w1).1 = (m w2).1 /\ same_stream (m w1).2 (m w2).2.

(** Whether the frame loop, fed the frames of a list, ends because the
    transfer is complete, and how many frames it has read by then. *)
Fixpoint ends_complete (st : session) (fs : list bytes) : bool :=
  match fs with
  | [] => false
  | f :: fs' =>
    if complete (next_session st f) then true
    else ends_complete (next_session st f) fs'
  end.

Fixpoint consumed (st : session) (fs : list bytes) : nat :=
  match fs with
  | [] => O
  | f :: fs' =>
    if complete (next_session st f) then 1%nat
    else S (consumed (next_session st f) fs')
  end.

(** The first fault of a connection, if it has one. *)
Fixpoint first_fault (s : socket) : option exn :=
  match s with
  | [] => None
  | Data _ :: rest => first_fault rest
  | Fault e :: _ => Some e
  end.

End Streams.

(* ===================================================================== *)
(** ** What one transmission puts on the wire *)
(* ===================================================================== *)

Module Payloads.
Import PyBytes Transmitter Sender.

(** The payloads of the [sendall] calls of one transmission, in order:
    the name (from [connect_to_receiver]), the file name, the frame
    size, the frames. *)
Definition wire_messages (name filename size : bytes) (frames : list bytes)
    : list bytes :=
  ljust name 50 :: ljust filename 100 :: size :: frames.

(** How many of [n] calls of [sendall] go through. *)
Definition deliverable (reachable : bool) (b : option nat) (n : nat) : nat :=
  if reachable then
    match b with
    | None => n
    | Some k => Nat.min k n
    end
  else O.

End Payloads.

(* ===================================================================== *)
(** ** The gaps of the last row *)
(* ===================================================================== *)

Module Gaps.
Import PyBytes Receiver.

(** The missing-chunk reports of a transfer of [T] frames on [C]
    columns: the positions of the last row past the last frame, when the
    transfer has more than one row. *)
Definition last_row_gaps (C T : Z) : list log_event :=
  let R := (T - 1) / C in
  LogMissingChunk R
    <$> seqZ (T - R * C) (if T <=? C then 0 else (R + 1) * C - T).

End Gaps.

(* ===================================================================== *)
(** ** Buffers on the way to a complete transfer *)
(* ===================================================================== *)

Module Partial.
Import PyBytes Receiver Wire.

(** [m] is the largest coordinate of the filled positions of a grid,
    [-1] for the empty grid. *)
Definition tops (proj : Z * Z -> Z) (grid : gmap (Z * Z) bytes) (m : Z)
    : Prop :=
  (forall k v, grid !! k = Some v -> proj k <= m)
  /\ ((m = -1 /\ grid = ∅)
      \/ exists k v, grid !! k = Some v /\ proj k = m).

(** A buffer that holds some of the chunks of the transfer whose
    complete buffer is [whole]. *)
Definition part_of (whole : session) (st : session) : Prop :=
  frame_grid st ⊆ frame_grid whole
  /\ total_frames_received st = Z.of_nat (size (frame_grid st))
  /\ tops fst (frame_grid st) (max_row st)
  /\ tops snd (frame_grid st) (max_col st)
  /\ (total_frames_expected st = total_frames_expected whole
      \/ (total_frames_expected st = -1 /\ frame_grid st = ∅)).

End Partial.

(* ===================================================================== *)
(** ** Transmitter.py: camera and capture modes *)
(* ===================================================================== *)

Module Capture.

(** The flags of [TransmitterApp] the camera and capture controls read
    and write.  [cap] stands for [self.cap and self.cap.isOpened()]: a
    capture handle stays open until the application releases it. *)
Record app : Type := App {
  camera_running : bool;
  is_camera_display_on : bool;
  cap : bool;
  is_timer_capture_active : bool;
  is_continuous_capture_active : bool
}.

(** The flags as [__init__] sets them, before it starts the camera. *)
Definition fresh : app :=
  {| camera_running := false; is_camera_display_on := true; cap := false;
     is_timer_capture_active := false;
     is_continuous_capture_active := false |}.

Definition _pause_camera_display (a : app) : app :=
  if is_camera_display_on a then
    {| camera_running := camera_running a; is_camera_display_on := false;
       cap := cap a;
       is_timer_capture_active := is_timer_capture_active a;
       is_continuous_capture_active := is_continuous_capture_active a |}
  else a.

(** [update_live_camera_feed_display]; [frame_read] says whether
    [self.cap.read()] gives a frame.  A refresh that cannot read pauses
    the display; one that can schedules the next. *)
Definition update_live_camera_feed_display (frame_read : bool) (a : app)
    : app :=
  if negb (camera_running a) || negb (cap a)
     || negb (is_camera_display_on a) then a
  else if negb frame_read then _pause_camera_display a
  else a.

(** [_start_camera_stream]; [device] says whether [cv2.VideoCapture(0)]
    opens, [frame_read] whether the refresh it calls reads a frame. *)
Definition _start_camera_stream (device frame_read : bool) (a : app)
    : bool * app :=
  if cap a then
    (true,
     update_live_camera_feed_display frame_read
       {| camera_running := camera_running a; is_camera_display_on := true;
          cap := cap a;
          is_timer_capture_active := is_timer_capture_active a;
          is_continuous_capture_active := is_continuous_capture_active a |})
  else if device then
    (true,
     update_live_camera_feed_display frame_read
       {| camera_running := true; is_camera_display_on := true; cap := true;
          is_timer_capture_active := is_timer_capture_active a;
          is_continuous_capture_active := is_continuous_capture_active a |})
  else
    (false,
     {| camera_running := false; is_camera_display_on := false; cap := false;
        is_timer_capture_active := is_timer_capture_active a;
        is_continuous_capture_active := is_continuous_capture_active a |}).

Definition _stop_camera_stream (a : app) : app :=
  if negb (cap a) then a
  else
    {| camera_running := false; is_camera_display_on := false; cap := false;
       is_timer_capture_active := is_timer_capture_active a;
       is_continuous_capture_active := is_continuous_capture_active a |}.

Definition _resume_camera_display (a : app) : app :=
  if negb (is_camera_display_on a) && camera_running a then
    {| camera_running := camera_running a; is_camera_display_on := true;
       cap := cap a;
       is_timer_capture_active := is_timer_capture_active a;
       is_continuous_capture_active := is_continuous_capture_active a |}
  else a.

Definition start_camera (device frame_read : bool) (a : app) : app :=
  (_start_camera_stream device frame_read a).2.

Definition stop_camera (a : app) : app :=
  if is_continuous_capture_active a then a
  else if is_timer_capture_active a then a
  else if camera_running a then _stop_camera_stream a
  else a.

(** [toggle_timer_capture] with the value of [data_size_var]. *)
Definition toggle_timer_capture (data_size : Z) (a : app) : app :=
  if is_timer_capture_active a then
    _resume_camera_display
      {| camera_running := camera_running a;
         is_camera_display_on := is_camera_display_on a; cap := cap a;
         is_timer_capture_active := false;
         is_continuous_capture_active := is_continuous_capture_active a |}
  else if negb (camera_running a) then a
  else if is_continuous_capture_active a then a
  else if (data_size <? 55) || (100 <? data_size) then a
  else
    {| camera_running := camera_running a;
       is_camera_display_on := is_camera_display_on a; cap := cap a;
       is_timer_capture_active := true;
       is_continuous_capture_active := is_continuous_capture_active a |}.

(** [toggle_continuous_capture] with the value of [data_size_var]. *)
Definition toggle_continuous_capture (data_size : Z) (a : app) : app :=
  if is_continuous_capture_active a then
    {| camera_running := camera_running a;
       is_camera_display_on := is_camera_display_on a; cap := cap a;
       is_timer_capture_active := is_timer_capture_active a;
       is_continuous_capture_active := false |}
  else if negb (camera_running a) then a
  else if is_timer_capture_active a then a
  else if (data_size <? 55) || (100 <? data_size) then a
  else
    {| camera_running := camera_running a;
       is_camera_display_on := is_camera_display_on a; cap := cap a;
       is_timer_capture_active := is_timer_capture_active a;
       is_continuous_capture_active := true |}.

(** [exit_application] up to the destruction of the window;
    [confirmed] is the answer to its question. *)
Definition exit_application (confirmed : bool) (a : app) : app :=
  if confirmed then
    let a' :=
      {| camera_running := camera_running a;
         is_camera_display_on := is_camera_display_on a; cap := cap a;
         is_timer_capture_active := false;
         is_continuous_capture_active := false |} in
    if cap a' then _stop_camera_stream a' else a'
  else a.

(** What can happen to the flags: the buttons, the scheduled refresh
    of the display, and the two calls the timer loop makes from its
    thread (it resumes the display only while the timer is active). *)
Inductive event : Type :=
  | StartCamera (device frame_read : bool)
  | DisplayRefresh (frame_read : bool)
  | StopCamera
  | ToggleTimer (data_size : Z)
  | ToggleContinuous (data_size : Z)
  | Exit (confirmed : bool)
  | DisplayPaused
  | TimerLoopResumes.

Definition step (a : app) (ev : event) : app :=
  match ev with
  | StartCamera device frame_read => start_camera device frame_read a
  | DisplayRefresh frame_read => update_live_camera_feed_display frame_read a
  | StopCamera => stop_camera a
  | ToggleTimer d => toggle_timer_capture d a
  | ToggleContinuous d => toggle_continuous_capture d a
  | Exit c => exit_application c a
  | DisplayPaused => _pause_camera_display a
  | TimerLoopResumes =>
      if is_timer_capture_active a then _resume_camera_display a else a
  end.

(** The application after [__init__] and a sequence of events. *)
Definition launched (device frame_read : bool) : app :=
  start_camera device frame_read fresh.

Definition run (a : app) (evs : list event) : app := foldl step a evs.

(** What the controls keep true. *)
Definition safe (a : app) : Prop :=
  (is_timer_capture_active a && is_continuous_capture_active a = false)
  /\ (is_timer_capture_active a || is_continuous_capture_active a = true ->
      camera_running a = true)
  /\ camera_running a = cap a
  /\ (is_camera_display_on a = true -> camera_running a = true).

End Capture.

(* ===================================================================== *)
(** ** The kinds of log entries *)
(* ===================================================================== *)

Module Entries.
Import PyBytes Receiver.

(** What the frame loop logs for a frame it stores. *)
Definition frame_event (ev : log_event) : bool :=
  match ev with
  | LogExpecting _ | LogTotalMismatch _ _ _ _ | LogReceivedFrame _ _ => true
  | _ => false
  end.

(** What the reconstruction logs. *)
Definition gap_event (ev : log_event) : bool :=
  match ev with
  | LogMissingChunk _ _ => true
  | _ => false
  end.

(** A computation that only ever adds to the log. *)
Definition extends {A} (m : M A) : Prop :=
  forall w, exists l, log (m w).2 = log w ++ l.

End Entries.

(* ===================================================================== *)
(** * Properties *)
(* ===================================================================== *)

(** ** The exact-read helper *)

Module ExactRead.
Import PyBytes Receiver Wire.

Lemma recv_from_clean s k :
  clean s = true ->
  exists d s',
    recv_from s k = (Done d, s') /\ clean s' = true /\
    stream s = d ++ stream s' /\
    (length d <= Z.to_nat k)%nat /\
    (0 < k -> stream s <> [] -> d <> []).
Proof.
  induction s as [|[p|e] rest IH]; simpl; intros Hc.
  - exists [], []. split_and!; [done | done | done | simpl; lia | done].
  - destruct p as [|b p].
    + by apply IH.
    + exists (take (Z.to_nat k) (b :: p)), (Data (drop (Z.to_nat k) (b :: p)) :: rest).
      split_and!; [done | done | | |].
      * simpl. by rewrite app_assoc, take_drop.
      * rewrite length_take. lia.
      * intros Hk _. destruct (Z.to_nat k) eqn:E; [lia | done].
  - done.
Qed.

Lemma recv_all_loop_clean fuel : forall n data s lg,
  clean s = true ->
  (Z.to_nat (n - len data) < fuel)%nat ->
  (n <= len data + len (stream s) ->
     exists s',
       recv_all_loop fuel n data (World s lg)
       = (Done (Some (data ++ take (Z.to_nat (n - len data)) (stream s))),
          World s' lg)
       /\ clean s' = true
       /\ stream s' = drop (Z.to_nat (n - len data)) (stream s))
  /\ (len data + len (stream s) < n ->
     exists s',
       recv_all_loop fuel n data (World s lg) = (Done None, World s' lg)
       /\ clean s' = true /\ stream s' = []).
Proof.
  induction fuel as [|fuel IH]; intros n data s lg Hc Hf; [lia|].
  simpl. destruct (Z.ltb_spec (len data) n) as [Hlt|Hge].
  - unfold bind, recv; simpl.
    destruct (recv_from_clean s (n - len data) Hc)
      as (d & s1 & -> & Hc1 & Hs & Hd & Hne).
    destruct d as [|b d].
    + simpl in Hs. split.
      * intros Hn. exfalso.
        destruct (stream s) eqn:E; [unfold len in *; simpl in *; lia|].
        apply Hne; [lia | done | done].
      * intros _. exists s1. repeat split; auto.
        destruct (stream s) eqn:E; [by rewrite <- Hs|].
        exfalso. apply Hne; [lia | done | done].
    + assert (Hf' : (Z.to_nat (n - len (data ++ b :: d)) < fuel)%nat).
      { unfold len in *. rewrite length_app. simpl in *. lia. }
      destruct (IH n (data ++ b :: d) s1 lg Hc1 Hf') as [IHa IHb].
      assert (Hlen : len (data ++ b :: d) + len (stream s1)
                     = len data + len (stream s)).
      { rewrite Hs. unfold len. rewrite !length_app. lia. }
      split.
      * intros Hn. destruct IHa as (s' & -> & Hc' & Hs'); [lia|].
        exists s'. repeat split; auto.
        -- do 2 f_equal. rewrite <- app_assoc. f_equal. rewrite Hs.
           replace (Z.to_nat (n - len data))
             with (length (b :: d) + Z.to_nat (n - len (data ++ b :: d)))%nat.
           ++ by rewrite take_app_add.
           ++ unfold len in *. rewrite length_app. simpl in *. lia.
        -- rewrite Hs', Hs.
           replace (Z.to_nat (n - len data))
             with (length (b :: d) + Z.to_nat (n - len (data ++ b :: d)))%nat.
           ++ by rewrite drop_app_add.
           ++ unfold len in *. rewrite length_app. simpl in *. lia.
      * intros Hn. destruct IHb as (s' & -> & Hc' & Hs'); [lia|].
        by exists s'.
  - split.
    + intros _. exists s. unfold ret.
      replace (Z.to_nat (n - len data)) with O by lia.
      rewrite take_0, drop_0, app_nil_r. done.
    + intros Hn. unfold len in *. lia.
Qed.

Lemma pending_data p rest :
  pending (Data p :: rest) = (length p + pending rest)%nat.
Proof. reflexivity. Qed.

Lemma pending_fault e rest : pending (Fault e :: rest) = pending rest.
Proof. reflexivity. Qed.

Lemma recv_from_pending s k r s' :
  recv_from s k = (r, s') ->
  (pending s' <= pending s)%nat /\
  forall d, r = Done d ->
    (length d <= Z.to_nat k)%nat /\ (pending s' + length d = pending s)%nat.
Proof.
  revert r s'. induction s as [|[p|e] rest IH]; intros r s' H.
  - inversion H; subst. split; [done|]. intros d [= <-].
    split; [simpl; lia | reflexivity].
  - rewrite pending_data. destruct p as [|b p].
    + by apply IH.
    + inversion H; subst; clear H. rewrite pending_data, length_drop.
      split; [lia|]. intros d [= <-]. rewrite length_take. lia.
  - inversion H; subst. rewrite pending_fault. split; [lia | done].
Qed.

(** Whatever arrives, a returned byte string has the requested length,
    and it was taken off the connection. *)
Lemma recv_all_loop_exact fuel : forall n data w d w',
  len data <= n ->
  recv_all_loop fuel n data w = (Done (Some d), w') ->
  len d = n /\ log w' = log w /\
  (pending (conn w') + length d = pending (conn w) + length data)%nat.
Proof.
  induction fuel as [|fuel IH]; intros n data w d w' Hle H; [done|].
  simpl in H. destruct (Z.ltb_spec (len data) n) as [Hlt|Hge].
  - unfold bind, recv in H.
    destruct (recv_from (conn w) (n - len data)) as [r s1] eqn:E.
    destruct (recv_from_pending _ _ _ _ E) as [_ Hp].
    destruct r as [pk| |]; try done.
    destruct (Hp pk eq_refl) as [Hk Hpd].
    destruct pk as [|b pk]; [done|].
    apply IH in H.
    + destruct H as (? & ? & Hq). split_and!; [done | done |].
      simpl in *. rewrite length_app in Hq. simpl in *. lia.
    + unfold len in *. rewrite length_app. simpl in *. lia.
  - inversion H; subst. split_and!; [lia | done | done].
Qed.

(** The bound of [_recv_all] is never exhausted. *)
Lemma recv_all_loop_total fuel : forall n data w,
  (Z.to_nat (n - len data) < fuel)%nat ->
  (recv_all_loop fuel n data w).1 <> OutOfFuel.
Proof.
  induction fuel as [|fuel IH]; intros n data w Hf; [lia|].
  simpl. destruct (Z.ltb_spec (len data) n) as [Hlt|Hge]; [|done].
  unfold bind, recv.
  destruct (recv_from (conn w) (n - len data)) as [r s1] eqn:E.
  destruct r as [pk| |]; simpl; try done.
  - destruct pk as [|b pk]; [done|]. apply IH.
    unfold len in *. rewrite length_app. simpl in *. lia.
  - exfalso. clear -E. revert E. generalize (n - len data).
    induction (conn w) as [|[[|b p]|e] rest IH]; simpl; intros k E;
      try done. by eapply IH.
Qed.

(** C10. For every requested count [n >= 0], [_recv_all] returns
    (it never runs out of its bound) and what it returns is either
    exactly [n] bytes or [None]: when the connection closes before [n]
    bytes have arrived the result is [None] and the bytes that did
    arrive are gone from the connection; when at least [n] bytes arrive
    the result is the first [n] of them and the rest stays. *)
Theorem recv_all_exact_or_none (n : Z) (w : world) :
  0 <= n ->
  (_recv_all n w).1 <> OutOfFuel
  /\ (forall d w', _recv_all n w = (Done (Some d), w') -> len d = n)
  /\ (clean (conn w) = true -> len (stream (conn w)) < n ->
      exists s', _recv_all n w = (Done None, World s' (log w))
                 /\ stream s' = [])
  /\ (clean (conn w) = true -> n <= len (stream (conn w)) ->
      exists s', _recv_all n w
                 = (Done (Some (take (Z.to_nat n) (stream (conn w)))),
                    World s' (log w))
                 /\ stream s' = drop (Z.to_nat n) (stream (conn w))).
Proof.
  intros Hn. unfold _recv_all. split_and!.
  - apply recv_all_loop_total. unfold len; simpl. lia.
  - intros d w' H. apply recv_all_loop_exact in H; [tauto|].
    unfold len; simpl; lia.
  - intros Hc Hlt. destruct w as [s lg]; cbn [conn log] in *.
    destruct (recv_all_loop_clean (S (Z.to_nat n)) n [] s lg Hc) as [_ Hb].
    { unfold len; simpl; lia. }
    destruct Hb as (s' & -> & _ & Hs); [unfold len in *; simpl; lia|].
    by exists s'.
  - intros Hc Hge. destruct w as [s lg]; cbn [conn log] in *.
    destruct (recv_all_loop_clean (S (Z.to_nat n)) n [] s lg Hc) as [Ha _].
    { unfold len; simpl; lia. }
    destruct Ha as (s' & -> & _ & Hs); [unfold len in *; simpl; lia|].
    exists s'. unfold len in *; simpl in *.
    by replace (n - Z.of_nat 0) with n in * by lia.
Qed.

Lemma recv_all_exact_or_none_witness :
  0 <= 4 /\
  (_recv_all 4 (World [Data [Byte.x01; Byte.x02]; Data [Byte.x03]] [])).1
    = Done None.
Proof.
  split; [lia|].
  destruct (recv_all_exact_or_none 4
              (World [Data [Byte.x01; Byte.x02]; Data [Byte.x03]] []))
    as (_ & _ & H & _); [lia|].
  destruct H as (s' & -> & _); reflexivity.
Defined.

End ExactRead.

(** ** The per-frame step of the reconstruction engine *)

Module FrameStep.
Import PyBytes Receiver Wire.

#[local] Arguments parse_frame : simpl never.

Lemma process_frame_eq st full w :
  process_frame st full w
  = (Done (next_session st full),
     World (conn w) (log w ++ frame_events st full)).
Proof.
  unfold process_frame, next_session, frame_events.
  destruct (total_frames_expected st =? -1);
    [|destruct (total_frames_expected st
                =? current_total_frames (parse_frame full))];
    unfold bind, _log_event, ret; simpl; try rewrite <- app_assoc; done.
Qed.

Lemma next_grid st full :
  frame_grid (next_session st full)
  = <[(row_idx (parse_frame full), col_idx (parse_frame full))
      := chunk (parse_frame full)]> (frame_grid st).
Proof. reflexivity. Qed.

Lemma next_received st full :
  total_frames_received (next_session st full)
  = Z.of_nat (size (frame_grid (next_session st full))).
Proof. reflexivity. Qed.

Lemma next_expected st full :
  total_frames_expected (next_session st full)
  = if total_frames_expected st =? -1
    then current_total_frames (parse_frame full)
    else total_frames_expected st.
Proof. reflexivity. Qed.

Lemma next_max_row st full :
  max_row (next_session st full)
  = Z.max (max_row st) (row_idx (parse_frame full)).
Proof. reflexivity. Qed.

Lemma next_max_col st full :
  max_col (next_session st full)
  = Z.max (max_col st) (col_idx (parse_frame full)).
Proof. reflexivity. Qed.

Lemma session_eq (a b : session) :
  frame_grid a = frame_grid b -> max_row a = max_row b ->
  max_col a = max_col b ->
  total_frames_expected a = total_frames_expected b ->
  total_frames_received a = total_frames_received b ->
  a = b.
Proof. destruct a, b; simpl; intros; subst; reflexivity. Qed.

Lemma from_bytes_acc_nonneg b : forall a,
  0 <= a -> 0 <= foldl (fun acc x => acc * 256 + byte_val x) a b.
Proof.
  induction b as [|x b IH]; simpl; intros a Ha; [done|].
  apply IH. unfold byte_val. lia.
Qed.

Lemma from_bytes_nonneg b : 0 <= from_bytes b.
Proof. by apply from_bytes_acc_nonneg. Qed.

(** Once a frame has been processed the expected count is set: a header
    field is never negative, so the value [-1] cannot come back. *)
Lemma expected_set_after_frame st full :
  total_frames_expected (next_session st full) <> -1.
Proof.
  unfold next_session; simpl.
  destruct (Z.eqb_spec (total_frames_expected st) (-1)); [|done].
  pose proof (from_bytes_nonneg
                (slice (slice_to full expected_header_size) 6 8)).
  unfold parse_frame; simpl. lia.
Qed.

(** C7. Once [total_frames_expected] is set, a frame whose
    [total_frames] field disagrees is processed like any other: the
    step logs the mismatch warning and the received frame, keeps
    [total_frames_expected], stores the chunk at the frame's own
    [(row, col)] and leaves every other entry of the buffer as it was. *)
Theorem mismatch_keeps_expected (st : session) (full : bytes) (w : world) :
  total_frames_expected st <> -1 ->
  current_total_frames (parse_frame full) <> total_frames_expected st ->
  let f := parse_frame full in
  exists st',
    process_frame st full w
    = (Done st',
       World (conn w)
         (log w ++ [LogTotalMismatch (total_frames_expected st)
                      (current_total_frames f) (row_idx f) (col_idx f);
                    LogReceivedFrame (row_idx f) (col_idx f)]))
    /\ total_frames_expected st' = total_frames_expected st
    /\ total_frames_expected st' <> current_total_frames f
    /\ frame_grid st' !! (row_idx f, col_idx f) = Some (chunk f)
    /\ (forall k, k <> (row_idx f, col_idx f) ->
          frame_grid st' !! k = frame_grid st !! k).
Proof.
  intros Hset Hne f. subst f. exists (next_session st full).
  rewrite process_frame_eq, next_expected, next_grid. unfold frame_events.
  destruct (Z.eqb_spec (total_frames_expected st) (-1)); [done|].
  destruct (Z.eqb_spec (total_frames_expected st)
              (current_total_frames (parse_frame full)));
    [congruence|].
  split_and!; try done.
  - apply lookup_insert_eq.
  - intros k Hk. by apply lookup_insert_ne.
Qed.

Lemma mismatch_keeps_expected_witness :
  exists st' w',
    process_frame (next_session new_session sample_frame_a) sample_frame_b
      (World [] [])
    = (Done st', w')
    /\ total_frames_expected st' = 3.
Proof.
  destruct (mismatch_keeps_expected
              (next_session new_session sample_frame_a) sample_frame_b
              (World [] []))
    as (st' & H & He & _); [vm_compute; lia | vm_compute; lia |].
  exists st'. eexists. split; [exact H | exact He].
Defined.

(** C8. When the buffer already holds a chunk at the frame's
    [(row, col)], processing the frame replaces that chunk and nothing
    else, and the count of received frames, which is the number of
    filled positions, stays what it was. *)
Theorem duplicate_keeps_count (st : session) (full : bytes) (w : world) :
  let f := parse_frame full in
  is_Some (frame_grid st !! (row_idx f, col_idx f)) ->
  total_frames_received st = Z.of_nat (size (frame_grid st)) ->
  exists st' w',
    process_frame st full w = (Done st', w')
    /\ frame_grid st' !! (row_idx f, col_idx f) = Some (chunk f)
    /\ (forall k, k <> (row_idx f, col_idx f) ->
          frame_grid st' !! k = frame_grid st !! k)
    /\ size (frame_grid st') = size (frame_grid st)
    /\ total_frames_received st' = total_frames_received st.
Proof.
  intros f [old Hold] Hcount. subst f.
  exists (next_session st full), (World (conn w) (log w ++ frame_events st full)).
  rewrite process_frame_eq, next_received, next_grid.
  set (f := parse_frame full) in *.
  assert (Hsize : size (<[(row_idx f, col_idx f) := chunk f]> (frame_grid st))
                  = size (frame_grid st)).
  { by eapply map_size_insert_Some. }
  split_and!; try done.
  - apply lookup_insert_eq.
  - intros k Hk. by apply lookup_insert_ne.
  - by rewrite Hsize, Hcount.
Qed.

Lemma duplicate_keeps_count_witness :
  exists st' w',
    process_frame (next_session new_session sample_frame_a) sample_frame_a
      (World [] [])
    = (Done st', w')
    /\ total_frames_received st' = 1.
Proof.
  destruct (duplicate_keeps_count
              (next_session new_session sample_frame_a) sample_frame_a
              (World [] []))
    as (st' & w' & H & _ & _ & _ & Hr);
    [vm_compute; eexists; reflexivity | vm_compute; reflexivity |].
  exists st', w'. split; [exact H | exact Hr].
Defined.

End FrameStep.

(** ** The chunk splitter *)

Module Splitter.
Import PyBytes Transmitter Receiver Wire.

Lemma byte_val_of_Z v : byte_val (byte_of_Z v) = v mod 256.
Proof.
  unfold byte_val, byte_of_Z.
  pose proof (Z.mod_pos_bound v 256 ltac:(lia)) as Hb.
  destruct (Byte.of_N (Z.to_N (v mod 256))) as [b|] eqn:E.
  - apply Byte.to_of_N in E. rewrite E. lia.
  - apply Byte.of_N_None_iff in E. lia.
Qed.

Lemma be_digits_2 v : be_digits 2 v = [byte_of_Z (v / 256); byte_of_Z v].
Proof. reflexivity. Qed.

Lemma from_bytes_be_2 v :
  0 <= v < 65536 -> from_bytes (be_digits 2 v) = v.
Proof.
  intros Hv. rewrite be_digits_2. unfold from_bytes; simpl.
  rewrite !byte_val_of_Z.
  rewrite (Z.mod_small (v / 256)) by (split; [apply Z.div_pos | apply Z.div_lt_upper_bound]; lia).
  pose proof (Z.div_mod v 256 ltac:(lia)). lia.
Qed.

Lemma to_bytes_2 v : 0 <= v < 65536 -> to_bytes v 2 = Done (be_digits 2 v).
Proof.
  intros Hv. unfold to_bytes.
  destruct (Z.leb_spec 0 v); [|lia].
  destruct (Z.ltb_spec v (256 ^ Z.of_nat 2)); [done|].
  change (256 ^ Z.of_nat 2) with 65536 in *. lia.
Qed.

Lemma to_bytes_2_overflow v : 65536 <= v -> to_bytes v 2 = Raised OverflowError.
Proof.
  intros Hv. unfold to_bytes.
  destruct (Z.ltb_spec v (256 ^ Z.of_nat 2)) as [H|H].
  - change (256 ^ Z.of_nat 2) with 65536 in *. lia.
  - by rewrite andb_false_r.
Qed.

Lemma length_zeros k : length (zeros k) = Z.to_nat k.
Proof. apply length_replicate. Qed.

Lemma length_padded_chunk cs file i :
  0 < cs -> 0 <= i -> len (padded_chunk cs file i) = cs.
Proof.
  intros Hcs Hi. unfold padded_chunk, len, slice.
  rewrite length_app, length_zeros, length_take, length_drop. nia.
Qed.

Lemma make_frame_ok C cs total file i :
  1 <= C -> 0 <= i < 65536 -> 0 <= total < 65536 ->
  make_frame C cs total file i = Done (frame_of C cs total file i).
Proof.
  intros HC Hi Ht. unfold make_frame, make_header, frame_of.
  destruct (Z.eqb_spec C 0); [lia|].
  assert (0 <= i / C < 65536).
  { split; [apply Z.div_pos; lia|]. apply Z.div_lt_upper_bound; nia. }
  assert (0 <= i mod C < 65536).
  { pose proof (Z.mod_pos_bound i C ltac:(lia)).
    pose proof (Z.mod_le i C ltac:(lia) ltac:(lia)). lia. }
  rewrite !to_bytes_2 by lia. reflexivity.
Qed.

Lemma parse_frame_cons a1 a2 b1 b2 c1 c2 d1 d2 e1 e2 payload :
  parse_frame (a1 :: a2 :: b1 :: b2 :: c1 :: c2 :: d1 :: d2 :: e1 :: e2
               :: payload)
  = {| frame_idx := from_bytes [a1; a2]; row_idx := from_bytes [b1; b2];
       col_idx := from_bytes [c1; c2];
       current_total_frames := from_bytes [d1; d2];
       chunk := payload |}.
Proof. reflexivity. Qed.

(** What the receiver reads back from a frame of the splitter. *)
Lemma parse_frame_of C cs total file i :
  1 <= C -> 0 <= i < 65536 -> 0 <= total < 65536 ->
  parse_frame (frame_of C cs total file i)
  = {| frame_idx := i; row_idx := i / C; col_idx := i mod C;
       current_total_frames := total;
       chunk := padded_chunk cs file i |}.
Proof.
  intros HC Hi Ht.
  assert (0 <= i / C < 65536).
  { split; [apply Z.div_pos; lia|]. apply Z.div_lt_upper_bound; nia. }
  assert (0 <= i mod C < 65536).
  { pose proof (Z.mod_pos_bound i C ltac:(lia)).
    pose proof (Z.mod_le i C ltac:(lia) ltac:(lia)). lia. }
  unfold frame_of. rewrite !be_digits_2. cbn [app].
  rewrite parse_frame_cons.
  rewrite <- !be_digits_2, !from_bytes_be_2 by lia. reflexivity.
Qed.

Lemma length_frame_of C cs total file i :
  0 < cs -> 0 <= i -> len (frame_of C cs total file i) = header_size + cs.
Proof.
  intros Hcs Hi. pose proof (length_padded_chunk cs file i Hcs Hi) as Hl.
  unfold frame_of, len in *. rewrite !length_app, !be_digits_2.
  simpl length. unfold header_size. lia.
Qed.

Lemma frames_loop_ok C cs total file (indices : list Z) :
  1 <= C -> 0 <= total < 65536 ->
  Forall (fun i => 0 <= i < 65536) indices ->
  frames_loop C cs total file indices
  = Done (map (frame_of C cs total file) indices).
Proof.
  intros HC Ht. induction 1 as [|i rest Hi _ IH]; simpl; [done|].
  by rewrite make_frame_ok, IH.
Qed.

(** The frame count is the ceiling of [len / chunk_size]. *)
Lemma frame_count_ceiling file cs :
  0 < cs ->
  (frame_count file cs - 1) * cs < len file <= frame_count file cs * cs.
Proof.
  intros Hcs. unfold frame_count.
  pose proof (Z.div_mod (len file + cs - 1) cs ltac:(lia)).
  pose proof (Z.mod_pos_bound (len file + cs - 1) cs Hcs). nia.
Qed.

Lemma frame_count_nonneg file cs : 0 < cs -> 0 <= frame_count file cs.
Proof.
  intros Hcs. unfold frame_count, len. apply Z.div_pos; lia.
Qed.

Lemma frame_count_pos file cs :
  0 < cs -> file <> [] -> 1 <= frame_count file cs.
Proof.
  intros Hcs Hne. pose proof (frame_count_ceiling file cs Hcs).
  destruct file; [done|]. unfold len in *. simpl in *. nia.
Qed.

Lemma generate_frames_config_error C file frame_size :
  frame_size - header_size <= 0 ->
  generate_frames C file frame_size = Done None.
Proof.
  intros H. unfold generate_frames.
  destruct (Z.leb_spec (frame_size - header_size) 0); [done | lia].
Qed.

Lemma generate_frames_ok C file frame_size :
  1 <= C -> 0 < frame_size - header_size ->
  frame_count file (frame_size - header_size) <= 65535 ->
  generate_frames C file frame_size
  = Done (Some (frame_count file (frame_size - header_size),
                map (frame_of C (frame_size - header_size)
                       (frame_count file (frame_size - header_size)) file)
                    (seqZ 0 (frame_count file (frame_size - header_size))))).
Proof.
  intros HC Hcs Ht. unfold generate_frames.
  destruct (Z.leb_spec (frame_size - header_size) 0); [lia|].
  fold (frame_count file (frame_size - header_size)).
  pose proof (frame_count_nonneg file _ Hcs).
  rewrite frames_loop_ok; [done | done | lia |].
  apply Forall_seqZ. lia.
Qed.

Lemma generate_frames_overflow C file frame_size :
  1 <= C -> 0 < frame_size - header_size ->
  65535 < frame_count file (frame_size - header_size) ->
  generate_frames C file frame_size = Raised OverflowError.
Proof.
  intros HC Hcs Ht. unfold generate_frames.
  destruct (Z.leb_spec (frame_size - header_size) 0); [lia|].
  fold (frame_count file (frame_size - header_size)).
  rewrite seqZ_cons by lia. simpl.
  unfold make_frame, make_header.
  destruct (Z.eqb_spec C 0); [lia|].
  rewrite Z.div_0_l, Z.mod_0_l by lia.
  rewrite !(to_bytes_2 0) by lia. simpl.
  by rewrite to_bytes_2_overflow by lia.
Qed.

(** C6, as the code has it. For a column count [C >= 1] the splitter
    returns its configuration error exactly when [frame_size - 10] is
    not positive. Otherwise, when the frame count
    [ceil (len / chunk_size)] fits the 16-bit header field, it produces
    that many frames, frame [i] being [frame_size] bytes long, carrying
    [(row, col) = (i / C, i mod C)] and the [i]-th slice of the file
    padded with zero bytes to [chunk_size]; when the count does not fit
    it raises [OverflowError] and produces nothing. *)
Theorem splitter_contract (C : Z) (file : bytes) (frame_size : Z) :
  1 <= C ->
  let cs := frame_size - header_size in
  let total := frame_count file cs in
  (generate_frames C file frame_size = Done None <-> cs <= 0)
  /\ (0 < cs -> total <= 65535 ->
      (total - 1) * cs < len file <= total * cs
      /\ exists frames,
           generate_frames C file frame_size = Done (Some (total, frames))
           /\ Z.of_nat (length frames) = total
           /\ forall i, 0 <= i < total ->
                exists fr,
                  frames !! Z.to_nat i = Some fr
                  /\ len fr = frame_size
                  /\ parse_frame fr
                     = {| frame_idx := i; row_idx := i / C;
                          col_idx := i mod C;
                          current_total_frames := total;
                          chunk := padded_chunk cs file i |}
                  /\ len (padded_chunk cs file i) = cs)
  /\ (0 < cs -> 65535 < total ->
      generate_frames C file frame_size = Raised OverflowError).
Proof.
  intros HC cs total.
  pose proof (generate_frames_config_error C file frame_size) as Gerr.
  pose proof (generate_frames_ok C file frame_size HC) as Gok.
  pose proof (generate_frames_overflow C file frame_size HC) as Gov.
  pose proof (frame_count_ceiling file cs) as Hceil.
  pose proof (frame_count_nonneg file cs) as Hnn.
  assert (Ecs : frame_size = header_size + cs) by (unfold cs; lia).
  fold cs in Gerr, Gok, Gov. fold total in Gok, Gov, Hceil, Hnn.
  clearbody total. clearbody cs.
  split_and!.
  - split; [|done].
    intros H. destruct (Z.le_gt_cases cs 0) as [|Hcs]; [done|].
    destruct (Z.le_gt_cases total 65535) as [Ht|Ht].
    + by rewrite Gok in H.
    + by rewrite Gov in H.
  - intros Hcs Ht. split; [by apply Hceil|].
    eexists. split; [by apply Gok|].
    split; [rewrite length_map, length_seqZ; lia|].
    intros i Hi. exists (frame_of C cs total file i). split_and!.
    + rewrite list_lookup_fmap, lookup_seqZ_lt by lia.
      simpl. do 2 f_equal. lia.
    + rewrite length_frame_of by lia. lia.
    + apply parse_frame_of; lia.
    + apply length_padded_chunk; lia.
  - intros Hcs Ht. by apply Gov.
Qed.

Lemma splitter_contract_witness :
  1 <= 4 /\
  (generate_frames 4 [Byte.x41; Byte.x42; Byte.x43] 12 = Done None
   <-> 12 - header_size <= 0).
Proof.
  split; [lia|].
  exact (proj1 (splitter_contract 4 [Byte.x41; Byte.x42; Byte.x43] 12
                  ltac:(lia))).
Defined.

(** A file of 65536 chunks at frame size 55: the splitter has a
    positive chunk size and yet produces no frame. *)
Lemma splitter_overflow_counterexample :
  0 < 55 - header_size
  /\ frame_count large_file (55 - header_size) = 65536
  /\ generate_frames_from_file large_file 55 = Raised OverflowError
  /\ ~ (exists frames,
         generate_frames_from_file large_file 55
         = Done (Some (frame_count large_file (55 - header_size), frames))).
Proof.
  assert (Hc : frame_count large_file (55 - header_size) = 65536).
  { unfold frame_count, len, large_file.
    rewrite length_replicate, Z2Nat.id by lia. reflexivity. }
  assert (Hg : generate_frames_from_file large_file 55 = Raised OverflowError).
  { apply generate_frames_overflow; [unfold cols | unfold header_size | ]; lia. }
  split_and!; [unfold header_size; lia | done | done |].
  intros [frames H]. by rewrite Hg in H.
Qed.

End Splitter.

(** ** The frame loop *)

Module FrameLoop.
Import PyBytes Receiver Wire ExactRead FrameStep.

Lemma recv_all_enough n s lg :
  clean s = true -> 0 <= n <= len (stream s) ->
  exists s',
    _recv_all n (World s lg)
    = (Done (Some (take (Z.to_nat n) (stream s))), World s' lg)
    /\ clean s' = true /\ stream s' = drop (Z.to_nat n) (stream s).
Proof.
  intros Hc Hn. unfold _recv_all.
  destruct (recv_all_loop_clean (S (Z.to_nat n)) n [] s lg Hc) as [Ha _].
  { unfold len; simpl; lia. }
  destruct Ha as (s' & -> & Hc' & Hs); [unfold len in *; simpl; lia|].
  exists s'. unfold len in *; simpl in *.
  by replace (n - Z.of_nat 0) with n in * by lia.
Qed.

Lemma recv_all_short n s lg :
  clean s = true -> len (stream s) < n ->
  exists s',
    _recv_all n (World s lg) = (Done None, World s' lg)
    /\ clean s' = true /\ stream s' = [].
Proof.
  intros Hc Hn. unfold _recv_all.
  destruct (recv_all_loop_clean (S (Z.to_nat n)) n [] s lg Hc) as [_ Hb].
  { unfold len; simpl; lia. }
  destruct Hb as (s' & -> & Hc' & Hs); [unfold len in *; simpl; lia|].
  by exists s'.
Qed.

Lemma pending_clean s : clean s = true -> pending s = length (stream s).
Proof.
  induction s as [|[p|e] rest IH]; intros Hc; [done| |done].
  rewrite pending_data. simpl. rewrite length_app, IH; done.
Qed.

(** On a connection that delivers whole frames and then closes, however
    the bytes are cut into segments, the loop is [run_frames]. *)
Lemma receive_loop_frames n (Hn : 0 < n) : forall fs fuel st s lg,
  clean s = true -> stream s = concat fs ->
  Forall (fun f => len f = n) fs ->
  (length fs < fuel)%nat ->
  exists s',
    receive_loop fuel n st (World s lg)
    = (Done (run_frames st fs).1, World s' (lg ++ (run_frames st fs).2)).
Proof.
  induction fs as [|f fs IH]; intros fuel st s lg Hc Hs Hall Hf;
    (destruct fuel as [|fuel]; [simpl in Hf; lia|]).
  - simpl in *. unfold bind.
    destruct (recv_all_short n s lg Hc) as (s' & -> & _ & _).
    { rewrite Hs. unfold len. simpl. lia. }
    by exists s'.
  - apply Forall_cons in Hall as [Hlen Hall].
    simpl in Hs. cbn [receive_loop]. unfold bind at 1.
    destruct (recv_all_enough n s lg Hc) as (s' & -> & Hc' & Hs').
    { rewrite Hs. unfold len in *. rewrite length_app. lia. }
    assert (Htake : take (Z.to_nat n) (stream s) = f).
    { rewrite Hs. apply take_app_length'. unfold len in *. lia. }
    assert (Hdrop : stream s' = concat fs).
    { rewrite Hs', Hs. apply drop_app_length'. unfold len in *. lia. }
    rewrite Htake.
    destruct f as [|b bs]; [unfold len in *; simpl in *; lia|].
    unfold bind at 1. rewrite process_frame_eq. cbn [conn log].
    cbn [run_frames]. fold (complete (next_session st (b :: bs))).
    destruct (complete (next_session st (b :: bs))).
    + exists s'. unfold bind, _log_event, ret. cbn [conn log fst snd].
      by rewrite <- app_assoc.
    + destruct (IH fuel (next_session st (b :: bs)) s'
                  (lg ++ frame_events st (b :: bs)) Hc' Hdrop Hall)
        as (s'' & ->); [simpl in Hf; lia|].
      exists s''. cbn [fst snd]. by rewrite <- app_assoc.
Qed.

Lemma receive_frames_frames n (Hn : 0 < n) fs st s lg :
  clean s = true -> stream s = concat fs ->
  Forall (fun f => len f = n) fs ->
  exists s',
    receive_frames n st (World s lg)
    = (Done (run_frames st fs).1, World s' (lg ++ (run_frames st fs).2)).
Proof.
  intros Hc Hs Hall. unfold receive_frames. cbn [conn].
  apply receive_loop_frames; try done.
  rewrite pending_clean, Hs by done.
  assert (length fs <= length (concat fs))%nat; [|lia].
  clear Hs. induction Hall as [|f fs Hlen _ IH]; simpl; [lia|].
  rewrite length_app. unfold len in *. lia.
Qed.

(** Nothing the loop logs is a missing-chunk report. *)
Lemma frame_events_no_missing st f r c :
  LogMissingChunk r c ∉ frame_events st f.
Proof.
  unfold frame_events. intros H. apply elem_of_app in H as [H|H].
  - destruct (total_frames_expected st =? -1);
      [|destruct (negb _)];
      repeat (apply elem_of_cons in H as [H|H]; [done|]);
      by apply elem_of_nil in H.
  - apply elem_of_cons in H as [H|H]; [done | by apply elem_of_nil in H].
Qed.

Lemma run_frames_no_missing fs : forall st r c,
  LogMissingChunk r c ∉ (run_frames st fs).2.
Proof.
  induction fs as [|f fs IH]; intros st r c; simpl.
  - intros H. apply elem_of_cons in H as [H|H]; [done|].
    by apply elem_of_nil in H.
  - destruct (complete (next_session st f)); simpl;
      intros H; apply elem_of_app in H as [H|H];
      try (by eapply frame_events_no_missing); [|by eapply IH].
    apply elem_of_cons in H as [H|H]; [done | by apply elem_of_nil in H].
Qed.

Section Distinct.
(** Frames that agree on [total_frames] and sit at distinct positions. *)
Variable T : Z.

Lemma feed_cons st f fs : feed st (f :: fs) = feed (next_session st f) fs.
Proof. reflexivity. Qed.

Lemma feed_grid_fresh fs : forall st k,
  k ∉ key_of <$> fs ->
  frame_grid (feed st fs) !! k = frame_grid st !! k.
Proof.
  induction fs as [|f fs IH]; intros st k Hk; [done|].
  rewrite fmap_cons, not_elem_of_cons in Hk. destruct Hk as [Hne Hk].
  rewrite feed_cons, IH, next_grid by done.
  by apply lookup_insert_ne.
Qed.

Lemma feed_grid_member fs : forall st f,
  NoDup (key_of <$> fs) -> f ∈ fs ->
  frame_grid (feed st fs) !! key_of f = Some (chunk (parse_frame f)).
Proof.
  induction fs as [|g fs IH]; intros st f Hnd Hin; [by apply elem_of_nil in Hin|].
  rewrite fmap_cons in Hnd. apply NoDup_cons in Hnd as [Hg Hnd].
  rewrite feed_cons. apply elem_of_cons in Hin as [->|Hin].
  - rewrite feed_grid_fresh, next_grid by done. apply lookup_insert_eq.
  - by apply IH.
Qed.

Lemma feed_size fs : forall st,
  NoDup (key_of <$> fs) ->
  (forall f, f ∈ fs -> frame_grid st !! key_of f = None) ->
  size (frame_grid (feed st fs)) = (size (frame_grid st) + length fs)%nat.
Proof.
  induction fs as [|f fs IH]; intros st Hnd Hfresh; [simpl; lia|].
  rewrite fmap_cons in Hnd. apply NoDup_cons in Hnd as [Hf Hnd].
  rewrite feed_cons, IH, next_grid; [| done |].
  - rewrite map_size_insert_None by (apply Hfresh; left). simpl. lia.
  - intros g Hg. rewrite next_grid, lookup_insert_ne.
    + apply Hfresh. by right.
    + intros E. apply Hf. change (key_of f = key_of g) in E.
      rewrite E. by apply list_elem_of_fmap_2.
Qed.

Lemma feed_expected fs : forall st,
  agree T fs -> fs <> [] ->
  total_frames_expected st = -1 \/ total_frames_expected st = T ->
  total_frames_expected (feed st fs) = T.
Proof.
  induction fs as [|f fs IH]; intros st Hag Hne Hexp; [done|].
  apply Forall_cons in Hag as [Hf Hag]. rewrite feed_cons.
  assert (Hn : total_frames_expected (next_session st f) = T).
  { rewrite next_expected.
    destruct (Z.eqb_spec (total_frames_expected st) (-1)); [done|].
    by destruct Hexp. }
  destruct fs as [|g fs]; [done|]. apply IH; auto.
Qed.

Lemma feed_received fs : forall st,
  fs <> [] ->
  total_frames_received (feed st fs)
  = Z.of_nat (size (frame_grid (feed st fs))).
Proof.
  induction fs as [|f fs IH]; intros st Hne; [done|].
  rewrite feed_cons. destruct fs as [|g fs]; [apply next_received|].
  by apply IH.
Qed.

(** As long as fewer than [T] positions are filled the loop goes on:
    it stores every frame of the list. *)
Lemma run_frames_feed fs : forall st,
  agree T fs -> NoDup (key_of <$> fs) ->
  (forall f, f ∈ fs -> frame_grid st !! key_of f = None) ->
  total_frames_expected st = -1 \/ total_frames_expected st = T ->
  Z.of_nat (size (frame_grid st)) + Z.of_nat (length fs) <= T ->
  (run_frames st fs).1 = feed st fs.
Proof.
  induction fs as [|f fs IH]; intros st Hag Hnd Hfresh Hexp Hsz; [done|].
  pose proof Hag as Hag0. pose proof Hnd as Hnd0.
  apply Forall_cons in Hag as [Hf Hag].
  rewrite fmap_cons in Hnd. apply NoDup_cons in Hnd as [Hk Hnd].
  assert (Hn : total_frames_expected (next_session st f) = T).
  { rewrite next_expected.
    destruct (Z.eqb_spec (total_frames_expected st) (-1)); [done|].
    by destruct Hexp. }
  assert (Hs1 : size (frame_grid (next_session st f))
                = S (size (frame_grid st))).
  { rewrite next_grid. apply map_size_insert_None, Hfresh. by left. }
  cbn [run_frames]. rewrite feed_cons. unfold complete.
  rewrite next_received, Hn, Hs1.
  destruct (Z.eqb_spec (Z.of_nat (S (size (frame_grid st)))) T) as [E|E].
  - destruct fs; [done | simpl in Hsz; lia].
  - cbn [fst]. apply IH; auto.
    + intros g Hg. rewrite next_grid, lookup_insert_ne.
      * apply Hfresh. by right.
      * intros E'. apply Hk. change (key_of f = key_of g) in E'.
        rewrite E'. by apply list_elem_of_fmap_2.
    + rewrite Hs1. simpl in Hsz. lia.
Qed.
(** What the loop logs in the two ways it can end. *)
Lemma run_frames_log fs : forall st,
  agree T fs -> NoDup (key_of <$> fs) ->
  (forall f, f ∈ fs -> frame_grid st !! key_of f = None) ->
  total_frames_expected st = -1 \/ total_frames_expected st = T ->
  Z.of_nat (size (frame_grid st)) + Z.of_nat (length fs) <= T ->
  (run_frames st fs).2
  = feed_events st fs
    ++ [if (Z.of_nat (size (frame_grid st)) + Z.of_nat (length fs) =? T)
           && negb (bool_decide (fs = []))
        then LogAllReceived T else LogDisconnected].
Proof.
  induction fs as [|f fs IH]; intros st Hag Hnd Hfresh Hexp Hsz.
  { simpl. by rewrite andb_false_r. }
  apply Forall_cons in Hag as [Hf Hag].
  rewrite fmap_cons in Hnd. apply NoDup_cons in Hnd as [Hk Hnd].
  assert (Hn : total_frames_expected (next_session st f) = T).
  { rewrite next_expected.
    destruct (Z.eqb_spec (total_frames_expected st) (-1)); [done|].
    by destruct Hexp. }
  assert (Hs1 : size (frame_grid (next_session st f))
                = S (size (frame_grid st))).
  { rewrite next_grid. apply map_size_insert_None, Hfresh. by left. }
  cbn [run_frames feed_events]. unfold complete.
  rewrite next_received, Hn, Hs1.
  rewrite bool_decide_eq_false_2 by done. rewrite andb_true_r.
  destruct (Z.eqb_spec (Z.of_nat (S (size (frame_grid st)))) T) as [E|E].
  - destruct fs; [|simpl in Hsz; lia]. cbn [snd feed_events length].
    rewrite app_nil_r.
    destruct (_ =? T) eqn:E2; [done|].
    apply Z.eqb_neq in E2. simpl in E2. lia.
  - cbn [snd]. rewrite IH; auto.
    + rewrite Hs1, <- app_assoc. do 3 f_equal.
      destruct fs as [|g fs].
      * rewrite bool_decide_eq_true_2 by done.
        rewrite !andb_false_r.
        destruct (_ =? T) eqn:E2; [|done].
        apply Z.eqb_eq in E2. simpl in E2. lia.
      * rewrite bool_decide_eq_false_2 by done. rewrite andb_true_r.
        replace (Z.of_nat (S (size (frame_grid st)))
                 + Z.of_nat (length (g :: fs)))
          with (Z.of_nat (size (frame_grid st))
                + Z.of_nat (length (f :: g :: fs)));
          [done | simpl length; lia].
    + intros g Hg. rewrite next_grid, lookup_insert_ne.
      * apply Hfresh. by right.
      * intros E'. apply Hk. change (key_of f = key_of g) in E'.
        rewrite E'. by apply list_elem_of_fmap_2.
    + rewrite Hs1. simpl in Hsz. lia.
Qed.

Lemma feed_events_no_missing fs : forall st r c,
  LogMissingChunk r c ∉ feed_events st fs.
Proof.
  induction fs as [|f fs IH]; intros st r c; simpl.
  - apply not_elem_of_nil.
  - intros H. apply elem_of_app in H as [H|H];
      [by eapply frame_events_no_missing | by eapply IH].
Qed.

(** Two frames at different positions that agree on the total can be
    stored in either order. *)
Lemma next_swap st x y :
  key_of x <> key_of y ->
  current_total_frames (parse_frame x) = current_total_frames (parse_frame y) ->
  next_session (next_session st x) y = next_session (next_session st y) x.
Proof.
  intros Hk Ht.
  assert (Hg : frame_grid (next_session (next_session st x) y)
               = frame_grid (next_session (next_session st y) x)).
  { rewrite !next_grid. by apply insert_insert_ne. }
  apply session_eq.
  - done.
  - rewrite !next_max_row. lia.
  - rewrite !next_max_col. lia.
  - rewrite !next_expected, Ht.
    destruct (total_frames_expected st =? -1) eqn:E; [|by rewrite E].
    by destruct (_ =? -1).
  - by rewrite !next_received, Hg.
Qed.

(** The order in which such frames arrive does not matter for the
    buffer they leave. *)
Lemma feed_perm fs fs' :
  fs ≡ₚ fs' -> agree T fs -> NoDup (key_of <$> fs) ->
  forall st, feed st fs = feed st fs'.
Proof.
  induction 1 as [|x l l' Hp IH|x y l|l l' l'' Hp1 IH1 Hp2 IH2];
    intros Hag Hnd st.
  - done.
  - apply Forall_cons in Hag as [_ Hag].
    rewrite fmap_cons in Hnd. apply NoDup_cons in Hnd as [_ Hnd].
    rewrite !feed_cons. by apply IH.
  - apply Forall_cons in Hag as [Hy Hag].
    apply Forall_cons in Hag as [Hx Hag].
    rewrite !fmap_cons in Hnd. apply NoDup_cons in Hnd as [Hk _].
    rewrite !feed_cons, (next_swap st x y); [done | | congruence].
    intros E. apply Hk. rewrite E. left.
  - rewrite IH1 by done. apply IH2.
    + unfold agree. by rewrite <- Hp1.
    + by rewrite <- Hp1.
Qed.
End Distinct.

(** *** Reconstruction *)

Lemma row_loop_eq grid r cs : forall acc w,
  row_loop grid r cs acc w
  = (Done (acc ++ row_bytes grid r cs),
     World (conn w) (log w ++ row_missing grid r cs)).
Proof.
  induction cs as [|c cs IH]; intros acc [s lg]; simpl.
  - by rewrite !app_nil_r.
  - destruct (grid !! (r, c)) as [ch|]; simpl.
    + rewrite IH. by rewrite <- app_assoc.
    + unfold bind, _log_event. simpl. rewrite IH. simpl.
      by rewrite <- !app_assoc.
Qed.

Lemma rows_loop_eq grid mc rs : forall acc w,
  rows_loop grid rs mc acc w
  = (Done (acc ++ map (fun r => concat (row_bytes grid r (seqZ 0 (mc + 1)))) rs),
     World (conn w)
       (log w ++ flat_map (fun r => row_missing grid r (seqZ 0 (mc + 1))) rs)).
Proof.
  induction rs as [|r rs IH]; intros acc [s lg]; simpl.
  - by rewrite !app_nil_r.
  - unfold bind. rewrite row_loop_eq. simpl. rewrite IH. simpl.
    by rewrite <- !app_assoc.
Qed.

Lemma reconstruct_complete st w :
  0 < total_frames_expected st ->
  total_frames_received st = total_frames_expected st ->
  reconstruct st w
  = (Done (Some (grid_bytes (frame_grid st) (max_row st) (max_col st))),
     World (conn w)
       (log w ++ grid_missing (frame_grid st) (max_row st) (max_col st))).
Proof.
  intros Hpos Heq. unfold reconstruct.
  destruct (Z.ltb_spec 0 (total_frames_expected st)); [|lia].
  destruct (Z.eqb_spec (total_frames_received st) (total_frames_expected st));
    [|lia].
  simpl. unfold bind. by rewrite rows_loop_eq.
Qed.

Lemma reconstruct_incomplete st w :
  total_frames_expected st <= 0
  \/ total_frames_received st <> total_frames_expected st ->
  reconstruct st w
  = (Done None,
     World (conn w)
       (log w ++ [LogIncomplete (total_frames_expected st)
                    (total_frames_received st)])).
Proof.
  intros H. unfold reconstruct.
  destruct (Z.ltb_spec 0 (total_frames_expected st));
    destruct (Z.eqb_spec (total_frames_received st) (total_frames_expected st));
    try done; lia.
Qed.

End FrameLoop.

(** ** Splitting, then reassembling *)

Module Reassembly.
Import PyBytes Transmitter Receiver Wire ExactRead FrameStep Splitter FrameLoop.

Section Frames.
Variables (C cs T : Z) (file : bytes).
Hypothesis HC : 1 <= C.
Hypothesis Hcs : 0 < cs.
Hypothesis HT : 0 <= T <= 65535.

Lemma key_of_frame i :
  0 <= i < T -> key_of (frame_of C cs T file i) = (i / C, i mod C).
Proof.
  intros Hi. unfold key_of. by rewrite parse_frame_of by lia.
Qed.

Lemma produced_member fr :
  fr ∈ produced C cs T file <-> exists i, 0 <= i < T /\ fr = frame_of C cs T file i.
Proof.
  unfold produced. rewrite list_elem_of_fmap. split.
  - intros (i & -> & Hi). apply elem_of_seqZ in Hi. exists i. split; [lia|done].
  - intros (i & Hi & ->). exists i. split; [done|]. apply elem_of_seqZ. lia.
Qed.

Lemma produced_agree : agree T (produced C cs T file).
Proof.
  apply Forall_forall. intros fr (i & Hi & ->)%produced_member.
  by rewrite parse_frame_of by lia.
Qed.

Lemma produced_len : Forall (fun f => len f = header_size + cs) (produced C cs T file).
Proof.
  apply Forall_forall. intros fr (i & Hi & ->)%produced_member.
  apply length_frame_of; lia.
Qed.

Lemma produced_length : Z.of_nat (length (produced C cs T file)) = T.
Proof. unfold produced. rewrite length_fmap, length_seqZ. lia. Qed.

Lemma position_inj i j :
  0 <= i -> 0 <= j -> (i / C, i mod C) = (j / C, j mod C) -> i = j.
Proof.
  intros Hi Hj [= Hd Hm].
  rewrite (Z.div_mod i C), (Z.div_mod j C) by lia. by rewrite Hd, Hm.
Qed.

Lemma produced_NoDup : NoDup (key_of <$> produced C cs T file).
Proof.
  unfold produced. rewrite <- list_fmap_compose.
  apply NoDup_fmap_2_strong; [|apply NoDup_seqZ].
  intros i j Hi%elem_of_seqZ Hj%elem_of_seqZ. simpl.
  rewrite !key_of_frame by lia. apply position_inj; lia.
Qed.

(** Where each chunk sits in the buffer once all frames are stored. *)
Lemma produced_grid r c :
  0 <= r -> 0 <= c < C ->
  frame_grid (feed new_session (produced C cs T file)) !! (r, c)
  = if r * C + c <? T then Some (padded_chunk cs file (r * C + c)) else None.
Proof.
  intros Hr Hc.
  assert (Hd : (r * C + c) / C = r).
  { symmetry. apply (Z.div_unique_pos _ _ _ c); lia. }
  assert (Hm : (r * C + c) mod C = c).
  { symmetry. apply (Z.mod_unique_pos _ _ r); lia. }
  destruct (Z.ltb_spec (r * C + c) T) as [Hlt|Hge].
  - assert (Hi : 0 <= r * C + c < T) by nia.
    rewrite <- Hd at 1. rewrite <- Hm at 2.
    rewrite <- (key_of_frame _ Hi).
    rewrite feed_grid_member.
    + by rewrite parse_frame_of by lia.
    + apply produced_NoDup.
    + apply produced_member. eauto.
  - rewrite feed_grid_fresh; [done|].
    intros (fr & Hk & (j & Hj & ->)%produced_member)%list_elem_of_fmap.
    rewrite key_of_frame in Hk by done.
    assert (E : ((r * C + c) / C, (r * C + c) mod C) = (j / C, j mod C))
      by (by rewrite Hd, Hm).
    apply position_inj in E; [lia | nia | lia].
Qed.
End Frames.

(** The extent of the grid after the first [k] frames. *)
Lemma produced_extent C cs T file (k : nat) :
  1 <= C -> Z.of_nat k <= T <= 65535 ->
  let st := feed new_session (frame_of C cs T file <$> seqZ 0 (Z.of_nat k)) in
  max_row st = (Z.of_nat k - 1) / C
  /\ max_col st = Z.min (Z.of_nat k - 1) (C - 1).
Proof.
  intros HC. induction k as [|k IH]; intros HT.
  - simpl. split; [|lia].
    apply (Z.div_unique_pos _ _ _ (C - 1)); lia.
  - destruct IH as [IHr IHc]; [lia|].
    rewrite seqZ_S, fmap_app. cbn [fmap list_fmap]. unfold feed in *.
    rewrite foldl_snoc, next_max_row, next_max_col, IHr, IHc.
    rewrite parse_frame_of by lia. cbn [row_idx col_idx].
    replace (Z.of_nat (S k) - 1) with (Z.of_nat k) by lia.
    rewrite Z.add_0_l. split.
    + apply Z.max_r. apply Z.div_le_mono; lia.
    + destruct (Z.lt_ge_cases (Z.of_nat k) C).
      * rewrite Z.mod_small by lia. lia.
      * pose proof (Z.mod_pos_bound (Z.of_nat k) C ltac:(lia)). lia.
Qed.

Lemma concat_all_nil {A} (l : list (list A)) :
  Forall (fun x => x = []) l -> concat l = [].
Proof. induction 1 as [|x l -> _ IH]; simpl; done. Qed.

Section RowMajor.
(** A grid of [C] columns that holds [g i] at [(i / C, i mod C)]
    for every [i < T] and nothing else. *)
Variables (grid : gmap (Z * Z) bytes) (C T : Z) (g : Z -> bytes).
Hypothesis HC : 1 <= C.
Hypothesis HT : 1 <= T.
Hypothesis Hgrid : forall r c,
  0 <= r -> 0 <= c < C ->
  grid !! (r, c) = if r * C + c <? T then Some (g (r * C + c)) else None.

Lemma row_bytes_block r M :
  0 <= r -> M <= C ->
  row_bytes grid r (seqZ 0 M) = within T g <$> seqZ (r * C) M.
Proof.
  intros Hr HM. replace (r * C) with (r * C + 0) by lia.
  rewrite <- fmap_add_seqZ, <- list_fmap_compose. unfold row_bytes.
  apply Forall_fmap_ext_1, Forall_seqZ. intros c Hc. simpl.
  rewrite Hgrid by lia. unfold within. by destruct (r * C + c <? T).
Qed.

Lemma blocks_concat (R : nat) :
  concat (map (fun r => concat (within T g <$> seqZ (r * C) C)) (seqZ 0 (Z.of_nat R)))
  = concat (within T g <$> seqZ 0 (Z.of_nat R * C)).
Proof.
  induction R as [|R IH]; [done|].
  rewrite seqZ_S, map_app, concat_app, IH. simpl.
  replace (Z.of_nat (S R) * C) with (Z.of_nat R * C + C) by lia.
  rewrite seqZ_app, fmap_app, concat_app by lia.
  by rewrite app_nil_r, !Z.add_0_l.
Qed.

Lemma beyond_is_empty N :
  T <= N -> concat (within T g <$> seqZ 0 N) = concat (g <$> seqZ 0 T).
Proof.
  intros HN. replace N with (T + (N - T)) by lia.
  rewrite seqZ_app, fmap_app, concat_app by lia.
  rewrite (concat_all_nil (within T g <$> seqZ (0 + T) (N - T))).
  - rewrite app_nil_r. f_equal.
    apply Forall_fmap_ext_1, Forall_seqZ. intros j Hj. unfold within.
    destruct (Z.ltb_spec j T); [done | lia].
  - apply Forall_fmap, Forall_seqZ. intros j Hj. simpl. unfold within.
    destruct (Z.ltb_spec j T); [lia | done].
Qed.

(** Read row by row over its extent, the grid gives the chunks in
    index order: the positions past the last chunk contribute
    nothing. *)
Lemma grid_bytes_row_major :
  grid_bytes grid ((T - 1) / C) (Z.min (T - 1) (C - 1))
  = concat (g <$> seqZ 0 T).
Proof.
  unfold grid_bytes.
  assert (HR : 0 <= (T - 1) / C) by (apply Z.div_pos; lia).
  rewrite (Forall_fmap_ext_1
             (fun r => concat (row_bytes grid r
                                 (seqZ 0 (Z.min (T - 1) (C - 1) + 1))))
             (fun r => concat (within T g <$> seqZ (r * C) (Z.min T C)))).
  2:{ apply Forall_seqZ. intros r Hr.
      rewrite row_bytes_block by lia. do 3 f_equal. lia. }
  destruct (Z.le_gt_cases T C) as [Hle|Hgt].
  - rewrite (Z.div_small (T - 1) C) by lia.
    rewrite Z.min_l by lia. simpl. rewrite app_nil_r.
    by apply beyond_is_empty.
  - rewrite Z.min_r by lia.
    replace ((T - 1) / C + 1)
      with (Z.of_nat (Z.to_nat ((T - 1) / C + 1))) by lia.
    rewrite blocks_concat. apply beyond_is_empty.
    rewrite Z2Nat.id by lia.
    pose proof (Z.div_mod (T - 1) C ltac:(lia)).
    pose proof (Z.mod_pos_bound (T - 1) C ltac:(lia)). nia.
Qed.
End RowMajor.

(** The payloads, one after the other, are the file and its padding. *)
Lemma padded_chunk_0 cs file :
  padded_chunk cs file 0
  = take (Z.to_nat cs) file ++ zeros (cs - len (take (Z.to_nat cs) file)).
Proof.
  unfold padded_chunk, slice. rewrite Z.mul_0_l, Z.mul_1_l, Z.sub_0_r.
  by rewrite drop_0.
Qed.

Lemma padded_chunk_succ cs file i :
  0 < cs -> 0 <= i ->
  padded_chunk cs file (1 + i)
  = padded_chunk cs (drop (Z.to_nat cs) file) i.
Proof.
  intros Hcs Hi. unfold padded_chunk, slice. rewrite !drop_drop.
  replace (Z.to_nat ((1 + i) * cs)) with (Z.to_nat cs + Z.to_nat (i * cs))%nat
    by nia.
  replace ((1 + i + 1) * cs - (1 + i) * cs) with cs by lia.
  replace ((i + 1) * cs - i * cs) with cs by lia. done.
Qed.

Lemma zeros_add a b : 0 <= a -> 0 <= b -> zeros a ++ zeros b = zeros (a + b).
Proof.
  intros Ha Hb. unfold zeros. by rewrite Z2Nat.inj_add, replicate_add.
Qed.

Lemma chunks_concat cs (Hcs : 0 < cs) (n : nat) : forall file,
  len file <= Z.of_nat n * cs ->
  concat (padded_chunk cs file <$> seqZ 0 (Z.of_nat n))
  = file ++ zeros (Z.of_nat n * cs - len file).
Proof.
  induction n as [|n IH]; intros file Hlen.
  - destruct file; [done | unfold len in *; simpl in *; lia].
  - rewrite seqZ_cons by lia.
    replace (Z.pred (Z.of_nat (S n))) with (Z.of_nat n) by lia.
    replace (Z.succ 0) with (1 + 0) by lia.
    rewrite <- fmap_add_seqZ, fmap_cons, <- list_fmap_compose. simpl concat.
    rewrite (Forall_fmap_ext_1 _
               (padded_chunk cs (drop (Z.to_nat cs) file))).
    2:{ apply Forall_seqZ. intros i Hi. simpl.
        apply padded_chunk_succ; lia. }
    rewrite padded_chunk_0. unfold len in *.
    destruct (Z.le_gt_cases cs (Z.of_nat (length file))) as [Hge|Hlt].
    + rewrite IH by (unfold len; rewrite length_drop; lia).
      unfold len. rewrite length_take, length_drop.
      replace (cs - Z.of_nat (Z.to_nat cs `min` length file)) with 0 by lia.
      simpl. rewrite app_nil_r, app_assoc, take_drop. do 2 f_equal. lia.
    + rewrite IH by (unfold len; rewrite length_drop; lia).
      rewrite take_ge, drop_ge by lia. simpl.
      rewrite <- app_assoc, zeros_add by (unfold len; simpl; lia).
      do 2 f_equal. unfold len. simpl. lia.
Qed.

Lemma generate_frames_inv C file frame_size T frames :
  1 <= C ->
  generate_frames C file frame_size = Done (Some (T, frames)) ->
  0 < frame_size - header_size
  /\ T = frame_count file (frame_size - header_size)
  /\ 0 <= T <= 65535
  /\ frames = produced C (frame_size - header_size) T file.
Proof.
  intros HC H.
  destruct (Z.le_gt_cases (frame_size - header_size) 0) as [Hle|Hcs].
  { by rewrite generate_frames_config_error in H. }
  pose proof (frame_count_nonneg file _ Hcs).
  destruct (Z.le_gt_cases (frame_count file (frame_size - header_size)) 65535)
    as [Ht|Ht].
  - rewrite generate_frames_ok in H by done. by inversion H; subst.
  - by rewrite generate_frames_overflow in H.
Qed.

(** A connection that closes without a frame: nothing is reassembled. *)
Lemma receive_image_nothing n s lg :
  0 < n -> clean s = true -> stream s = [] ->
  (receive_image n (World s lg)).1 = Done None.
Proof.
  intros Hn Hc Hs. unfold receive_image, bind.
  destruct (receive_frames_frames n Hn [] new_session s lg Hc Hs)
    as (s' & ->); [done|].
  simpl run_frames. cbn [fst snd]. by rewrite reconstruct_incomplete by (by left).
Qed.

Lemma new_session_size : size (frame_grid new_session) = O.
Proof. apply map_size_empty. Qed.

Section Transfer.
Variables (C cs T : Z) (file : bytes).
Hypothesis HC : 1 <= C.
Hypothesis Hcs : 0 < cs.
Hypothesis HT : 1 <= T <= 65535.
Hypothesis Hlen : len file <= T * cs.

(** The buffer after the frames of the splitter, in any order. *)
Lemma feed_any_order fs :
  fs ≡ₚ produced C cs T file ->
  (run_frames new_session fs).1 = feed new_session (produced C cs T file)
  /\ (run_frames new_session fs).2
     = feed_events new_session fs ++ [LogAllReceived T].
Proof.
  intros Hp.
  assert (Hag : agree T fs).
  { unfold agree. rewrite Hp. apply produced_agree; lia. }
  assert (Hnd : NoDup (key_of <$> fs)).
  { rewrite Hp. apply produced_NoDup; lia. }
  assert (Hl : Z.of_nat (length fs) = T).
  { rewrite Hp. apply produced_length. lia. }
  assert (Hne : fs <> []) by (destruct fs; [simpl in Hl; lia | done]).
  split.
  - rewrite (run_frames_feed T); try done.
    + symmetry. apply (feed_perm T); [by symmetry| |].
      * apply produced_agree; lia.
      * apply produced_NoDup; lia.
    + by left.
    + rewrite new_session_size. lia.
  - rewrite (run_frames_log T); try done.
    + rewrite new_session_size, bool_decide_eq_false_2 by done.
      by destruct (Z.eqb_spec (Z.of_nat 0 + Z.of_nat (length fs)) T); [|lia].
    + by left.
    + rewrite new_session_size. lia.
Qed.

(** The reassembly of the complete buffer. *)
Lemma reconstruct_produced w :
  (reconstruct (feed new_session (produced C cs T file)) w).1
  = Done (Some (file ++ zeros (T * cs - len file))).
Proof.
  set (st := feed new_session (produced C cs T file)).
  assert (Hne : produced C cs T file <> []).
  { intros E. pose proof (produced_length C cs T file ltac:(lia)) as Hl.
    rewrite E in Hl. simpl in Hl. lia. }
  assert (Hexp : total_frames_expected st = T).
  { apply feed_expected; [apply produced_agree; lia | done | by left]. }
  assert (Hrec : total_frames_received st = T).
  { unfold st. rewrite feed_received by done.
    rewrite feed_size; [| apply produced_NoDup; lia | done].
    rewrite new_session_size, Nat.add_0_l. apply produced_length. lia. }
  rewrite reconstruct_complete by lia. cbn [fst]. do 2 f_equal.
  destruct (produced_extent C cs T file (Z.to_nat T) HC ltac:(lia))
    as [Hr Hc].
  rewrite Z2Nat.id in Hr, Hc by lia. fold (produced C cs T file) in Hr, Hc.
  fold st in Hr, Hc. rewrite Hr, Hc.
  rewrite (grid_bytes_row_major _ C T (padded_chunk cs file)); try lia.
  - replace T with (Z.of_nat (Z.to_nat T)) at 1 2 by lia.
    rewrite chunks_concat by lia. by rewrite Z2Nat.id by lia.
  - intros r c Hr' Hc'. apply produced_grid; lia.
Qed.

(** However the frames are ordered on the wire and however the
    stream is cut into segments, the engine reassembles the file
    followed by the padding of its last chunk. *)
Lemma reassemble_any_order fs s lg :
  fs ≡ₚ produced C cs T file ->
  clean s = true -> stream s = concat fs ->
  (receive_image (header_size + cs) (World s lg)).1
  = Done (Some (file ++ zeros (T * cs - len file))).
Proof.
  intros Hp Hc Hs. unfold receive_image, bind.
  destruct (receive_frames_frames (header_size + cs)
              ltac:(unfold header_size; lia) fs new_session s lg Hc Hs)
    as (s' & ->).
  { rewrite Hp. apply produced_len; lia. }
  destruct (feed_any_order fs Hp) as [-> _].
  apply reconstruct_produced.
Qed.
End Transfer.

End Reassembly.

(** ** Transfers, end to end *)

Module Transfers.
Import PyBytes Transmitter Receiver Wire ExactRead FrameStep Splitter
       FrameLoop Reassembly.

(** C1, as the code has it. For a column count [C >= 1], a frame size
    above the header size and a non-empty file of at most 65535 chunks,
    the splitter produces its frames, and the engine, fed these frames
    in order (however the stream is cut into segments), reassembles the
    file followed by the zero bytes that pad its last chunk: fewer than
    a chunk of them, and none when the length of the file is a multiple
    of the chunk size. *)
Theorem split_then_reassemble (C : Z) (file : bytes) (frame_size : Z) :
  1 <= C -> header_size < frame_size -> file <> [] ->
  frame_count file (frame_size - header_size) <= 65535 ->
  let cs := frame_size - header_size in
  let T := frame_count file cs in
  exists frames,
    generate_frames C file frame_size = Done (Some (T, frames))
    /\ 0 <= T * cs - len file < cs
    /\ (forall s lg,
          clean s = true -> stream s = concat frames ->
          (receive_image frame_size (World s lg)).1
          = Done (Some (file ++ zeros (T * cs - len file))))
    /\ (len file mod cs = 0 ->
        forall s lg,
          clean s = true -> stream s = concat frames ->
          (receive_image frame_size (World s lg)).1 = Done (Some file)).
Proof.
  intros HC Hfs Hne HT cs T.
  assert (Hcs : 0 < cs) by (unfold cs; lia).
  pose proof (frame_count_ceiling file cs Hcs) as Hceil.
  pose proof (frame_count_pos file cs Hcs Hne) as Hpos.
  fold T in Hceil, Hpos.
  assert (HT' : 1 <= T <= 65535) by (split; [done | exact HT]).
  assert (Hl : len file <= T * cs) by lia.
  assert (Hre : forall s lg,
            clean s = true -> stream s = concat (produced C cs T file) ->
            (receive_image frame_size (World s lg)).1
            = Done (Some (file ++ zeros (T * cs - len file)))).
  { intros s lg Hc Hs.
    replace frame_size with (header_size + cs) by (unfold cs; lia).
    by apply (reassemble_any_order C cs T file HC Hcs HT' Hl
                (produced C cs T file)). }
  exists (produced C cs T file). split_and!.
  - by apply generate_frames_ok.
  - lia.
  - lia.
  - exact Hre.
  - intros Hm s lg Hc Hs. rewrite Hre by done.
    apply Z.mod_divide in Hm as [q Hq]; [|lia].
    assert (T - 1 < q) by nia. assert (q <= T) by nia.
    replace (T * cs - len file) with 0 by nia.
    by rewrite app_nil_r.
Qed.

Lemma split_then_reassemble_witness :
  exists frames,
    generate_frames 4 [Byte.x41; Byte.x42; Byte.x43] 12
    = Done (Some (2, frames))
    /\ (receive_image 12 (World [Data (concat frames)] [])).1
       = Done (Some [Byte.x41; Byte.x42; Byte.x43; Byte.x00]).
Proof.
  destruct (split_then_reassemble 4 [Byte.x41; Byte.x42; Byte.x43] 12)
    as (frames & Hg & _ & Hr & _);
    [lia | reflexivity | discriminate | vm_compute; discriminate |].
  exists frames. split; [exact Hg|].
  apply (Hr [Data (concat frames)] []); [reflexivity|].
  simpl. by rewrite app_nil_r.
Defined.

(** A three-byte file at frame size 12: what the engine reassembles is
    one byte longer than what was split. *)
Lemma round_trip_counterexample :
  exists frames,
    generate_frames_from_file [Byte.x41; Byte.x42; Byte.x43] 12
    = Done (Some (2, frames))
    /\ (receive_image 12 (World (Data <$> frames) [])).1
       = Done (Some [Byte.x41; Byte.x42; Byte.x43; Byte.x00])
    /\ (receive_image 12 (World (Data <$> frames) [])).1
       <> Done (Some [Byte.x41; Byte.x42; Byte.x43]).
Proof.
  eexists. split; [vm_compute; reflexivity|].
  split; [vm_compute; reflexivity | vm_compute; discriminate].
Qed.

(** C5. The frames of one run of the splitter, delivered in any order,
    give the same result as delivered in the order they were produced,
    and for a non-empty file that result is the reconstruction: the file
    followed by the padding of its last chunk. Where a chunk is placed
    is read off the frame alone: the step that stores a frame puts its
    payload at the [(row, col)] of its header and leaves every other
    position as it was, and neither the buffer nor the log it leaves
    depends on the first two bytes of the frame, which carry
    [frame_index]. *)
Theorem order_independence (C : Z) (file : bytes) (frame_size T : Z)
    (frames frames' : list bytes) (s s' : socket) (lg lg' : list log_event) :
  1 <= C ->
  generate_frames C file frame_size = Done (Some (T, frames)) ->
  frames' ≡ₚ frames ->
  clean s = true -> stream s = concat frames ->
  clean s' = true -> stream s' = concat frames' ->
  (receive_image frame_size (World s' lg')).1
  = (receive_image frame_size (World s lg)).1
  /\ (file <> [] ->
      (receive_image frame_size (World s' lg')).1
      = Done (Some (file ++ zeros (T * (frame_size - header_size)
                                   - len file))))
  /\ (forall st full w,
        exists st' w',
          process_frame st full w = (Done st', w')
          /\ frame_grid st' !! (row_idx (parse_frame full),
                                col_idx (parse_frame full))
             = Some (chunk (parse_frame full))
          /\ forall k,
               k <> (row_idx (parse_frame full), col_idx (parse_frame full)) ->
               frame_grid st' !! k = frame_grid st !! k)
  /\ (forall st a1 a2 b1 b2 rest w,
        process_frame st (a1 :: a2 :: rest) w
        = process_frame st (b1 :: b2 :: rest) w).
Proof.
  intros HC Hg Hp Hc Hs Hc' Hs'.
  destruct (generate_frames_inv C file frame_size T frames HC Hg)
    as (Hcs & HT & Hb & ->).
  set (cs := frame_size - header_size) in *.
  assert (Hany : T <> 0 ->
            forall fs z l, fs ≡ₚ produced C cs T file ->
              clean z = true -> stream z = concat fs ->
              (receive_image frame_size (World z l)).1
              = Done (Some (file ++ zeros (T * cs - len file)))).
  { intros Hnz fs z l Hfs Hz Hzs.
    pose proof (frame_count_ceiling file cs Hcs) as Hceil.
    rewrite <- HT in Hceil.
    assert (HT' : 1 <= T <= 65535) by lia.
    assert (Hl : len file <= T * cs) by lia.
    replace frame_size with (header_size + cs) by (unfold cs; lia).
    by apply (reassemble_any_order C cs T file HC Hcs HT' Hl fs). }
  split_and!.
  - destruct (Z.eq_dec T 0) as [->|Hnz].
    + unfold produced in *. rewrite seqZ_nil in * by lia. simpl in *.
      apply Permutation_nil_r in Hp. subst frames'. simpl in Hs'.
      rewrite !receive_image_nothing; try done;
        unfold cs, header_size in *; lia.
    + rewrite (Hany Hnz frames' s' lg' Hp Hc' Hs').
      by rewrite (Hany Hnz (produced C cs T file) s lg).
  - intros Hne. pose proof (frame_count_pos file cs Hcs Hne) as Hpos.
    assert (Hnz : T <> 0) by lia.
    exact (Hany Hnz frames' s' lg' Hp Hc' Hs').
  - intros st full w. rewrite process_frame_eq. do 2 eexists.
    split; [reflexivity|]. rewrite next_grid. split.
    + apply lookup_insert_eq.
    + intros k Hk. by apply lookup_insert_ne.
  - intros st a1 a2 b1 b2 rest w. by rewrite !process_frame_eq.
Qed.

Lemma order_independence_witness :
  (receive_image 12
     (World [Data (concat (reverse (produced 4 2 2 [Byte.x41; Byte.x42; Byte.x43])))]
        [])).1
  = Done (Some ([Byte.x41; Byte.x42; Byte.x43] ++ zeros (2 * (12 - header_size) - len [Byte.x41; Byte.x42; Byte.x43]))).
Proof.
  refine (proj1 (proj2 (order_independence 4 [Byte.x41; Byte.x42; Byte.x43]
                          12 2
                          (produced 4 2 2 [Byte.x41; Byte.x42; Byte.x43])
                          (reverse (produced 4 2 2
                                      [Byte.x41; Byte.x42; Byte.x43]))
                          [Data (concat (produced 4 2 2
                                           [Byte.x41; Byte.x42; Byte.x43]))]
                          _ [] [] _ _ _ _ _ _ _)) _).
  - lia.
  - vm_compute. reflexivity.
  - apply reverse_Permutation.
  - reflexivity.
  - exact (app_nil_r _).
  - reflexivity.
  - exact (app_nil_r _).
  - discriminate.
Defined.

(** C4, as the code has it. When one of the twelve frames of a transfer
    on four columns is left out and the connection then closes, the
    engine does not reconstruct: it stores the eleven frames, finds the
    count short of the expected twelve, logs that and returns nothing.
    No missing-chunk report is made. *)
Theorem missing_frame_aborts (file : bytes) (frame_size : Z)
    (frames : list bytes) (k : nat) (s : socket) (lg : list log_event) :
  generate_frames 4 file frame_size = Done (Some (12, frames)) ->
  (k < 12)%nat ->
  clean s = true -> stream s = concat (delete k frames) ->
  exists s' evs,
    receive_image frame_size (World s lg)
    = (Done None,
       World s' (lg ++ evs ++ [LogDisconnected; LogIncomplete 12 11]))
    /\ forall r c, LogMissingChunk r c ∉ evs.
Proof.
  intros Hg Hk Hc Hs.
  destruct (generate_frames_inv 4 file frame_size 12 frames ltac:(lia) Hg)
    as (Hcs & _ & _ & ->).
  set (cs := frame_size - header_size) in *.
  set (all := produced 4 cs 12 file) in *.
  set (fs := delete k all) in *.
  assert (Hall : Z.of_nat (length all) = 12) by (apply produced_length; lia).
  assert (Hlen : length fs = 11%nat).
  { unfold fs. rewrite length_delete; [lia|]. apply lookup_lt_is_Some. lia. }
  assert (Hag : agree 12 fs).
  { apply Forall_delete, produced_agree; lia. }
  assert (Hnd : NoDup (key_of <$> fs)).
  { unfold fs. rewrite list_fmap_delete.
    eapply sublist_NoDup; [|apply sublist_delete]. apply produced_NoDup; lia. }
  assert (Hne : fs <> []) by (intros E; rewrite E in Hlen; done).
  assert (Hsz : Z.of_nat (size (frame_grid new_session)) + Z.of_nat (length fs)
                <= 12) by (rewrite new_session_size; lia).
  replace frame_size with (header_size + cs) by (unfold cs; lia).
  unfold receive_image, bind.
  destruct (receive_frames_frames (header_size + cs)
              ltac:(unfold header_size; lia) fs new_session s lg Hc Hs)
    as (s' & ->).
  { apply Forall_delete, produced_len; lia. }
  rewrite (run_frames_feed 12), (run_frames_log 12) by (try done; by left).
  rewrite new_session_size, Hlen. simpl andb. cbv iota.
  rewrite reconstruct_incomplete.
  - cbn [conn log].
    rewrite (feed_expected 12) by (try done; by left).
    rewrite feed_received, feed_size, new_session_size, Hlen by done.
    exists s', (feed_events new_session fs). split.
    + by rewrite <- !app_assoc.
    + apply feed_events_no_missing.
  - right. rewrite (feed_expected 12) by (try done; by left).
    rewrite feed_received, feed_size, new_session_size, Hlen by done. lia.
Qed.

Lemma missing_frame_aborts_witness :
  exists s' evs,
    receive_image 11
      (World [Data (concat (delete 5%nat (produced 4 1 12 twelve_bytes)))] [])
    = (Done None,
       World s' ([] ++ evs ++ [LogDisconnected; LogIncomplete 12 11]))
    /\ forall r c, LogMissingChunk r c ∉ evs.
Proof.
  apply (missing_frame_aborts twelve_bytes 11 (produced 4 1 12 twelve_bytes) 5).
  - vm_compute. reflexivity.
  - lia.
  - reflexivity.
  - exact (app_nil_r _).
Defined.

(** Twelve one-byte chunks on four columns, the frame at (1, 1) never
    sent: there is no reconstruction with a gap and no missing-chunk
    report, only the report of an incomplete transfer. *)
Lemma missing_frame_counterexample :
  generate_frames 4 twelve_bytes 11
  = Done (Some (12, produced 4 1 12 twelve_bytes))
  /\ receive_image 11
       (World (Data <$> delete 5%nat (produced 4 1 12 twelve_bytes)) [])
     = (Done None,
        World []
          [LogExpecting 12;
           LogReceivedFrame 0 0; LogReceivedFrame 0 1; LogReceivedFrame 0 2;
           LogReceivedFrame 0 3; LogReceivedFrame 1 0; LogReceivedFrame 1 2;
           LogReceivedFrame 1 3; LogReceivedFrame 2 0; LogReceivedFrame 2 1;
           LogReceivedFrame 2 2; LogReceivedFrame 2 3;
           LogDisconnected; LogIncomplete 12 11])
  /\ (receive_image 11
        (World (Data <$> delete 5%nat (produced 4 1 12 twelve_bytes)) [])).1
     <> Done (Some (replicate 11 Byte.x41)).
Proof.
  split_and!.
  - vm_compute. reflexivity.
  - vm_compute. reflexivity.
  - vm_compute. discriminate.
Qed.

End Transfers.

(** ** The handler always returns *)

Module Totality.
Import PyBytes Receiver Wire ExactRead FrameStep FrameLoop.

Lemma returns_ret {A} (a : A) : returns (ret a).
Proof. by intros w. Qed.

Lemma returns_raise {A} e : returns (@raise A e).
Proof. by intros w. Qed.

Lemma returns_log e : returns (_log_event e).
Proof. by intros w. Qed.

Lemma returns_bind {A B} (m : M A) (k : A -> M B) :
  returns m -> (forall a, returns (k a)) -> returns (bind m k).
Proof.
  intros Hm Hk w. unfold bind. specialize (Hm w).
  destruct (m w) as [[a|e|] w']; simpl in *; [apply Hk | done | done].
Qed.

Lemma returns_recv_all n : 0 <= n -> returns (_recv_all n).
Proof.
  intros Hn w. apply recv_all_loop_total. unfold len. simpl. lia.
Qed.

Lemma returns_decode utf8_decode b : returns (decode utf8_decode b).
Proof. unfold decode. destruct (utf8_decode b); by intros w. Qed.

Lemma returns_makedirs os_makedirs d : returns (makedirs os_makedirs d).
Proof. unfold makedirs. destruct (os_makedirs d); by intros w. Qed.

Lemma returns_handshake utf8_decode os_makedirs :
  returns (handshake utf8_decode os_makedirs).
Proof.
  unfold handshake.
  apply returns_bind; [by apply returns_recv_all|]. intros r1.
  destruct (falsy r1); [apply returns_raise|].
  apply returns_bind; [apply returns_decode|]. intros n1.
  apply returns_bind; [apply returns_log|]. intros _.
  apply returns_bind; [apply returns_makedirs|]. intros _.
  apply returns_bind; [apply returns_makedirs|]. intros _.
  apply returns_bind; [apply returns_makedirs|]. intros _.
  apply returns_bind; [by apply returns_recv_all|]. intros r2.
  destruct (falsy r2); [apply returns_raise|].
  apply returns_bind; [apply returns_decode|]. intros n2.
  apply returns_bind; [apply returns_log|]. intros _.
  apply returns_bind; [by apply returns_recv_all|]. intros r3.
  destruct (falsy r3); [apply returns_raise|].
  destruct (_ <=? 0); [apply returns_raise|].
  apply returns_bind; [apply returns_log|]. intros _. apply returns_ret.
Qed.

(** A full frame read off the connection leaves fewer bytes to come. *)
Lemma recv_all_consumes n w b bs w' :
  _recv_all n w = (Done (Some (b :: bs)), w') ->
  (pending (conn w') < pending (conn w))%nat.
Proof.
  intros H. unfold _recv_all in H.
  destruct (Z.lt_ge_cases n 0) as [Hn|Hn].
  - simpl in H. destruct (Z.ltb_spec (len []) n) as [Hl|Hl].
    + unfold len in Hl. simpl in Hl. lia.
    + by inversion H.
  - apply recv_all_loop_exact in H as (_ & _ & Hp);
      [|unfold len; simpl; lia].
    simpl in Hp. lia.
Qed.

Lemma receive_loop_total fuel : forall n st w,
  (pending (conn w) < fuel)%nat ->
  (receive_loop fuel n st w).1 <> OutOfFuel.
Proof.
  induction fuel as [|fuel IH]; intros n st w Hf; [lia|].
  cbn [receive_loop]. unfold bind at 1.
  destruct (_recv_all n w) as [r w1] eqn:E.
  destruct r as [[[|b bs]|]| |]; try done.
  - unfold bind at 1. rewrite process_frame_eq.
    destruct (_ =? _); [done|]. apply IH. cbn [conn].
    apply recv_all_consumes in E. lia.
  - destruct (Z.lt_ge_cases n 0) as [Hn|Hn].
    + unfold _recv_all in E. simpl in E.
      destruct (Z.ltb_spec (len []) n) as [Hl|Hl].
      * unfold len in Hl. simpl in Hl. lia.
      * by inversion E.
    + pose proof (returns_recv_all n Hn w) as Hr. by rewrite E in Hr.
Qed.

Lemma returns_receive_frames n st : returns (receive_frames n st).
Proof. intros w. unfold receive_frames. apply receive_loop_total. lia. Qed.

Lemma reconstruct_done st w :
  exists r w', reconstruct st w = (Done r, w').
Proof.
  destruct (Z.lt_ge_cases 0 (total_frames_expected st)) as [Hp|Hp];
    [destruct (Z.eq_dec (total_frames_received st) (total_frames_expected st))|].
  - rewrite reconstruct_complete by done. eauto.
  - rewrite reconstruct_incomplete by (by right). eauto.
  - rewrite reconstruct_incomplete by (left; lia). eauto.
Qed.

Lemma returns_receive_image n : returns (receive_image n).
Proof.
  unfold receive_image. apply returns_bind; [apply returns_receive_frames|].
  intros st w. by destruct (reconstruct_done st w) as (r & w' & ->).
Qed.

(** Whatever the connection delivers and whatever the decoder does, the
    handler comes to its end: every exception is caught, no loop runs
    past its bound. *)
Lemma handler_returns utf8_decode os_makedirs w :
  exists r w',
    _handle_client_connection utf8_decode os_makedirs w = (Done r, w').
Proof.
  unfold _handle_client_connection.
  set (body := bind (handshake utf8_decode os_makedirs) _).
  assert (Hb : returns body).
  { apply returns_bind; [apply returns_handshake|]. intros [[n f] d].
    apply returns_bind; [apply returns_makedirs|]. intros _.
    apply returns_bind; [apply returns_receive_image|]. intros c.
    apply returns_ret. }
  unfold bind at 1, try_except. specialize (Hb w).
  destruct (body w) as [[r|e|] w1]; simpl in Hb; [| |done].
  - unfold bind, _log_event, ret. eauto.
  - unfold bind, _log_event, ret. eauto.
Qed.

End Totality.

(** ** The handshake *)

Module Handshake.
Import PyBytes Transmitter Receiver Wire ExactRead FrameStep FrameLoop.

Lemma falsy_full (b : bytes) : b <> [] -> falsy (Some b) = false.
Proof. by destruct b. Qed.

Lemma makedirs_ok os_makedirs d w :
  os_makedirs d = None -> makedirs os_makedirs d w = (Done tt, w).
Proof. intros H. unfold makedirs. by rewrite H. Qed.

Lemma makedirs_raises os_makedirs d e w :
  os_makedirs d = Some e -> makedirs os_makedirs d w = (Raised e, w).
Proof. intros H. unfold makedirs. by rewrite H. Qed.

(** The one test the handshake makes on the announced frame size, with
    the three fields read and nothing more: the connection is left at
    the first byte after the size. *)
Lemma handshake_guard (utf8_decode : bytes -> option string)
    (os_makedirs : folder -> option exn)
    (s : socket) (lg : list log_event)
    (name filename size rest : bytes) (n1 n2 : string) :
  clean s = true ->
  stream s = name ++ filename ++ size ++ rest ->
  length name = 50%nat -> length filename = 100%nat -> length size = 4%nat ->
  utf8_decode name = Some n1 -> utf8_decode filename = Some n2 ->
  folders_ok os_makedirs (strip_nul n1) ->
  exists s',
    clean s' = true /\ stream s' = rest
    /\ handshake utf8_decode os_makedirs (World s lg)
       = if from_bytes size <=? 0
         then (Raised (ValueError ("Invalid data size received: "
                                   +:+ pretty (from_bytes size))),
               World s' (lg ++ [LogTransmitterName (strip_nul n1);
                                LogFilename (strip_nul n2)]))
         else (Done (strip_nul n1, strip_nul n2, from_bytes size),
               World s' (lg ++ [LogTransmitterName (strip_nul n1);
                                LogFilename (strip_nul n2);
                                LogDataSize (from_bytes size)])).
Proof.
  intros Hc Hs L1 L2 L3 D1 D2 (F1 & F2 & F3). unfold handshake.
  destruct (recv_all_enough 50 s lg Hc) as (s1 & E1 & Hc1 & Hs1).
  { rewrite Hs. unfold len. rewrite !length_app. lia. }
  rewrite Hs in E1, Hs1.
  rewrite take_app_length' in E1 by (rewrite L1; lia).
  rewrite drop_app_length' in Hs1 by (rewrite L1; lia).
  unfold bind at 1. rewrite E1.
  rewrite falsy_full by (intros ->; discriminate L1).
  unfold bind at 1. unfold decode.
  change (default [] (Some name)) with name. rewrite D1. unfold ret at 1.
  unfold bind at 1. unfold _log_event at 1. cbn [conn log].
  unfold bind at 1. rewrite (makedirs_ok _ _ _ F1).
  unfold bind at 1. rewrite (makedirs_ok _ _ _ F2).
  unfold bind at 1. rewrite (makedirs_ok _ _ _ F3).
  destruct (recv_all_enough 100 s1
              (lg ++ [LogTransmitterName (strip_nul n1)]) Hc1)
    as (s2 & E2 & Hc2 & Hs2).
  { rewrite Hs1. unfold len. rewrite !length_app. lia. }
  rewrite Hs1 in E2, Hs2.
  rewrite take_app_length' in E2 by (rewrite L2; lia).
  rewrite drop_app_length' in Hs2 by (rewrite L2; lia).
  unfold bind at 1. rewrite E2.
  rewrite falsy_full by (intros ->; discriminate L2).
  unfold bind at 1.
  change (default [] (Some filename)) with filename. rewrite D2.
  unfold ret at 1.
  unfold bind at 1. unfold _log_event at 1. cbn [conn log].
  destruct (recv_all_enough 4 s2
              ((lg ++ [LogTransmitterName (strip_nul n1)])
               ++ [LogFilename (strip_nul n2)]) Hc2)
    as (s3 & E3 & Hc3 & Hs3).
  { rewrite Hs2. unfold len. rewrite !length_app. lia. }
  rewrite Hs2 in E3, Hs3.
  rewrite take_app_length' in E3 by (rewrite L3; lia).
  rewrite drop_app_length' in Hs3 by (rewrite L3; lia).
  unfold bind at 1. rewrite E3.
  rewrite falsy_full by (intros ->; discriminate L3).
  change (default [] (Some size)) with size.
  exists s3. split_and!; [done | done |].
  destruct (from_bytes size <=? 0).
  - unfold raise. by rewrite <- !app_assoc.
  - unfold bind, _log_event, ret. cbn [conn log]. by rewrite <- !app_assoc.
Qed.

(** C2 on the code. A handshake that announces a frame size of 5 is not
    rejected: the handler (its folders created without error) logs the
    size, reads the ten bytes that follow as two frames of five bytes
    and only stops at the close of the connection. The frame size 0 is
    the one that is rejected with the bytes after the handshake left
    unread. *)
Theorem small_frame_size_is_read :
  _handle_client_connection decode_ascii writable
    (World [Data (sample_stream 5 sample_rest)] [])
  = (Done None,
     World []
       [LogTransmitterName "TX2"; LogFilename "a.jpg"; LogDataSize 5;
        LogExpecting 0; LogReceivedFrame 0 0; LogReceivedFrame 512 0;
        LogDisconnected; LogIncomplete 0 2; LogClosed])
  /\ _handle_client_connection decode_ascii writable
       (World [Data (sample_stream 0 sample_rest)] [])
     = (Done None,
        World [Data sample_rest]
          [LogTransmitterName "TX2"; LogFilename "a.jpg";
           LogException (ValueError "Invalid data size received: 0");
           LogClosed]).
Proof. split; vm_compute; reflexivity. Qed.

(** A whole transfer of the transmitter, as the handler sees it: the
    handshake and the two frames of a three-byte file at frame size 12. *)
Example transfer_sample :
  exists hs frames,
    handshake_bytes sample_name sample_filename 12 = Done hs
    /\ generate_frames_from_file [Byte.x41; Byte.x42; Byte.x43] 12
       = Done (Some (2, frames))
    /\ (_handle_client_connection decode_ascii writable
          (World (Data hs :: (Data <$> frames)) [])).1
       = Done (Some ("TX2"%string,
                     [Byte.x41; Byte.x42; Byte.x43; Byte.x00])).
Proof. do 2 eexists. split_and!; vm_compute; reflexivity. Qed.

End Handshake.

(** ** The slot policy *)

Module Slots.
Import Feeds SlotSpec Labels.

Lemma first_from_index {A} (P : Z -> A -> bool) (l : list A) : forall i,
  first_from P (Z.of_nat i) l
  = match first_index_from (fun k x => P (Z.of_nat k) x) i l with
    | Some k => Z.of_nat k
    | None => -1
    end.
Proof.
  induction l as [|x l IH]; intros i; simpl; [done|].
  destruct (P (Z.of_nat i) x); [done|].
  replace (Z.of_nat i + 1) with (Z.of_nat (S i)) by lia. apply IH.
Qed.

Lemma first_index_from_bound {A} (P : nat -> A -> bool) (l : list A) :
  forall i k, first_index_from P i l = Some k ->
              (i <= k < i + length l)%nat.
Proof.
  induction l as [|x l IH]; intros i k H; simpl in *; [done|].
  destruct (P i x).
  - inversion H; subst. lia.
  - apply IH in H. lia.
Qed.

Lemma first_index_from_ext {A} (P Q : nat -> A -> bool) (l : list A) :
  forall i,
    (forall k x, l !! k = Some x -> P (i + k)%nat x = Q (i + k)%nat x) ->
    first_index_from P i l = first_index_from Q i l.
Proof.
  induction l as [|x l IH]; intros i H; simpl; [done|].
  pose proof (H O x eq_refl) as H0. rewrite Nat.add_0_r in H0.
  rewrite <- H0.
  destruct (P i x); [done|]. apply IH. intros k y Hk.
  replace (S i + k)%nat with (i + S k)%nat by lia. by apply H.
Qed.

Lemma first_feed_index {A} (P : Z -> A -> bool) (l : list A) :
  first_feed P l
  = match first_index (fun k x => P (Z.of_nat k) x) l with
    | Some k => Z.of_nat k
    | None => -1
    end.
Proof. apply (first_from_index P l O). Qed.

Lemma first_index_bound {A} (P : nat -> A -> bool) (l : list A) k :
  first_index P l = Some k -> (k < length l)%nat.
Proof. intros H. apply first_index_from_bound in H. lia. Qed.

Lemma position_in_range {A} (l : list A) (k : nat) :
  (k < length l)%nat -> position l (Z.of_nat k) = Some k.
Proof.
  intros Hk. unfold position.
  destruct (Z.leb_spec 0 (Z.of_nat k)); [|lia].
  destruct (Z.ltb_spec (Z.of_nat k) (Z.of_nat (length l))); [|lia].
  simpl. by rewrite Nat2Z.id.
Qed.

Lemma getitem_in_range {A} (l : list A) (k : nat) x :
  l !! k = Some x -> getitem l (Z.of_nat k) = Done x.
Proof.
  intros Hx. unfold getitem.
  rewrite position_in_range by (by eapply lookup_lt_Some). by rewrite Hx.
Qed.

Lemma is_preferred_slot_spec prefs i :
  is_preferred_slot prefs i = true <-> exists o, prefs !! o = Some i.
Proof.
  unfold is_preferred_slot. rewrite bool_decide_eq_true, list_elem_of_fmap.
  split.
  - intros ([o p] & -> & H). exists o. by apply elem_of_map_to_list.
  - intros [o H]. exists (o, i). split; [done|]. by apply elem_of_map_to_list.
Qed.

Lemma preferred_by_another_spec prefs name k :
  preferred_by_another prefs name k = true
  <-> exists o, o <> name /\ prefs !! o = Some (Z.of_nat k).
Proof.
  unfold preferred_by_another. rewrite bool_decide_eq_true, Exists_exists.
  split.
  - intros ([o p] & H & Hne & Hp). simpl in *. subst p.
    exists o. split; [done|]. by apply elem_of_map_to_list.
  - intros (o & Hne & H). exists (o, Z.of_nat k).
    split; [by apply elem_of_map_to_list | done].
Qed.

Section Precedence.
Context {image : Type}.
Implicit Types (feeds : list (feed image)) (prefs : gmap string Z).

(** The last step of the method, for an index of the table. *)
Lemma assign_in_range feeds (k : nat) name (img : image) :
  (k < length feeds)%nat ->
  res_bind (getitem feeds (Z.of_nat k)) (fun _ =>
    match position feeds (Z.of_nat k) with
    | Some j => Done (Z.of_nat k, <[j := Feed name (Some img)]> feeds)
    | None => Raised IndexError
    end)
  = Done (Z.of_nat k, <[k := Feed name (Some img)]> feeds).
Proof.
  intros Hk.
  destruct (lookup_lt_is_Some_2 feeds k Hk) as [f Hf].
  by rewrite (getitem_in_range _ _ _ Hf), position_in_range.
Qed.

(** The first step of the method is rule 1. *)
Lemma by_preference_rule prefs feeds name :
  prefs_in_range prefs feeds ->
  match prefs !! name with
  | Some preferred_idx =>
    res_bind (getitem feeds preferred_idx) (fun f =>
      if named unassigned f || named name f
      then Done preferred_idx else Done (-1))
  | None => Done (-1)
  end
  = Done (match pick_preferred prefs feeds name with
          | Some i => Z.of_nat i
          | None => -1
          end).
Proof.
  intros Hr. unfold pick_preferred.
  destruct (prefs !! name) as [p|] eqn:Ep; [|done].
  apply Hr in Ep.
  destruct (lookup_lt_is_Some_2 feeds (Z.to_nat p) ltac:(lia)) as [f Hf].
  rewrite Hf. replace p with (Z.of_nat (Z.to_nat p)) at 1 by lia.
  rewrite (getitem_in_range _ _ _ Hf). simpl.
  unfold is_unassigned, held_by.
  destruct (named unassigned f || named name f); [|done].
  by rewrite Z2Nat.id by lia.
Qed.

(** Past rule 1, a free slot is somebody's preferred slot exactly when
    it is the preferred slot of somebody else. *)
Lemma general_rule_agrees prefs feeds name :
  pick_preferred prefs feeds name = None ->
  prefs_in_range prefs feeds ->
  forall k f, feeds !! k = Some f ->
    named unassigned f && negb (is_preferred_slot prefs (Z.of_nat k))
    = is_unassigned f && negb (preferred_by_another prefs name k).
Proof.
  intros Hno Hr k f Hf. unfold is_unassigned.
  destruct (named unassigned f) eqn:Eu; [simpl|done]. f_equal.
  apply eq_true_iff_eq. rewrite is_preferred_slot_spec, preferred_by_another_spec.
  split.
  - intros [o Ho]. exists o. split; [|done]. intros ->.
    unfold pick_preferred in Hno. rewrite Ho, Nat2Z.id, Hf in Hno.
    unfold is_unassigned in Hno. by rewrite Eu in Hno.
  - intros (o & _ & Ho). by exists o.
Qed.

Lemma pick_preferred_bound prefs feeds name i :
  pick_preferred prefs feeds name = Some i -> (i < length feeds)%nat.
Proof.
  unfold pick_preferred. intros H.
  destruct (prefs !! name) as [p|]; [|done].
  destruct (feeds !! Z.to_nat p) as [f|] eqn:Ef; [|done].
  destruct (is_unassigned f || held_by name f); [|done].
  inversion H; subst. by eapply lookup_lt_Some.
Qed.

(** The method chooses the slot of its searches and relabels it. *)
Lemma update_follows_rules prefs feeds name (img : image) :
  prefs_in_range prefs feeds -> feeds <> [] ->
  update_live_feed prefs feeds name img
  = Done (Z.of_nat (pick_slot prefs feeds name),
          <[pick_slot prefs feeds name := Feed name (Some img)]> feeds).
Proof.
  intros Hr Hne. unfold update_live_feed.
  rewrite by_preference_rule by done. unfold res_bind at 1. unfold pick_slot.
  destruct (pick_preferred prefs feeds name) as [i|] eqn:E1.
  { assert (Hf : (Z.of_nat i =? -1) = false) by (apply Z.eqb_neq; lia).
    cbv zeta. rewrite !Hf. cbn [negb].
    apply assign_in_range. by eapply pick_preferred_bound. }
  change (-1 =? -1) with true. cbv iota zeta.
  rewrite (first_feed_index (fun _ f => named name f)).
  unfold pick_existing, held_by.
  destruct (first_index (fun _ f => named name f) feeds) as [i|] eqn:E2.
  { assert (Hf : (Z.of_nat i =? -1) = false) by (apply Z.eqb_neq; lia).
    rewrite !Hf. cbn [negb].
    apply assign_in_range. by eapply first_index_bound. }
  change (-1 =? -1) with true. cbv iota.
  rewrite (first_feed_index
             (fun i f => named unassigned f && negb (is_preferred_slot prefs i))).
  unfold first_index.
  rewrite (first_index_from_ext _
             (fun i f => is_unassigned f
                         && negb (preferred_by_another prefs name i)))
    by (intros k f Hf; rewrite Nat.add_0_l;
        by apply (general_rule_agrees prefs feeds name)).
  unfold pick_general, first_index.
  destruct (first_index_from _ 0 feeds) as [i|] eqn:E3.
  { assert (Hf : (Z.of_nat i =? -1) = false) by (apply Z.eqb_neq; lia).
    rewrite ?Hf. cbn [negb].
    apply assign_in_range. by eapply first_index_bound. }
  change (-1 =? -1) with true. cbv iota.
  rewrite (first_feed_index (fun _ f => named unassigned f)).
  unfold pick_fallback, is_unassigned.
  destruct (first_index (fun _ f => named unassigned f) feeds) as [i|] eqn:E4.
  { assert (Hf : (Z.of_nat i =? -1) = false) by (apply Z.eqb_neq; lia).
    rewrite ?Hf. cbn [negb].
    apply assign_in_range. by eapply first_index_bound. }
  change (-1 =? -1) with true. cbv iota.
  change (0 =? -1) with false. cbn [negb].
  apply (assign_in_range feeds 0). destruct feeds; [done | simpl; lia].
Qed.

End Precedence.

Lemma first_index_from_Some {A} (P : nat -> A -> bool) (l : list A) :
  forall i k, first_index_from P i l = Some k ->
    exists x, l !! (k - i)%nat = Some x /\ P k x = true /\ (i <= k)%nat.
Proof.
  induction l as [|x l IH]; intros i k H; simpl in *; [done|].
  destruct (P i x) eqn:E.
  - inversion H; subst. exists x. by rewrite Nat.sub_diag.
  - destruct (IH _ _ H) as (y & Hy & HP & Hle).
    exists y. replace (k - i)%nat with (S (k - S i)) by lia.
    split_and!; [done | done | lia].
Qed.

Lemma first_index_Some {A} (P : nat -> A -> bool) (l : list A) k :
  first_index P l = Some k -> exists x, l !! k = Some x /\ P k x = true.
Proof.
  intros H. destruct (first_index_from_Some P l _ _ H) as (x & Hx & HP & _).
  rewrite Nat.sub_0_r in Hx. eauto.
Qed.

Lemma first_index_from_None {A} (P : nat -> A -> bool) (l : list A) :
  forall i, first_index_from P i l = None ->
    forall k x, l !! k = Some x -> P (i + k)%nat x = false.
Proof.
  induction l as [|x l IH]; intros i H k y Hk; simpl in *; [done|].
  destruct (P i x) eqn:E; [done|]. destruct k as [|k]; simpl in Hk.
  - inversion Hk; subst. by rewrite Nat.add_0_r.
  - replace (i + S k)%nat with (S i + k)%nat by lia. by eapply IH.
Qed.

Lemma first_index_None {A} (P : nat -> A -> bool) (l : list A) :
  first_index P l = None -> forall k x, l !! k = Some x -> P k x = false.
Proof. intros H k x Hk. by apply (first_index_from_None P l O H k x). Qed.

Lemma named_true {image : Type} n (f : feed image) :
  named n f = true <-> transmitter_name f = n.
Proof. unfold named. apply bool_decide_eq_true. Qed.

Lemma named_false {image : Type} n (f : feed image) :
  named n f = false <-> transmitter_name f <> n.
Proof. unfold named. apply bool_decide_eq_false. Qed.

Section Invariant.
Context {image : Type}.
Implicit Types (feeds : list (feed image)) (prefs : gmap string Z).

(** How the chosen slot was chosen: by rule 1, by rule 2, or with the
    identity holding no slot at all. *)
Lemma pick_slot_cases prefs feeds name :
  feeds <> [] ->
  let k := pick_slot prefs feeds name in
  (k < length feeds)%nat
  /\ ((exists p f, prefs !! name = Some p /\ k = Z.to_nat p
                  /\ feeds !! k = Some f
                  /\ (transmitter_name f = unassigned
                      \/ transmitter_name f = name))
      \/ (pick_preferred prefs feeds name = None
          /\ exists f, feeds !! k = Some f /\ transmitter_name f = name)
      \/ (pick_preferred prefs feeds name = None
          /\ forall i f, feeds !! i = Some f -> transmitter_name f <> name)).
Proof.
  intros Hne k. unfold pick_slot in k.
  destruct (pick_preferred prefs feeds name) as [i|] eqn:E1.
  { subst k. split; [by eapply pick_preferred_bound|]. left.
    unfold pick_preferred in E1.
    destruct (prefs !! name) as [p|]; [|done].
    destruct (feeds !! Z.to_nat p) as [f|] eqn:Ef; [|done].
    destruct (is_unassigned f || held_by name f) eqn:Ec; [|done].
    inversion E1; subst. exists p, f. split_and!; try done.
    apply orb_true_iff in Ec as [H|H]; apply named_true in H; auto. }
  destruct (pick_existing feeds name) as [i|] eqn:E2.
  { subst k. split; [by eapply first_index_bound|]. right; left.
    split; [done|].
    destruct (first_index_Some _ _ _ E2) as (f & Hf & HP).
    exists f. split; [done|]. by apply named_true. }
  assert (Hnone : forall i f, feeds !! i = Some f -> transmitter_name f <> name).
  { intros i f Hf. apply named_false.
    apply (first_index_None _ _ E2 i f Hf). }
  split; [|by right; right].
  subst k. destruct (pick_general prefs feeds name) as [i|] eqn:E3;
    [by eapply first_index_bound|].
  destruct (pick_fallback feeds) as [i|] eqn:E4;
    [by eapply first_index_bound|].
  destruct feeds; [done | simpl; lia].
Qed.

Lemma pick_preferred_None prefs feeds name p :
  prefs_in_range prefs feeds ->
  pick_preferred prefs feeds name = None -> prefs !! name = Some p ->
  exists f, feeds !! Z.to_nat p = Some f
            /\ transmitter_name f <> unassigned
            /\ transmitter_name f <> name.
Proof.
  intros Hr Hno Hp. unfold pick_preferred in Hno. rewrite Hp in Hno.
  apply Hr in Hp.
  destruct (lookup_lt_is_Some_2 feeds (Z.to_nat p) ltac:(lia)) as [f Hf].
  rewrite Hf in Hno. exists f. split; [done|].
  destruct (is_unassigned f || held_by name f) eqn:Ec; [done|].
  apply orb_false_iff in Ec as [H1 H2].
  by apply named_false in H1, H2.
Qed.

(** An arrival under a name other than the label of the unassigned
    slots keeps every identity in at most one slot. *)
Lemma update_keeps_one_slot prefs feeds name (img : image) :
  prefs_in_range prefs feeds -> feeds <> [] -> name <> unassigned ->
  one_slot_each feeds -> preferred_taken prefs feeds ->
  let feeds' := <[pick_slot prefs feeds name := Feed name (Some img)]> feeds in
  one_slot_each feeds' /\ preferred_taken prefs feeds'.
Proof.
  intros Hr Hne Hname Hone Htaken feeds'.
  destruct (pick_slot_cases prefs feeds name Hne) as [Hk Hcase].
  set (k := pick_slot prefs feeds name) in *.
  assert (Hk' : feeds' !! k = Some (Feed name (Some img))).
  { by apply list_lookup_insert_eq. }
  assert (Hother : forall i, i <> k -> feeds' !! i = feeds !! i).
  { intros i Hi. by apply list_lookup_insert_ne. }
  (* a slot other than [k] that holds [name] is impossible or is [k] *)
  assert (Hsingle : forall j fj, j <> k -> feeds !! j = Some fj ->
                      transmitter_name fj = name -> False).
  { intros j fj Hj Hfj Hn.
    destruct Hcase as [(p & f & Hp & Hkp & Hf & Hc)|[(Hno & f & Hf & Hn')|(Hno & Hnone)]].
    - destruct (Htaken j fj p Hfj) as (fp & Hfp & Hnu); try congruence.
      rewrite <- Hkp, Hf in Hfp. inversion Hfp; subst fp.
      destruct Hc as [Hc|Hc]; [done|].
      apply Hj. apply (Hone j k fj f); congruence.
    - apply Hj. apply (Hone j k fj f); congruence.
    - by eapply Hnone. }
  split.
  - intros i j fi fj Hi Hj Heq Hnu.
    destruct (decide (i = k)) as [->|Hik], (decide (j = k)) as [->|Hjk];
      try done.
    + rewrite Hk' in Hi. rewrite Hother in Hj by done.
      inversion Hi; subst fi. simpl in Heq. exfalso. by eapply Hsingle.
    + rewrite Hk' in Hj. rewrite Hother in Hi by done.
      inversion Hj; subst fj. simpl in Heq. exfalso. by eapply Hsingle.
    + rewrite Hother in Hi, Hj by done. by eapply Hone.
  - intros i fi p Hi Hnu Hp Hpi.
    destruct (decide (Z.to_nat p = k)) as [E|E].
    { exists (Feed name (Some img)). by rewrite E. }
    rewrite Hother by done.
    destruct (decide (i = k)) as [->|Hik].
    + rewrite Hk' in Hi. inversion Hi; subst fi. simpl in *.
      destruct Hcase as [(p' & f & Hp' & Hkp & _)|[(Hno & _)|(Hno & _)]].
      * congruence.
      * destruct (pick_preferred_None _ _ _ _ Hr Hno Hp) as (f & ? & ? & ?).
        eauto.
      * destruct (pick_preferred_None _ _ _ _ Hr Hno Hp) as (f & ? & ? & ?).
        eauto.
    + rewrite Hother in Hi by done. by eapply Htaken.
Qed.

(** From a table of unassigned slots, arrivals under names other than
    the label of the unassigned slots never put an identity in two
    slots. *)
Lemma arrivals_keep_one_slot prefs (names : list (string * image)) :
  forall feeds,
    prefs_in_range prefs feeds -> feeds <> [] ->
    Forall (fun ni => ni.1 <> unassigned) names ->
    one_slot_each feeds -> preferred_taken prefs feeds ->
    exists slots feeds',
      arrivals prefs feeds names = Done (slots, feeds')
      /\ one_slot_each feeds'.
Proof.
  induction names as [|[n img] names IH]; intros feeds Hr Hne Hall Hone Htk.
  - exists [], feeds. by split.
  - apply Forall_cons in Hall as [Hn Hall]. simpl in Hn.
    destruct (update_keeps_one_slot prefs feeds n img Hr Hne Hn Hone Htk)
      as [Hone' Htk'].
    simpl. rewrite update_follows_rules by done. simpl.
    destruct (IH (<[pick_slot prefs feeds n := Feed n (Some img)]> feeds))
      as (slots & feeds' & -> & Hfin); try done.
    + intros m p Hp. rewrite length_insert. by eapply Hr.
    + intros E. apply Hne. apply (f_equal length) in E.
      rewrite length_insert in E. by destruct feeds.
    + simpl. eauto.
Qed.

Lemma unassigned_table_invariant prefs (N : nat) :
  one_slot_each (replicate N (@Feed image unassigned None))
  /\ preferred_taken prefs (replicate N (@Feed image unassigned None)).
Proof.
  split.
  - intros i j fi fj Hi _ _ Hnu. apply lookup_replicate in Hi as [-> _]. done.
  - intros i fi p Hi Hnu. apply lookup_replicate in Hi as [-> _]. done.
Qed.

End Invariant.

Lemma example_preferences_in_range {image : Type} :
  prefs_in_range example_preferences (@live_feed_assignments image).
Proof.
  intros n p H. unfold example_preferences in H. simpl.
  destruct (decide (n = "A"%string)) as [->|];
    [rewrite lookup_insert_eq in H; inversion H; lia|].
  rewrite lookup_insert_ne in H by done.
  destruct (decide (n = "B"%string)) as [->|];
    [rewrite lookup_insert_eq in H; inversion H; lia|].
  rewrite lookup_insert_ne in H by done. by rewrite lookup_empty in H.
Qed.

Lemma preferred_assignments_in_range {image : Type} :
  prefs_in_range preferred_assignments (@live_feed_assignments image).
Proof.
  intros n p H. unfold preferred_assignments in H. simpl.
  destruct (decide (n = "Tx1"%string)) as [->|];
    [rewrite lookup_insert_eq in H; inversion H; lia|].
  rewrite lookup_insert_ne in H by done.
  destruct (decide (n = "Tx2"%string)) as [->|];
    [rewrite lookup_insert_eq in H; inversion H; lia|].
  rewrite lookup_insert_ne in H by done. by rewrite lookup_empty in H.
Qed.

Lemma first_index_from_related {A B} (P : nat -> A -> bool)
    (Q : nat -> B -> bool) (R : A -> B -> Prop) (l1 : list A) (l2 : list B) :
  Forall2 R l1 l2 ->
  (forall k x y, R x y -> P k x = Q k y) ->
  forall i, first_index_from P i l1 = first_index_from Q i l2.
Proof.
  intros HF HR. induction HF as [|x y l1 l2 Hxy _ IH]; intros i; simpl; [done|].
  rewrite (HR i x y Hxy). by rewrite IH.
Qed.

Section Conformance.
Context {image : Type}.
Implicit Types (feeds : list (feed image)) (t : table).

Lemma shows_each feeds : forall t,
  shows feeds t ->
  Forall2 (fun f s => transmitter_name f = label s /\ s <> Some unassigned)
          feeds t.
Proof.
  induction feeds as [|f feeds IH]; intros [|s t] [Hl Hn]; simpl in Hl.
  - constructor.
  - discriminate Hl.
  - discriminate Hl.
  - injection Hl as Hf Hl. apply not_elem_of_cons in Hn as [Hs Hn].
    constructor; [by split | by apply IH].
Qed.

(** On a slot that shows an optional identity, the two tests of the
    method are the two notions of the specification, for a name that is
    not the label of the unassigned slots. *)
Lemma tests_agree name (f : feed image) (s : option string) :
  name <> unassigned ->
  transmitter_name f = label s -> s <> Some unassigned ->
  is_unassigned f = unassigned_slot s /\ held_by name f = holds name s.
Proof.
  intros Hname Hl Hs. unfold is_unassigned, held_by, named.
  unfold unassigned_slot, holds. rewrite Hl.
  destruct s as [n|]; simpl.
  - split.
    + apply bool_decide_eq_false_2. congruence.
    + apply bool_decide_ext. split; congruence.
  - split; [done|].
    apply bool_decide_eq_false_2. congruence.
Qed.

(** The method's searches choose the slot of the rules. *)
Lemma pick_is_rule prefs feeds t name :
  prefs_in_range prefs feeds -> shows feeds t -> name <> unassigned ->
  pick_slot prefs feeds name = rule_slot prefs t name.
Proof.
  intros Hr Hsh Hname. pose proof (shows_each feeds t Hsh) as HF.
  assert (E1 : pick_preferred prefs feeds name = rule_preferred prefs t name).
  { unfold pick_preferred, rule_preferred.
    destruct (prefs !! name) as [p|] eqn:Ep; [|done].
    apply Hr in Ep. destruct (Z.leb_spec 0 p); [|lia].
    rewrite Forall2_lookup in HF. specialize (HF (Z.to_nat p)).
    unfold table in *.
    inversion HF as [f s [Hl Hs] Ef Et|Ef Et]; [|done].
    by destruct (tests_agree name f s Hname Hl Hs) as [-> ->]. }
  assert (E2 : pick_existing feeds name = rule_existing t name).
  { apply (first_index_from_related _ _ _ _ _ HF).
    intros k f s [Hl Hs]. by destruct (tests_agree name f s Hname Hl Hs). }
  assert (E3 : pick_general prefs feeds name = rule_general prefs t name).
  { apply (first_index_from_related _ _ _ _ _ HF).
    intros k f s [Hl Hs].
    by destruct (tests_agree name f s Hname Hl Hs) as [-> _]. }
  assert (E4 : pick_fallback feeds = rule_fallback t).
  { apply (first_index_from_related _ _ _ _ _ HF).
    intros k f s [Hl Hs]. by destruct (tests_agree name f s Hname Hl Hs). }
  unfold pick_slot, rule_slot. by rewrite E1, E2, E3, E4.
Qed.

(** One arrival: the method assigns the slot of the rules, and the
    table it leaves shows the table the rules leave. *)
Lemma update_is_rule prefs feeds t name (img : image) :
  prefs_in_range prefs feeds -> feeds <> [] -> shows feeds t ->
  name <> unassigned ->
  update_live_feed prefs feeds name img
  = Done (Z.of_nat (rule_slot prefs t name),
          <[rule_slot prefs t name := Feed name (Some img)]> feeds)
  /\ shows (<[rule_slot prefs t name := Feed name (Some img)]> feeds)
           (<[rule_slot prefs t name := Some name]> t).
Proof.
  intros Hr Hne Hsh Hname.
  rewrite update_follows_rules by done.
  rewrite (pick_is_rule prefs feeds t name) by done.
  split; [done|]. destruct Hsh as [Hl Hn]. unfold table in *. split.
  - by rewrite !list_fmap_insert, Hl.
  - intros Hin. apply list_elem_of_lookup in Hin as [j Hj].
    destruct (decide (j = rule_slot prefs t name)) as [->|Hjk].
    + apply list_lookup_insert_Some in Hj as [(_ & E & _)|(? & _)];
        [congruence | done].
    + rewrite list_lookup_insert_ne in Hj by done.
      apply Hn. by eapply list_elem_of_lookup_2.
Qed.

(** Any sequence of arrivals. *)
Lemma arrivals_are_rules prefs (names : list (string * image)) :
  forall feeds t,
    prefs_in_range prefs feeds -> feeds <> [] -> shows feeds t ->
    Forall (fun ni => ni.1 <> unassigned) names ->
    exists feeds',
      arrivals prefs feeds names
      = Done (Z.of_nat <$> (assign_all prefs t names.*1).1, feeds')
      /\ shows feeds' (assign_all prefs t names.*1).2.
Proof.
  induction names as [|[n img] names IH]; intros feeds t Hr Hne Hsh Hall.
  - exists feeds. by split.
  - apply Forall_cons in Hall as [Hn Hall]. simpl in Hn.
    destruct (update_is_rule prefs feeds t n img Hr Hne Hsh Hn) as [Hu Hsh'].
    cbn [arrivals]. rewrite Hu. cbn [res_bind fst snd].
    destruct (IH (<[rule_slot prefs t n := Feed n (Some img)]> feeds)
                 (<[rule_slot prefs t n := Some n]> t))
      as (feeds' & -> & Hfin); try done.
    + intros m p Hp. rewrite length_insert. by eapply Hr.
    + intros E. apply Hne. apply (f_equal length) in E.
      rewrite length_insert in E. by destruct feeds.
    + exists feeds'. by split.
Qed.
End Conformance.

(** C3 on the code. For identities other than the label ['N/A'] of the
    unassigned slots the method follows the strict precedence of the
    five rules: on a table that shows a table of optional identities,
    any sequence of arrivals is given the slots the rules choose on that
    table, and leaves a table that shows the one the rules leave; from
    four unassigned slots with the preferences A:0 and B:1, the arrivals
    A, B, C, D, E get the slots 0, 1, 2, 3, 0. For the identity ['N/A']
    the method departs from the rules: on four unassigned slots it takes
    every slot to be held by that identity and assigns slot 0 by its
    second step, where no slot is held by it and rule 3 gives slot 2,
    the first unassigned slot that is nobody's preferred slot. *)
Theorem slot_precedence {image : Type} (prefs : gmap string Z)
    (feeds : list (feed image)) (t : table)
    (names : list (string * image)) (img : image) :
  prefs_in_range prefs feeds -> feeds <> [] -> shows feeds t ->
  Forall (fun ni => ni.1 <> unassigned) names ->
  (exists feeds',
     arrivals prefs feeds names
     = Done (Z.of_nat <$> (assign_all prefs t names.*1).1, feeds')
     /\ shows feeds' (assign_all prefs t names.*1).2)
  /\ (arrivals example_preferences live_feed_assignments
        [("A"%string, img); ("B"%string, img); ("C"%string, img);
         ("D"%string, img); ("E"%string, img)]
      = Done ([0; 1; 2; 3; 0],
              [Feed "E" (Some img); Feed "B" (Some img);
               Feed "C" (Some img); Feed "D" (Some img)])
      /\ (assign_all example_preferences (replicate 4 None)
            ["A"; "B"; "C"; "D"; "E"]%string).1
         = [0; 1; 2; 3; 0]%nat)
  /\ (_update_live_feed_display live_feed_assignments unassigned img
      = Done (0, [Feed unassigned (Some img); Feed unassigned None;
                  Feed unassigned None; Feed unassigned None])
      /\ rule_existing (replicate 4 None) unassigned = None
      /\ rule_slot preferred_assignments (replicate 4 None) unassigned
         = 2%nat).
Proof.
  intros Hr Hne Hsh Hall. split; [by apply arrivals_are_rules|].
  split; [split; vm_compute; reflexivity|].
  split_and!; vm_compute; reflexivity.
Qed.

Lemma slot_precedence_witness :
  exists feeds',
    arrivals preferred_assignments live_feed_assignments
      [("Tx2"%string, tt); ("X"%string, tt); ("Tx2"%string, tt)]
    = Done (Z.of_nat <$> (assign_all preferred_assignments (replicate 4 None)
                            ["Tx2"; "X"; "Tx2"]%string).1,
            feeds')
    /\ shows feeds' (assign_all preferred_assignments (replicate 4 None)
                       ["Tx2"; "X"; "Tx2"]%string).2.
Proof.
  refine (proj1 (slot_precedence preferred_assignments live_feed_assignments
                   (replicate 4 None)
                   [("Tx2"%string, tt); ("X"%string, tt); ("Tx2"%string, tt)]
                   tt _ _ _ _)).
  - apply preferred_assignments_in_range.
  - discriminate.
  - split; [reflexivity|].
    intros H. apply elem_of_replicate in H as [H _]. discriminate H.
  - repeat constructor; discriminate.
Defined.

(** C9 on the code. The arrivals X, Y, Z, Tx1 fill the four slots, Tx1
    landing in slot 1 because Z holds its preferred slot 0. An arrival
    whose name is the label of the unassigned slots then overwrites slot
    0 by the last rule, which leaves slot 0 looking unassigned, and the
    next image of Tx1 is put there by rule 1: Tx1 labels slots 0 and 1. *)
Theorem sentinel_name_duplicates_identity {image : Type} (img : image) :
  let final := [Feed "Tx1" (Some img); Feed "Tx1" (Some img);
                Feed "X" (Some img); Feed "Y" (Some img)] in
  _update_live_feed_display
    [Feed "Z" (Some img); Feed "Tx1" (Some img);
     Feed "X" (Some img); Feed "Y" (Some img)] unassigned img
  = Done (0, [Feed unassigned (Some img); Feed "Tx1" (Some img);
              Feed "X" (Some img); Feed "Y" (Some img)])
  /\ arrivals preferred_assignments live_feed_assignments
       [("X"%string, img); ("Y"%string, img); ("Z"%string, img);
        ("Tx1"%string, img); (unassigned, img); ("Tx1"%string, img)]
     = Done ([2; 3; 0; 1; 0; 0], final)
  /\ ~ one_slot_each final.
Proof.
  intros final. split_and!.
  - vm_compute. reflexivity.
  - vm_compute. reflexivity.
  - intros H.
    specialize (H 0%nat 1%nat (Feed "Tx1" (Some img)) (Feed "Tx1" (Some img))
                  eq_refl eq_refl eq_refl).
    discriminate H. by vm_compute.
Qed.

End Slots.

(** ** Independence of the segmentation *)

Module Segmentation.
Import PyBytes Receiver Wire Streams ExactRead FrameStep FrameLoop.

Lemma same_stream_refl_log s1 s2 lg :
  clean s1 = true -> clean s2 = true -> stream s1 = stream s2 ->
  same_stream (World s1 lg) (World s2 lg).
Proof. by intros; repeat split. Qed.

Lemma respects_ret {A} (a : A) : respects (ret a).
Proof. by intros w1 w2 H. Qed.

Lemma respects_raise {A} e : respects (@raise A e).
Proof. by intros w1 w2 H. Qed.

Lemma respects_out_of_fuel {A} : respects (@out_of_fuel A).
Proof. by intros w1 w2 H. Qed.

Lemma respects_log e : respects (_log_event e).
Proof.
  intros w1 w2 (H1 & H2 & H3 & H4). unfold _log_event. simpl.
  split; [done|]. repeat split; simpl; try done. by rewrite H4.
Qed.

Lemma respects_bind {A B} (m : M A) (k : A -> M B) :
  respects m -> (forall a, respects (k a)) -> respects (bind m k).
Proof.
  intros Hm Hk w1 w2 H. unfold bind. destruct (Hm w1 w2 H) as [Hr Hw].
  destruct (m w1) as [r1 w1'], (m w2) as [r2 w2']. simpl in *. subst r2.
  destruct r1 as [a| |]; [by apply Hk | done | done].
Qed.

Lemma respects_try {A} (m : M A) (h : exn -> M A) :
  respects m -> (forall e, respects (h e)) -> respects (try_except m h).
Proof.
  intros Hm Hh w1 w2 H. unfold try_except. destruct (Hm w1 w2 H) as [Hr Hw].
  destruct (m w1) as [r1 w1'], (m w2) as [r2 w2']. simpl in *. subst r2.
  destruct r1 as [a|e|]; [done | by apply Hh | done].
Qed.

Lemma respects_recv_all n : respects (_recv_all n).
Proof.
  intros [s1 lg1] [s2 lg2] (H1 & H2 & H3 & H4). simpl in *. subst lg2.
  destruct (Z.lt_ge_cases n 0) as [Hneg|Hn].
  { unfold _recv_all. simpl.
    destruct (Z.ltb_spec (len []) n) as [Hl|Hl];
      [unfold len in Hl; simpl in Hl; lia|].
    unfold ret. simpl. by repeat split. }
  destruct (Z.le_gt_cases n (len (stream s1))) as [Hle|Hgt].
  - destruct (recv_all_enough n s1 lg1 H1) as (s1' & -> & ? & ?); [lia|].
    destruct (recv_all_enough n s2 lg1 H2) as (s2' & -> & ? & ?);
      [rewrite <- H3; lia|].
    simpl. rewrite H3. split; [done|]. repeat split; simpl; try done.
    congruence.
  - destruct (recv_all_short n s1 lg1 H1) as (s1' & -> & ? & ?); [lia|].
    destruct (recv_all_short n s2 lg1 H2) as (s2' & -> & ? & ?);
      [rewrite <- H3; lia|].
    simpl. split; [done|]. repeat split; simpl; try done. congruence.
Qed.

Lemma respects_process_frame st full : respects (process_frame st full).
Proof.
  intros w1 w2 (H1 & H2 & H3 & H4). rewrite !process_frame_eq. simpl.
  split; [done|]. repeat split; simpl; try done. by rewrite H4.
Qed.

Lemma respects_receive_loop fuel : forall n st,
  respects (receive_loop fuel n st).
Proof.
  induction fuel as [|fuel IH]; intros n st; [apply respects_out_of_fuel|].
  cbn [receive_loop]. apply respects_bind; [apply respects_recv_all|].
  intros [[|b bs]|].
  - apply respects_bind; [apply respects_log | intros; apply respects_ret].
  - apply respects_bind; [apply respects_process_frame|]. intros st'.
    destruct (_ =? _); [|apply IH].
    apply respects_bind; [apply respects_log | intros; apply respects_ret].
  - apply respects_bind; [apply respects_log | intros; apply respects_ret].
Qed.

Lemma respects_receive_frames n st : respects (receive_frames n st).
Proof.
  intros w1 w2 H. unfold receive_frames.
  destruct H as (H1 & H2 & H3 & H4).
  rewrite (pending_clean _ H1), (pending_clean _ H2), H3.
  apply respects_receive_loop. by repeat split.
Qed.

(** Reconstruction does not touch the connection: it returns a value
    and adds to the log, both fixed by the buffer. *)
Lemma reconstruct_shape st :
  exists r evs, forall w,
    reconstruct st w = (Done r, World (conn w) (log w ++ evs)).
Proof.
  destruct (Z.lt_ge_cases 0 (total_frames_expected st)) as [Hp|Hp];
    [destruct (Z.eq_dec (total_frames_received st) (total_frames_expected st))|].
  - do 2 eexists. intros w. by rewrite reconstruct_complete.
  - do 2 eexists. intros w. by rewrite reconstruct_incomplete by (by right).
  - do 2 eexists. intros w. by rewrite reconstruct_incomplete by (left; lia).
Qed.

Lemma respects_reconstruct st : respects (reconstruct st).
Proof.
  destruct (reconstruct_shape st) as (r & evs & H).
  intros w1 w2 (H1 & H2 & H3 & H4). rewrite !H. simpl.
  split; [done|]. repeat split; simpl; try done. by rewrite H4.
Qed.

Lemma respects_receive_image n : respects (receive_image n).
Proof.
  unfold receive_image.
  apply respects_bind; [apply respects_receive_frames|].
  apply respects_reconstruct.
Qed.

Lemma respects_decode utf8_decode b : respects (decode utf8_decode b).
Proof.
  unfold decode. destruct (utf8_decode b);
    [apply respects_ret | apply respects_raise].
Qed.

Lemma respects_makedirs os_makedirs d : respects (makedirs os_makedirs d).
Proof.
  unfold makedirs. destruct (os_makedirs d);
    [apply respects_raise | apply respects_ret].
Qed.

Lemma respects_handshake utf8_decode os_makedirs :
  respects (handshake utf8_decode os_makedirs).
Proof.
  unfold handshake.
  apply respects_bind; [apply respects_recv_all|]. intros r1.
  destruct (falsy r1); [apply respects_raise|].
  apply respects_bind; [apply respects_decode|]. intros n1.
  apply respects_bind; [apply respects_log|]. intros _.
  apply respects_bind; [apply respects_makedirs|]. intros _.
  apply respects_bind; [apply respects_makedirs|]. intros _.
  apply respects_bind; [apply respects_makedirs|]. intros _.
  apply respects_bind; [apply respects_recv_all|]. intros r2.
  destruct (falsy r2); [apply respects_raise|].
  apply respects_bind; [apply respects_decode|]. intros n2.
  apply respects_bind; [apply respects_log|]. intros _.
  apply respects_bind; [apply respects_recv_all|]. intros r3.
  destruct (falsy r3); [apply respects_raise|].
  destruct (_ <=? 0); [apply respects_raise|].
  apply respects_bind; [apply respects_log|]. intros _. apply respects_ret.
Qed.

Lemma respects_handler utf8_decode os_makedirs :
  respects (_handle_client_connection utf8_decode os_makedirs).
Proof.
  unfold _handle_client_connection.
  apply respects_bind.
  - apply respects_try.
    + apply respects_bind; [apply respects_handshake|]. intros [[n f] d].
      apply respects_bind; [apply respects_makedirs|]. intros _.
      apply respects_bind; [apply respects_receive_image|]. intros c.
      apply respects_ret.
    + intros e.
      apply respects_bind; [apply respects_log | intros; apply respects_ret].
  - intros r.
    apply respects_bind; [apply respects_log | intros; apply respects_ret].
Qed.

(** X1. On connections where no timeout or error occurs, what the
    handler returns, what it logs and which bytes it leaves unread
    depend only on the byte stream the peer sent, not on how the network
    cut it into segments; this for any decoder and any file system. *)
Theorem handler_ignores_segmentation (utf8_decode : bytes -> option string)
    (os_makedirs : folder -> option exn)
    (s1 s2 : socket) (lg : list log_event) :
  clean s1 = true -> clean s2 = true -> stream s1 = stream s2 ->
  let out1 := _handle_client_connection utf8_decode os_makedirs (World s1 lg) in
  let out2 := _handle_client_connection utf8_decode os_makedirs (World s2 lg) in
  out1.1 = out2.1
  /\ log out1.2 = log out2.2
  /\ stream (conn out1.2) = stream (conn out2.2).
Proof.
  intros H1 H2 H3 out1 out2.
  destruct (respects_handler utf8_decode os_makedirs
              (World s1 lg) (World s2 lg))
    as (Hr & _ & _ & Hs & Hl); [by apply same_stream_refl_log|].
  by repeat split.
Qed.

Lemma handler_ignores_segmentation_witness :
  (_handle_client_connection decode_ascii writable
     (World [Data (sample_stream 11 sample_frame_a)] [])).1
  = (_handle_client_connection decode_ascii writable
       (World [Data (take 60 (sample_stream 11 sample_frame_a));
               Data (drop 60 (sample_stream 11 sample_frame_a))] [])).1.
Proof.
  refine (proj1 (handler_ignores_segmentation decode_ascii writable
                   _ _ [] _ _ _));
    reflexivity.
Defined.

End Segmentation.

(** ** Timeouts and errors during an exact read *)

Module Faults.
Import PyBytes Receiver Wire Streams ExactRead.

Lemma recv_from_faulty s k e :
  first_fault s = Some e -> 0 < k ->
  (stream s = [] -> exists s', recv_from s k = (Raised e, s'))
  /\ (stream s <> [] ->
      exists d s',
        recv_from s k = (Done d, s') /\ d <> []
        /\ (length d <= Z.to_nat k)%nat
        /\ stream s = d ++ stream s' /\ first_fault s' = Some e).
Proof.
  intros Hf Hk. induction s as [|[p|e'] rest IH]; simpl in *; [done| |].
  - destruct p as [|b p]; [by apply IH|]. split; [done|]. intros _.
    exists (take (Z.to_nat k) (b :: p)), (Data (drop (Z.to_nat k) (b :: p)) :: rest).
    split_and!; try done.
    + destruct (Z.to_nat k) eqn:E; [lia | done].
    + rewrite length_take. lia.
    + simpl. by rewrite app_assoc, take_drop.
  - inversion Hf; subst. split; [eauto | done].
Qed.

Lemma recv_all_loop_faulty fuel : forall n data s lg e,
  first_fault s = Some e ->
  (Z.to_nat (n - len data) < fuel)%nat ->
  (len data + len (stream s) < n ->
     exists s', recv_all_loop fuel n data (World s lg)
                = (Raised e, World s' lg))
  /\ (n <= len data + len (stream s) ->
      exists s',
        recv_all_loop fuel n data (World s lg)
        = (Done (Some (data ++ take (Z.to_nat (n - len data)) (stream s))),
           World s' lg)
        /\ stream s' = drop (Z.to_nat (n - len data)) (stream s)
        /\ first_fault s' = Some e).
Proof.
  induction fuel as [|fuel IH]; intros n data s lg e Hf Hfuel; [lia|].
  simpl. destruct (Z.ltb_spec (len data) n) as [Hlt|Hge].
  - unfold bind, recv; simpl.
    destruct (recv_from_faulty s (n - len data) e Hf ltac:(lia)) as [Hnil Hsome].
    destruct (stream s) as [|b0 st0] eqn:Es.
    + destruct Hnil as (s' & ->); [done|]. split; [eauto|].
      intros Hn. unfold len in *. simpl in *. lia.
    + destruct Hsome as (d & s1 & -> & Hd & Hdl & Hs & Hf1); [done|].
      destruct d as [|b d]; [done|].
      assert (Hfuel' : (Z.to_nat (n - len (data ++ b :: d)) < fuel)%nat).
      { unfold len in *. rewrite length_app. simpl in *. lia. }
      destruct (IH n (data ++ b :: d) s1 lg e Hf1 Hfuel') as [IHa IHb].
      assert (Hlen : len (data ++ b :: d) + len (stream s1)
                     = len data + len (b0 :: st0)).
      { rewrite Hs. unfold len. rewrite !length_app. lia. }
      split.
      * intros Hn. apply IHa. lia.
      * intros Hn. destruct IHb as (s' & -> & Hs' & Hf'); [lia|].
        exists s'. split_and!; [|  | done].
        -- do 2 f_equal. rewrite <- app_assoc. f_equal. rewrite Hs.
           replace (Z.to_nat (n - len data))
             with (length (b :: d) + Z.to_nat (n - len (data ++ b :: d)))%nat.
           ++ by rewrite take_app_add.
           ++ unfold len in *. rewrite length_app. simpl in *. lia.
        -- rewrite Hs', Hs.
           replace (Z.to_nat (n - len data))
             with (length (b :: d) + Z.to_nat (n - len (data ++ b :: d)))%nat.
           ++ by rewrite drop_app_add.
           ++ unfold len in *. rewrite length_app. simpl in *. lia.
  - split; [unfold len in *; lia|].
    intros _. exists s. unfold ret.
    replace (Z.to_nat (n - len data)) with O by lia.
    by rewrite take_0, drop_0, app_nil_r.
Qed.

(** X2. When a timeout or a socket error is due on the connection,
    [_recv_all] raises it exactly when it comes before the [n]-th byte:
    the bytes read so far are lost with the exception. When [n] bytes
    arrive first, they are returned and the fault stays ahead. *)
Theorem recv_all_fault (n : Z) (s : socket) (lg : list log_event) (e : exn) :
  first_fault s = Some e -> 0 <= n ->
  (len (stream s) < n ->
     exists s', _recv_all n (World s lg) = (Raised e, World s' lg))
  /\ (n <= len (stream s) ->
      exists s',
        _recv_all n (World s lg)
        = (Done (Some (take (Z.to_nat n) (stream s))), World s' lg)
        /\ stream s' = drop (Z.to_nat n) (stream s)
        /\ first_fault s' = Some e).
Proof.
  intros Hf Hn. unfold _recv_all.
  destruct (recv_all_loop_faulty (S (Z.to_nat n)) n [] s lg e Hf) as [Ha Hb].
  { unfold len; simpl; lia. }
  unfold len in *. simpl in *.
  replace (n - Z.of_nat 0) with n in * by lia.
  split; [intros H; apply Ha; lia | intros H; apply Hb; lia].
Qed.

Lemma recv_all_fault_witness :
  exists s',
    _recv_all 4 (World [Data [Byte.x01; Byte.x02]; Fault socket_timeout] [])
    = (Raised socket_timeout, World s' []).
Proof.
  destruct (recv_all_fault 4 [Data [Byte.x01; Byte.x02]; Fault socket_timeout]
              [] socket_timeout) as [H _]; [reflexivity | lia |].
  apply H. reflexivity.
Defined.

End Faults.

(** ** The handshake when the peer gives up or sends bad text *)

Module HandshakeErrors.
Import PyBytes Receiver Wire Streams ExactRead FrameStep FrameLoop Handshake.

Lemma take_nonempty (b : bytes) (k : nat) :
  (0 < k <= length b)%nat -> take k b <> [].
Proof.
  intros Hk E. apply (f_equal length) in E.
  rewrite length_take in E. simpl in E. lia.
Qed.



(** X4. Text that is not valid for the decoder ends the handshake at
    the field that carries it: a bad transmitter name raises the decode
    error with only the 50 bytes of the name read, and the handler logs
    the exception, closes, and returns nothing. *)
Theorem bad_name_stops_handshake (utf8_decode : bytes -> option string)
    (os_makedirs : folder -> option exn)
    (s : socket) (lg : list log_event) :
  clean s = true -> 50 <= len (stream s) ->
  utf8_decode (take 50 (stream s)) = None ->
  exists s',
    handshake utf8_decode os_makedirs (World s lg)
    = (Raised UnicodeDecodeError, World s' lg)
    /\ stream s' = drop 50 (stream s)
    /\ _handle_client_connection utf8_decode os_makedirs (World s lg)
       = (Done None,
          World s' (lg ++ [LogException UnicodeDecodeError; LogClosed])).
Proof.
  intros Hc Hl D.
  destruct (recv_all_enough 50 s lg Hc) as (s1 & E1 & Hc1 & Hs1); [lia|].
  assert (Hh : handshake utf8_decode os_makedirs (World s lg)
               = (Raised UnicodeDecodeError, World s1 lg)).
  { unfold handshake. unfold bind at 1. rewrite E1.
    rewrite falsy_full by (apply take_nonempty; unfold len in *; lia).
    unfold bind at 1. unfold decode.
    change (Z.to_nat 50) with 50%nat in *.
    change (default [] (Some ?x)) with x. by rewrite D. }
  exists s1. split_and!; [done | done |].
  unfold _handle_client_connection. unfold bind at 1. unfold try_except.
  unfold bind at 1. rewrite Hh.
  unfold bind, _log_event, ret. simpl. by rewrite <- app_assoc.
Qed.

Lemma bad_name_stops_handshake_witness :
  exists s',
    _handle_client_connection decode_ascii writable
      (World [Data (replicate 50 Byte.xff ++ sample_rest)] [])
    = (Done None,
       World s' ([] ++ [LogException UnicodeDecodeError; LogClosed])).
Proof.
  destruct (bad_name_stops_handshake decode_ascii writable
              [Data (replicate 50 Byte.xff ++ sample_rest)] [])
    as (s' & _ & _ & H); [reflexivity | vm_compute; discriminate | reflexivity |].
  by exists s'.
Defined.

(** X17. A folder that cannot be created ends the handshake. When
    [os.makedirs] raises on the transmitter's folder (as it does for a
    name with an embedded NUL character), the handler has read the 50
    bytes of the name and nothing more, logs the name, the exception and
    the close, and returns nothing. *)
Theorem folder_error_stops_handshake (utf8_decode : bytes -> option string)
    (os_makedirs : folder -> option exn)
    (s : socket) (lg : list log_event) (n1 : string) (e : exn) :
  clean s = true -> 50 <= len (stream s) ->
  utf8_decode (take 50 (stream s)) = Some n1 ->
  os_makedirs (TransmitterFolder (strip_nul n1)) = Some e ->
  exists s',
    stream s' = drop 50 (stream s)
    /\ _handle_client_connection utf8_decode os_makedirs (World s lg)
       = (Done None,
          World s' (lg ++ [LogTransmitterName (strip_nul n1);
                           LogException e; LogClosed])).
Proof.
  intros Hc Hl D F.
  destruct (recv_all_enough 50 s lg Hc) as (s1 & E1 & Hc1 & Hs1); [lia|].
  exists s1. split; [done|].
  unfold _handle_client_connection. unfold bind at 1. unfold try_except.
  unfold bind at 1. unfold handshake. unfold bind at 1. rewrite E1.
  rewrite falsy_full by (apply take_nonempty; unfold len in *; lia).
  unfold bind at 1. unfold decode.
  change (Z.to_nat 50) with 50%nat in *.
  change (default [] (Some ?x)) with x. rewrite D. unfold ret at 1.
  unfold bind at 1. unfold _log_event at 1. cbn [conn log].
  unfold bind at 1. rewrite (makedirs_raises _ _ _ _ F).
  unfold bind, _log_event, ret. cbn [conn log]. by rewrite <- !app_assoc.
Qed.

Lemma folder_error_stops_handshake_witness :
  exists s',
    stream s' = drop 50 (ljust [Byte.x41; Byte.x00; Byte.x42] 50
                         ++ sample_rest)
    /\ _handle_client_connection decode_ascii refuses_nul
         (World [Data (ljust [Byte.x41; Byte.x00; Byte.x42] 50
                       ++ sample_rest)] [])
       = (Done None,
          World s' ([] ++ [LogTransmitterName
                             (strip_nul (String.string_of_list_ascii
                                (map Ascii.ascii_of_byte
                                   (ljust [Byte.x41; Byte.x00; Byte.x42] 50))));
                           LogException (ValueError "embedded null byte");
                           LogClosed])).
Proof.
  apply (folder_error_stops_handshake decode_ascii refuses_nul
           [Data (ljust [Byte.x41; Byte.x00; Byte.x42] 50 ++ sample_rest)] []
           (String.string_of_list_ascii
              (map Ascii.ascii_of_byte
                 (ljust [Byte.x41; Byte.x00; Byte.x42] 50)))
           (ValueError "embedded null byte"));
    [reflexivity | vm_compute; discriminate | reflexivity
    | vm_compute; reflexivity].
Defined.

End HandshakeErrors.

(** ** The sending side *)

Module Sending.
Import PyBytes Transmitter Sender Payloads.

Lemma outbox_eta o : {| sent := sent o; budget := budget o |} = o.
Proof. by destruct o. Qed.

Lemma send_frames_run frames : forall o,
  send_frames frames o
  = match budget o with
    | None => (Done tt, {| sent := sent o ++ frames; budget := None |})
    | Some b =>
      if decide (length frames <= b)%nat
      then (Done tt, {| sent := sent o ++ frames;
                        budget := Some (b - length frames)%nat |})
      else (Raised socket_error,
            {| sent := sent o ++ take b frames; budget := Some O |})
    end.
Proof.
  induction frames as [|f frames IH]; intros [st bd]; cbn [sent budget].
  - cbn [send_frames]. unfold ret. rewrite app_nil_r.
    destruct bd as [b|]; [|done].
    rewrite decide_True by (simpl; lia). simpl. by rewrite Nat.sub_0_r.
  - cbn [send_frames]. unfold bind, sendall. cbn [sent budget].
    destruct bd as [[|b]|].
    + rewrite decide_False by (simpl; lia). simpl. by rewrite app_nil_r.
    + rewrite IH. cbn [sent budget]. rewrite <- !app_assoc. simpl.
      destruct (decide (length frames <= b)%nat).
      * by rewrite decide_True by lia.
      * by rewrite decide_False by lia.
    + rewrite IH. cbn [sent budget]. by rewrite <- app_assoc.
Qed.

(** X5. Once the frames are generated, a transmission never lets an
    exception out and puts on the wire a prefix of: name, file name,
    frame size, frames in index order. It sends as many payloads as the
    connection lets through, nothing when the receiver cannot be
    reached, and reports success exactly when all of them were sent. *)
Theorem transmission_sends_prefix (reachable : bool) (name filename : bytes)
    (C : Z) (file : bytes) (frame_size T : Z) (frames : list bytes)
    (size : bytes) (o : outbox) :
  generate_frames C file frame_size = Done (Some (T, frames)) ->
  to_bytes frame_size 4 = Done size ->
  exists b',
    _send_data_task reachable name filename C file frame_size o
    = (Done (bool_decide
               (deliverable reachable (budget o) (3 + length frames)
                = (3 + length frames)%nat)),
       {| sent := sent o
                  ++ take (deliverable reachable (budget o)
                             (3 + length frames))
                          (wire_messages name filename size frames);
          budget := b' |}).
Proof.
  intros Hg Hs. unfold _send_data_task. unfold bind at 1. unfold lift at 1.
  rewrite Hg. unfold try_except at 1. unfold bind at 1.
  destruct reachable; unfold connect_to_receiver, deliverable.
  2:{ unfold ret. simpl. rewrite app_nil_r. exists (budget o).
      by rewrite outbox_eta. }
  destruct o as [st [[|[|[|b]]]|]]; cbn [sent budget].
  - eexists. unfold try_except, bind, sendall, ret. simpl.
    by rewrite app_nil_r.
  - eexists. unfold try_except, bind, sendall, ret. simpl. reflexivity.
  - eexists. unfold try_except, bind, sendall, ret, lift. simpl.
    rewrite Hs. simpl. by rewrite <- app_assoc.
  - unfold try_except at 1. unfold bind at 1. unfold sendall at 1.
    cbn [sent budget]. unfold ret at 1. unfold negb.
    unfold bind at 1. unfold sendall at 1. cbn [sent budget].
    unfold bind at 1. unfold lift at 1. rewrite Hs.
    unfold bind at 1. unfold sendall at 1. cbn [sent budget].
    unfold bind at 1. rewrite send_frames_run. cbn [sent budget].
    unfold wire_messages. rewrite <- !app_assoc.
    destruct (decide (length frames <= b)%nat).
    + eexists. unfold ret. rewrite bool_decide_eq_true_2 by lia.
      replace (Nat.min (S (S (S b))) (3 + length frames))
        with (3 + length frames)%nat by lia.
      simpl. rewrite firstn_all. reflexivity.
    + eexists. unfold ret. rewrite bool_decide_eq_false_2 by lia.
      replace (Nat.min (S (S (S b))) (3 + length frames))
        with (3 + b)%nat by lia.
      simpl. reflexivity.
  - unfold try_except at 1. unfold bind at 1. unfold sendall at 1.
    cbn [sent budget]. unfold ret at 1. unfold negb.
    unfold bind at 1. unfold sendall at 1. cbn [sent budget].
    unfold bind at 1. unfold lift at 1. rewrite Hs.
    unfold bind at 1. unfold sendall at 1. cbn [sent budget].
    unfold bind at 1. rewrite send_frames_run. cbn [sent budget].
    unfold wire_messages. rewrite <- !app_assoc.
    eexists. unfold ret. rewrite bool_decide_eq_true_2 by lia.
    simpl. rewrite firstn_all. reflexivity.
Qed.

Lemma transmission_sends_prefix_witness :
  exists b',
    _send_data_task true [Byte.x41] [Byte.x42] 4
      [Byte.x41; Byte.x42; Byte.x43] 12 {| sent := []; budget := Some 4%nat |}
    = (Done false,
       {| sent := take 4 (wire_messages [Byte.x41] [Byte.x42]
                            (be_digits 4 12)
                            (Wire.produced 4 2 2 [Byte.x41; Byte.x42; Byte.x43]));
          budget := b' |}).
Proof.
  destruct (transmission_sends_prefix true [Byte.x41] [Byte.x42] 4
              [Byte.x41; Byte.x42; Byte.x43] 12 2
              (Wire.produced 4 2 2 [Byte.x41; Byte.x42; Byte.x43])
              (be_digits 4 12) {| sent := []; budget := Some 4%nat |})
    as (b' & H); [reflexivity | reflexivity |].
  exists b'. exact H.
Defined.

(** X10. A transmission that does not start. With a frame size that
    leaves no room for a payload the task gives up before it connects;
    with a file of more than 65535 chunks the overflow of the frame
    header is raised before the [try] and leaves the task uncaught. In
    both cases nothing is sent, whether the receiver can be reached or
    not. *)
Theorem transmission_not_started (reachable : bool) (name filename : bytes)
    (C : Z) (file : bytes) (frame_size : Z) (o : outbox) :
  (frame_size <= header_size ->
     _send_data_task reachable name filename C file frame_size o
     = (Done false, o))
  /\ (1 <= C -> header_size < frame_size ->
      65535 < Wire.frame_count file (frame_size - header_size) ->
      _send_data_task reachable name filename C file frame_size o
      = (Raised OverflowError, o)).
Proof.
  split.
  - intros H. unfold _send_data_task, bind, lift.
    by rewrite Splitter.generate_frames_config_error by lia.
  - intros HC H Ht. unfold _send_data_task, bind, lift.
    by rewrite Splitter.generate_frames_overflow by lia.
Qed.

Lemma transmission_not_started_witness :
  _send_data_task true [Byte.x41] [Byte.x42] 20 [Byte.x41] 10 reliable
  = (Done false, reliable).
Proof.
  destruct (transmission_not_started true [Byte.x41] [Byte.x42] 20
              [Byte.x41] 10 reliable) as [H _].
  apply H. unfold header_size. lia.
Defined.

End Sending.

(** ** From one program to the other *)

Module EndToEnd.
Import PyBytes Transmitter Receiver Wire ExactRead FrameStep Splitter
       FrameLoop Reassembly Handshake Payloads.

Lemma from_bytes_snoc (b : bytes) (x : Byte.byte) :
  from_bytes (b ++ [x]) = from_bytes b * 256 + byte_val x.
Proof. unfold from_bytes. by rewrite foldl_snoc. Qed.

Lemma from_bytes_be_digits (n : nat) : forall v,
  from_bytes (be_digits n v) = v mod 256 ^ Z.of_nat n.
Proof.
  induction n as [|n IH]; intros v.
  - simpl. by rewrite Z.mod_1_r.
  - cbn [be_digits]. rewrite from_bytes_snoc, IH, byte_val_of_Z.
    rewrite Nat2Z.inj_succ, Z.pow_succ_r by lia.
    rewrite (Z.rem_mul_r v 256 (256 ^ Z.of_nat n)) by lia. lia.
Qed.

Lemma length_be_digits (n : nat) : forall v, length (be_digits n v) = n.
Proof.
  induction n as [|n IH]; intros v; [done|].
  cbn [be_digits]. rewrite length_app, IH. simpl. lia.
Qed.

Lemma to_bytes_inv (v : Z) (n : nat) (b : bytes) :
  to_bytes v n = Done b ->
  0 <= v < 256 ^ Z.of_nat n /\ length b = n /\ from_bytes b = v.
Proof.
  unfold to_bytes. intros H.
  destruct (Z.leb_spec 0 v); [|done].
  destruct (Z.ltb_spec v (256 ^ Z.of_nat n)); [|done].
  simpl in H. injection H as <-.
  split; [lia|]. split; [apply length_be_digits|].
  rewrite from_bytes_be_digits. apply Z.mod_small. lia.
Qed.

Lemma len_ljust (b : bytes) (w : Z) : len (ljust b w) = Z.max w (len b).
Proof.
  unfold ljust, len. rewrite length_app, length_zeros. unfold len. lia.
Qed.

Lemma handshake_bytes_inv (name filename : bytes) (v : Z) (hb : bytes) :
  handshake_bytes name filename v = Done hb ->
  exists size,
    to_bytes v 4 = Done size
    /\ hb = ljust name 50 ++ ljust filename 100 ++ size.
Proof.
  unfold handshake_bytes. destruct (to_bytes v 4) as [size| |]; [|done|done].
  simpl. intros [= <-]. by exists size.
Qed.

Lemma handler_after_handshake utf8_decode os_makedirs w n f d w1 c :
  handshake utf8_decode os_makedirs w = (Done (n, f, d), w1) ->
  os_makedirs (RawFramesFolder n f) = None ->
  (receive_image d w1).1 = Done c ->
  (_handle_client_connection utf8_decode os_makedirs w).1
  = Done (option_map (fun b => (n, b)) c).
Proof.
  intros Hh Hf Hr. unfold _handle_client_connection.
  unfold bind at 1. unfold try_except. unfold bind at 1. rewrite Hh.
  unfold bind at 1. rewrite (makedirs_ok _ _ _ Hf).
  unfold bind at 1. destruct (receive_image d w1) as [r w2].
  simpl in Hr. subst r. reflexivity.
Qed.

(** X6. The handshake the transmitter writes is the handshake the
    receiver reads: for a name of at most 50 bytes, a file name of at
    most 100 and a frame size that fits in four bytes, when the folders
    of the transmitter can be created, the receiver recovers the frame
    size sent, logs both names, and stops reading at the first byte
    after the handshake. The frame size 0 is the only one it rejects. *)
Theorem handshake_round_trip (utf8_decode : bytes -> option string)
    (os_makedirs : folder -> option exn)
    (name filename : bytes) (frame_size : Z) (hb rest : bytes)
    (s : socket) (lg : list log_event) (n1 n2 : string) :
  len name <= 50 -> len filename <= 100 ->
  handshake_bytes name filename frame_size = Done hb ->
  utf8_decode (ljust name 50) = Some n1 ->
  utf8_decode (ljust filename 100) = Some n2 ->
  folders_ok os_makedirs (strip_nul n1) ->
  clean s = true -> stream s = hb ++ rest ->
  exists s',
    stream s' = rest
    /\ handshake utf8_decode os_makedirs (World s lg)
       = if frame_size =? 0
         then (Raised (ValueError "Invalid data size received: 0"),
               World s' (lg ++ [LogTransmitterName (strip_nul n1);
                                LogFilename (strip_nul n2)]))
         else (Done (strip_nul n1, strip_nul n2, frame_size),
               World s' (lg ++ [LogTransmitterName (strip_nul n1);
                                LogFilename (strip_nul n2);
                                LogDataSize frame_size])).
Proof.
  intros L1 L2 Hb D1 D2 Hfo Hc Hs.
  apply handshake_bytes_inv in Hb as (size & Hsz & ->).
  apply to_bytes_inv in Hsz as (Hv & Hl & Hf).
  destruct (handshake_guard utf8_decode os_makedirs s lg (ljust name 50)
              (ljust filename 100) size rest n1 n2) as (s' & _ & Hr & Hh);
    try done.
  - by rewrite Hs, <- !app_assoc.
  - pose proof (len_ljust name 50). unfold len in *. lia.
  - pose proof (len_ljust filename 100). unfold len in *. lia.
  - exists s'. split; [done|]. rewrite Hh, Hf.
    destruct (Z.eqb_spec frame_size 0) as [->|Hn]; [done|].
    destruct (Z.leb_spec frame_size 0); [lia | done].
Qed.

Lemma handshake_round_trip_witness :
  exists s',
    stream s' = [Byte.x2a]
    /\ handshake decode_ascii writable
         (World [Data (ljust [Byte.x41] 50 ++ ljust [Byte.x42] 100
                       ++ be_digits 4 60 ++ [Byte.x2a])] [])
       = (Done (strip_nul (String.string_of_list_ascii
                             (map Ascii.ascii_of_byte (ljust [Byte.x41] 50))),
                strip_nul (String.string_of_list_ascii
                             (map Ascii.ascii_of_byte (ljust [Byte.x42] 100))),
                60),
          World s' ([] ++ [LogTransmitterName
                             (strip_nul (String.string_of_list_ascii
                               (map Ascii.ascii_of_byte (ljust [Byte.x41] 50))));
                           LogFilename
                             (strip_nul (String.string_of_list_ascii
                               (map Ascii.ascii_of_byte (ljust [Byte.x42] 100))));
                           LogDataSize 60])).
Proof.
  destruct (handshake_round_trip decode_ascii writable
              [Byte.x41] [Byte.x42] 60
              (ljust [Byte.x41] 50 ++ ljust [Byte.x42] 100 ++ be_digits 4 60)
              [Byte.x2a]
              [Data (ljust [Byte.x41] 50 ++ ljust [Byte.x42] 100
                     ++ be_digits 4 60 ++ [Byte.x2a])] []
              (String.string_of_list_ascii
                 (map Ascii.ascii_of_byte (ljust [Byte.x41] 50)))
              (String.string_of_list_ascii
                 (map Ascii.ascii_of_byte (ljust [Byte.x42] 100))))
    as (s' & Hs & Hh);
    [vm_compute; discriminate | vm_compute; discriminate | reflexivity
    | reflexivity | reflexivity | done | reflexivity | reflexivity |].
  exists s'. split; [exact Hs | exact Hh].
Defined.

Lemma reliable_task_run (name filename : bytes) (C : Z) (file : bytes)
    (frame_size T : Z) (frames : list bytes) (size : bytes) :
  generate_frames C file frame_size = Done (Some (T, frames)) ->
  to_bytes frame_size 4 = Done size ->
  Sender._send_data_task true name filename C file frame_size Sender.reliable
  = (Done true,
     {| Sender.sent := wire_messages name filename size frames;
        Sender.budget := None |}).
Proof.
  intros Hg Hs. unfold Sender._send_data_task.
  unfold Sender.bind at 1. unfold Sender.lift at 1. rewrite Hg.
  unfold Sender.try_except at 1. unfold Sender.bind at 1.
  unfold Sender.connect_to_receiver, Sender.reliable.
  unfold Sender.try_except at 1. unfold Sender.bind at 1.
  unfold Sender.sendall at 1. cbn [Sender.sent Sender.budget].
  unfold Sender.ret at 1. unfold negb.
  unfold Sender.bind at 1. unfold Sender.sendall at 1.
  cbn [Sender.sent Sender.budget].
  unfold Sender.bind at 1. unfold Sender.lift at 1. rewrite Hs.
  unfold Sender.bind at 1. unfold Sender.sendall at 1.
  cbn [Sender.sent Sender.budget].
  unfold Sender.bind at 1. rewrite Sending.send_frames_run.
  cbn [Sender.sent Sender.budget]. reflexivity.
Qed.

(** X7. One transmission over a connection that does not break,
    received by the handler: for a name of at most 50 bytes, a file name
    of at most 100, a non-empty file of at most 65535 chunks and a frame
    size above the header size that fits in four bytes, the transmitter
    reports success, and the handler, when the folders named after the
    transmitter and the file can be created and however the network cuts
    what was sent into segments, returns the transmitter's name with the
    file followed by the padding of its last chunk. *)
Theorem transmit_then_handle (utf8_decode : bytes -> option string)
    (os_makedirs : folder -> option exn)
    (name filename : bytes) (C : Z) (file : bytes) (frame_size : Z)
    (n1 n2 : string) :
  1 <= C -> header_size < frame_size < 2 ^ 32 -> file <> [] ->
  frame_count file (frame_size - header_size) <= 65535 ->
  len name <= 50 -> len filename <= 100 ->
  utf8_decode (ljust name 50) = Some n1 ->
  utf8_decode (ljust filename 100) = Some n2 ->
  folders_ok os_makedirs (strip_nul n1) ->
  os_makedirs (RawFramesFolder (strip_nul n1) (strip_nul n2)) = None ->
  exists o',
    Sender._send_data_task true name filename C file frame_size Sender.reliable
    = (Done true, o')
    /\ forall s lg,
         clean s = true -> stream s = concat (Sender.sent o') ->
         (_handle_client_connection utf8_decode os_makedirs (World s lg)).1
         = Done (Some (strip_nul n1,
                       file ++ zeros (frame_count file (frame_size - header_size)
                                      * (frame_size - header_size)
                                      - len file))).
Proof.
  intros HC Hfs Hne HT L1 L2 D1 D2 Hfo Hraw.
  set (cs := frame_size - header_size) in *.
  set (T := frame_count file cs) in *.
  assert (Hcs : 0 < cs) by (unfold cs; lia).
  pose proof (frame_count_ceiling file cs Hcs) as Hceil.
  pose proof (frame_count_pos file cs Hcs Hne) as Hpos.
  fold T in Hceil, Hpos.
  assert (HT' : 1 <= T <= 65535) by (split; [done | exact HT]).
  assert (Hl : len file <= T * cs) by lia.
  assert (Hsz : to_bytes frame_size 4 = Done (be_digits 4 frame_size)).
  { unfold to_bytes. destruct (Z.leb_spec 0 frame_size);
      [|unfold header_size in *; lia].
    destruct (Z.ltb_spec frame_size (256 ^ Z.of_nat 4)); [done|].
    change (256 ^ Z.of_nat 4) with (2 ^ 32) in *. lia. }
  pose proof (generate_frames_ok C file frame_size HC Hcs HT) as Hg.
  fold cs in Hg. fold T in Hg.
  eexists. split; [by apply (reliable_task_run _ _ _ _ _ _ _ _ Hg Hsz)|].
  intros s lg Hc Hs. cbn [Sender.sent] in Hs. unfold wire_messages in Hs.
  simpl in Hs.
  apply to_bytes_inv in Hsz as (_ & Hl4 & Hfb).
  destruct (handshake_guard utf8_decode os_makedirs s lg (ljust name 50)
              (ljust filename 100) (be_digits 4 frame_size)
              (concat (produced C cs T file)) n1 n2)
    as (s' & Hc' & Hs' & Hh); try done.
  - pose proof (len_ljust name 50). unfold len in *. lia.
  - pose proof (len_ljust filename 100). unfold len in *. lia.
  - rewrite Hfb in Hh.
    destruct (Z.leb_spec frame_size 0); [unfold header_size in *; lia|].
    rewrite (handler_after_handshake _ _ _ _ _ _ _
               (Some (file ++ zeros (T * cs - len file))) Hh Hraw); [done|].
    replace frame_size with (header_size + cs) by (unfold cs; lia).
    by apply (reassemble_any_order C cs T file HC Hcs HT' Hl
                (produced C cs T file)).
Qed.

Lemma transmit_then_handle_witness :
  exists o',
    Sender._send_data_task true [Byte.x41] [Byte.x42] 4
      [Byte.x41; Byte.x42; Byte.x43] 12 Sender.reliable
    = (Done true, o')
    /\ (_handle_client_connection decode_ascii writable
          (World (Data <$> Sender.sent o') [])).1
       = Done (Some (strip_nul (String.string_of_list_ascii
                                  (map Ascii.ascii_of_byte
                                     (ljust [Byte.x41] 50))),
                     [Byte.x41; Byte.x42; Byte.x43] ++ zeros (2 * 2 - 3))).
Proof.
  destruct (transmit_then_handle decode_ascii writable
              [Byte.x41] [Byte.x42] 4
              [Byte.x41; Byte.x42; Byte.x43] 12
              (String.string_of_list_ascii
                 (map Ascii.ascii_of_byte (ljust [Byte.x41] 50)))
              (String.string_of_list_ascii
                 (map Ascii.ascii_of_byte (ljust [Byte.x42] 100))))
    as (o' & Ht & Hr);
    [lia | unfold header_size; lia | discriminate | vm_compute; discriminate
    | vm_compute; discriminate | vm_compute; discriminate
    | reflexivity | reflexivity | done | reflexivity |].
  exists o'. split; [exact Ht|].
  injection Ht as <-.
  apply Hr; reflexivity.
Defined.

Lemma handler_after_image utf8_decode os_makedirs w n f d w1 c w2 :
  handshake utf8_decode os_makedirs w = (Done (n, f, d), w1) ->
  os_makedirs (RawFramesFolder n f) = None ->
  receive_image d w1 = (Done c, w2) ->
  _handle_client_connection utf8_decode os_makedirs w
  = (Done (option_map (fun b => (n, b)) c),
     World (conn w2) (log w2 ++ [LogClosed])).
Proof.
  intros Hh Hf Hr. unfold _handle_client_connection.
  unfold bind at 1. unfold try_except. unfold bind at 1. rewrite Hh.
  unfold bind at 1. rewrite (makedirs_ok _ _ _ Hf).
  unfold bind at 1. rewrite Hr. reflexivity.
Qed.

Lemma frame_count_empty cs : 0 < cs -> frame_count [] cs = 0.
Proof.
  intros H. unfold frame_count, len. simpl. apply Z.div_small. lia.
Qed.

(** X11. An empty file. The transmitter sends the handshake and no
    frame and reports the transmission complete; the handler that
    receives what was sent, when the folders named after the
    transmitter and the file can be created, reads the handshake, finds
    the connection closed, and reports an incomplete transfer of which
    it expected -1 frames and got 0: it returns nothing. *)
Theorem empty_file_transfer (utf8_decode : bytes -> option string)
    (os_makedirs : folder -> option exn)
    (name filename : bytes) (C frame_size : Z) (n1 n2 : string) :
  1 <= C -> header_size < frame_size < 2 ^ 32 ->
  len name <= 50 -> len filename <= 100 ->
  utf8_decode (ljust name 50) = Some n1 ->
  utf8_decode (ljust filename 100) = Some n2 ->
  folders_ok os_makedirs (strip_nul n1) ->
  os_makedirs (RawFramesFolder (strip_nul n1) (strip_nul n2)) = None ->
  exists o',
    Sender._send_data_task true name filename C [] frame_size Sender.reliable
    = (Done true, o')
    /\ length (Sender.sent o') = 3%nat
    /\ forall s lg,
         clean s = true -> stream s = concat (Sender.sent o') ->
         exists s',
           _handle_client_connection utf8_decode os_makedirs (World s lg)
           = (Done None,
              World s' (lg ++ [LogTransmitterName (strip_nul n1);
                               LogFilename (strip_nul n2);
                               LogDataSize frame_size;
                               LogDisconnected;
                               LogIncomplete (-1) 0;
                               LogClosed])).
Proof.
  intros HC Hfs L1 L2 D1 D2 Hfo Hraw.
  assert (Hcs : 0 < frame_size - header_size) by lia.
  assert (Hsz : to_bytes frame_size 4 = Done (be_digits 4 frame_size)).
  { unfold to_bytes. destruct (Z.leb_spec 0 frame_size);
      [|unfold header_size in *; lia].
    destruct (Z.ltb_spec frame_size (256 ^ Z.of_nat 4)); [done|].
    change (256 ^ Z.of_nat 4) with (2 ^ 32) in *. lia. }
  pose proof (generate_frames_ok C [] frame_size HC Hcs) as Hg.
  rewrite frame_count_empty in Hg by done.
  specialize (Hg ltac:(lia)). change (seqZ 0 0) with (@nil Z) in Hg.
  simpl in Hg.
  eexists. split; [by apply (reliable_task_run _ _ _ _ _ _ _ _ Hg Hsz)|].
  split; [done|].
  intros s lg Hc Hs. cbn [Sender.sent] in Hs. unfold wire_messages in Hs.
  simpl in Hs.
  apply to_bytes_inv in Hsz as (_ & Hl4 & Hfb).
  destruct (handshake_guard utf8_decode os_makedirs s lg (ljust name 50)
              (ljust filename 100) (be_digits 4 frame_size) [] n1 n2)
    as (s1 & Hc1 & Hs1 & Hh); try done.
  - pose proof (len_ljust name 50). unfold len in *. lia.
  - pose proof (len_ljust filename 100). unfold len in *. lia.
  - rewrite Hfb in Hh.
    destruct (Z.leb_spec frame_size 0); [unfold header_size in *; lia|].
    destruct (receive_frames_frames frame_size
                ltac:(unfold header_size in *; lia) [] new_session s1
                (lg ++ [LogTransmitterName (strip_nul n1);
                        LogFilename (strip_nul n2); LogDataSize frame_size])
                Hc1 Hs1) as (s2 & Hrun); [done|].
    exists s2.
    rewrite (handler_after_image _ _ _ _ _ _ _ None
               (World s2 (lg ++ [LogTransmitterName (strip_nul n1);
                                 LogFilename (strip_nul n2);
                                 LogDataSize frame_size;
                                 LogDisconnected; LogIncomplete (-1) 0]))
               Hh Hraw).
    + cbn [conn log]. by rewrite <- app_assoc.
    + unfold receive_image, bind. rewrite Hrun. cbn [run_frames fst snd].
      rewrite reconstruct_incomplete by (by left).
      cbn [conn log new_session total_frames_expected total_frames_received].
      by rewrite <- !app_assoc.
Qed.

Lemma empty_file_transfer_witness :
  exists o',
    Sender._send_data_task true [Byte.x41] [Byte.x42] 20 [] 60 Sender.reliable
    = (Done true, o')
    /\ length (Sender.sent o') = 3%nat.
Proof.
  destruct (empty_file_transfer decode_ascii writable
              [Byte.x41] [Byte.x42] 20 60
              (String.string_of_list_ascii
                 (map Ascii.ascii_of_byte (ljust [Byte.x41] 50)))
              (String.string_of_list_ascii
                 (map Ascii.ascii_of_byte (ljust [Byte.x42] 100))))
    as (o' & Ht & Hl & _);
    [lia | unfold header_size; lia | vm_compute; discriminate
    | vm_compute; discriminate | reflexivity | reflexivity | done
    | reflexivity |].
  exists o'. split; [exact Ht | exact Hl].
Defined.

End EndToEnd.

(** ** What follows a complete image on the connection *)

Module Trailing.
Import PyBytes Transmitter Receiver Wire Streams ExactRead FrameStep Splitter
       FrameLoop Reassembly.

(** The loop on whole frames followed by anything: when one of the
    frames completes the transfer, the loop stops there. *)
Lemma receive_loop_prefix n (Hn : 0 < n) rest : forall fs fuel st s lg,
  clean s = true -> stream s = concat fs ++ rest ->
  Forall (fun f => len f = n) fs ->
  ends_complete st fs = true ->
  (length fs < fuel)%nat ->
  exists s',
    receive_loop fuel n st (World s lg)
    = (Done (run_frames st fs).1, World s' (lg ++ (run_frames st fs).2))
    /\ clean s' = true
    /\ stream s' = concat (drop (consumed st fs) fs) ++ rest.
Proof.
  induction fs as [|f fs IH]; intros fuel st s lg Hc Hs Hall He Hf;
    [done|].
  destruct fuel as [|fuel]; [simpl in Hf; lia|].
  apply Forall_cons in Hall as [Hlen Hall].
  simpl in Hs. rewrite <- app_assoc in Hs.
  cbn [receive_loop]. unfold bind at 1.
  destruct (recv_all_enough n s lg Hc) as (s' & -> & Hc' & Hs').
  { rewrite Hs. unfold len in *. rewrite length_app. lia. }
  assert (Htake : take (Z.to_nat n) (stream s) = f).
  { rewrite Hs. apply take_app_length'. unfold len in *. lia. }
  assert (Hdrop : stream s' = concat fs ++ rest).
  { rewrite Hs', Hs. apply drop_app_length'. unfold len in *. lia. }
  rewrite Htake.
  destruct f as [|b bs]; [unfold len in *; simpl in *; lia|].
  unfold bind at 1. rewrite process_frame_eq. cbn [conn log].
  cbn [run_frames ends_complete consumed] in *.
  fold (complete (next_session st (b :: bs))).
  destruct (complete (next_session st (b :: bs))).
  - exists s'. unfold bind, _log_event, ret. cbn [conn log fst snd].
    rewrite <- app_assoc. split_and!; [done | done |].
    exact Hdrop.
  - destruct (IH fuel (next_session st (b :: bs)) s'
                (lg ++ frame_events st (b :: bs)) Hc' Hdrop Hall He)
      as (s'' & -> & Hc'' & Hs''); [simpl in Hf; lia|].
    exists s''. cbn [fst snd]. rewrite <- app_assoc.
    split_and!; [done | done |]. exact Hs''.
Qed.

(** Frames at distinct positions that fill the buffer up to the
    announced total: the last of them completes the transfer. *)
Lemma ends_complete_full T fs : forall st,
  agree T fs -> NoDup (key_of <$> fs) ->
  (forall f, f ∈ fs -> frame_grid st !! key_of f = None) ->
  total_frames_expected st = -1 \/ total_frames_expected st = T ->
  Z.of_nat (size (frame_grid st)) + Z.of_nat (length fs) = T ->
  fs <> [] ->
  ends_complete st fs = true /\ consumed st fs = length fs.
Proof.
  induction fs as [|f fs IH]; intros st Hag Hnd Hfresh Hexp Hsz Hne; [done|].
  apply Forall_cons in Hag as [Hf Hag].
  rewrite fmap_cons in Hnd. apply NoDup_cons in Hnd as [Hk Hnd].
  assert (Hn : total_frames_expected (next_session st f) = T).
  { rewrite next_expected.
    destruct (Z.eqb_spec (total_frames_expected st) (-1)); [done|].
    by destruct Hexp. }
  assert (Hs1 : size (frame_grid (next_session st f))
                = S (size (frame_grid st))).
  { rewrite next_grid. apply map_size_insert_None, Hfresh. by left. }
  cbn [ends_complete consumed]. unfold complete.
  rewrite next_received, Hn, Hs1.
  destruct (Z.eqb_spec (Z.of_nat (S (size (frame_grid st)))) T) as [E|E].
  - destruct fs; [done | simpl in Hsz; lia].
  - destruct fs as [|g fs]; [simpl in Hsz; lia|].
    destruct (IH (next_session st f)) as [-> ->]; auto.
    + intros h Hh. rewrite next_grid, lookup_insert_ne.
      * apply Hfresh. by right.
      * intros E'. apply Hk. change (key_of f = key_of h) in E'.
        rewrite E'. by apply list_elem_of_fmap_2.
    + rewrite Hs1. simpl in Hsz. simpl. lia.
Qed.

(** X8. The handler takes one image from a connection: once the frames
    of a transfer have arrived, in any order, the image is reassembled
    and whatever the peer sent after them is left unread. *)
Theorem bytes_after_image_unread (C cs T : Z) (file : bytes)
    (fs : list bytes) (rest : bytes) (s : socket) (lg : list log_event) :
  1 <= C -> 0 < cs -> 1 <= T <= 65535 -> len file <= T * cs ->
  fs ≡ₚ produced C cs T file ->
  clean s = true -> stream s = concat fs ++ rest ->
  exists s' lg',
    receive_image (header_size + cs) (World s lg)
    = (Done (Some (file ++ zeros (T * cs - len file))), World s' lg')
    /\ stream s' = rest.
Proof.
  intros HC Hcs HT Hlen Hp Hc Hs.
  assert (Hag : agree T fs).
  { unfold agree. rewrite Hp. apply produced_agree; lia. }
  assert (Hnd : NoDup (key_of <$> fs)).
  { rewrite Hp. apply produced_NoDup; lia. }
  assert (Hl : Z.of_nat (length fs) = T).
  { rewrite Hp. apply produced_length. lia. }
  assert (Hne : fs <> []) by (destruct fs; [simpl in Hl; lia | done]).
  assert (Hall : Forall (fun f => len f = header_size + cs) fs).
  { rewrite Hp. apply produced_len; lia. }
  destruct (ends_complete_full T fs new_session) as [He Hcons]; try done.
  { by left. }
  destruct (receive_loop_prefix (header_size + cs)
              ltac:(unfold header_size; lia) rest fs
              (S (pending s)) new_session s lg Hc Hs Hall He)
    as (s' & Hrun & Hc' & Hs').
  { rewrite pending_clean, Hs, length_app by done.
    assert (length fs <= length (concat fs))%nat; [|lia].
    clear -Hall Hcs. induction Hall as [|f fs Hlen _ IH]; simpl; [lia|].
    rewrite length_app. unfold len, header_size in *. lia. }
  rewrite Hcons, drop_all in Hs'. simpl in Hs'.
  destruct (feed_any_order C cs T file HC Hcs HT fs Hp) as [Hst _].
  rewrite Hst in Hrun.
  destruct (Segmentation.reconstruct_shape (feed new_session (produced C cs T file)))
    as (r & evs & Hrec).
  pose proof (reconstruct_produced C cs T file HC Hcs HT Hlen
                (World s' (lg ++ (run_frames new_session fs).2))) as Hr.
  rewrite Hrec in Hr. cbn [fst] in Hr. injection Hr as ->.
  do 2 eexists. split; [|exact Hs'].
  unfold receive_image, bind, receive_frames. cbn [conn].
  rewrite Hrun, Hrec. reflexivity.
Qed.

Lemma bytes_after_image_unread_witness :
  exists s' lg',
    receive_image (header_size + 2)
      (World [Data (concat (produced 4 2 2 [Byte.x41; Byte.x42; Byte.x43])
                    ++ [Byte.x2a; Byte.x2a])] [])
    = (Done (Some ([Byte.x41; Byte.x42; Byte.x43] ++ zeros (2 * 2 - 3))),
       World s' lg')
    /\ stream s' = [Byte.x2a; Byte.x2a].
Proof.
  apply (bytes_after_image_unread 4 2 2 [Byte.x41; Byte.x42; Byte.x43]
           (produced 4 2 2 [Byte.x41; Byte.x42; Byte.x43]));
    [lia | lia | lia | vm_compute; discriminate | reflexivity | reflexivity|].
  vm_compute. reflexivity.
Defined.

End Trailing.

(** ** What a complete transfer logs *)

Module TransferLog.
Import PyBytes Transmitter Receiver Wire ExactRead FrameStep Splitter
       FrameLoop Reassembly Gaps.

Lemma flat_map_all_nil {A B} (f : A -> list B) (l : list A) :
  Forall (fun x => f x = []) l -> flat_map f l = [].
Proof. induction 1 as [|x l Hx _ IH]; simpl; [done | by rewrite Hx, IH]. Qed.

Lemma row_missing_present grid r cs :
  Forall (fun c => is_Some (grid !! (r, c))) cs -> row_missing grid r cs = [].
Proof.
  intros H. unfold row_missing. apply flat_map_all_nil.
  eapply Forall_impl; [exact H|]. by intros c [ch ->].
Qed.

Lemma row_missing_absent grid r cs :
  Forall (fun c => grid !! (r, c) = None) cs ->
  row_missing grid r cs = LogMissingChunk r <$> cs.
Proof.
  induction 1 as [|c cs Hc _ IH]; [done|].
  unfold row_missing in *. simpl. by rewrite Hc, IH.
Qed.

Section Gaps.
Variables (C cs T : Z) (file : bytes).
Hypothesis HC : 1 <= C.
Hypothesis Hcs : 0 < cs.
Hypothesis HT : 1 <= T <= 65535.

Lemma last_row_bounds :
  0 <= (T - 1) / C /\ (T - 1) / C * C <= T - 1 < (T - 1) / C * C + C.
Proof.
  pose proof (Z.div_pos (T - 1) C ltac:(lia) ltac:(lia)).
  pose proof (Z.mul_div_le (T - 1) C ltac:(lia)).
  pose proof (Z.mul_succ_div_gt (T - 1) C ltac:(lia)).
  lia.
Qed.

Lemma grid_missing_produced :
  grid_missing (frame_grid (feed new_session (produced C cs T file)))
    ((T - 1) / C) (Z.min (T - 1) (C - 1))
  = last_row_gaps C T.
Proof.
  destruct last_row_bounds as (HR0 & HR1 & HR2).
  set (R := (T - 1) / C) in *.
  unfold grid_missing, last_row_gaps. fold R.
  set (grid := frame_grid (feed new_session (produced C cs T file))).
  set (b := if T <=? C then 0 else (R + 1) * C - T).
  assert (Hb : 0 <= b /\ Z.min (T - 1) (C - 1) + 1 = (T - R * C) + b).
  { unfold b. destruct (Z.leb_spec T C) as [Hle|Hgt].
    - assert (R = 0) by (unfold R; apply Z.div_small; lia). lia.
    - lia. }
  destruct Hb as [Hb0 Hb1].
  replace (R + 1) with (R + 1)%Z by done.
  rewrite (seqZ_app 0 R 1) by lia. rewrite flat_map_app.
  rewrite flat_map_all_nil.
  2:{ apply Forall_forall. intros r Hr%elem_of_seqZ.
      apply row_missing_present, Forall_forall. intros c Hc%elem_of_seqZ.
      unfold grid. rewrite produced_grid by lia.
      destruct (Z.ltb_spec (r * C + c) T); [done | nia]. }
  change (seqZ (0 + R) 1) with [0 + R]. cbn [flat_map].
  rewrite Z.add_0_l, app_nil_l, app_nil_r, Hb1.
  rewrite (seqZ_app 0 (T - R * C) b) by lia.
  unfold row_missing at 1. rewrite flat_map_app.
  fold (row_missing grid R (seqZ 0 (T - R * C))).
  fold (row_missing grid R (seqZ (0 + (T - R * C)) b)).
  rewrite row_missing_present, row_missing_absent; [done | |].
  - apply Forall_forall. intros c Hc%elem_of_seqZ.
    unfold grid. rewrite produced_grid by lia.
    destruct (Z.ltb_spec (R * C + c) T); [lia | done].
  - apply Forall_forall. intros c Hc%elem_of_seqZ.
    unfold grid. rewrite produced_grid by lia.
    destruct (Z.ltb_spec (R * C + c) T); [done | lia].
Qed.
End Gaps.

(** X9. The log of a complete transfer. The frames of the splitter,
    arriving in any order, are logged one by one, then the completion;
    the reconstruction then reports as missing every position of the
    last row past the last frame. A transfer whose frames fit one row,
    or fill their last row, logs no such report; any other logs
    [(R + 1) * C - T] of them although no frame is missing. *)
Theorem complete_transfer_log (C cs T : Z) (file : bytes)
    (fs : list bytes) (s : socket) (lg : list log_event) :
  1 <= C -> 0 < cs -> 1 <= T <= 65535 -> len file <= T * cs ->
  fs ≡ₚ produced C cs T file ->
  clean s = true -> stream s = concat fs ->
  exists s',
    receive_image (header_size + cs) (World s lg)
    = (Done (Some (file ++ zeros (T * cs - len file))),
       World s' (lg ++ feed_events new_session fs
                    ++ [LogAllReceived T] ++ last_row_gaps C T)).
Proof.
  intros HC Hcs HT Hlen Hp Hc Hs.
  destruct (receive_frames_frames (header_size + cs)
              ltac:(unfold header_size; lia) fs new_session s lg Hc Hs)
    as (s' & Hrun).
  { rewrite Hp. apply produced_len; lia. }
  destruct (feed_any_order C cs T file HC Hcs HT fs Hp) as [Hst Hlog].
  rewrite Hst, Hlog in Hrun.
  set (st := feed new_session (produced C cs T file)) in *.
  assert (Hne : produced C cs T file <> []).
  { intros E. pose proof (produced_length C cs T file ltac:(lia)) as Hl.
    rewrite E in Hl. simpl in Hl. lia. }
  assert (Hexp : total_frames_expected st = T).
  { apply feed_expected; [apply produced_agree; lia | done | by left]. }
  assert (Hrec : total_frames_received st = T).
  { unfold st. rewrite feed_received by done.
    rewrite feed_size; [| apply produced_NoDup; lia | done].
    rewrite new_session_size, Nat.add_0_l. apply produced_length. lia. }
  destruct (produced_extent C cs T file (Z.to_nat T) HC ltac:(lia))
    as [Hr Hcol].
  rewrite Z2Nat.id in Hr, Hcol by lia.
  fold (produced C cs T file) in Hr, Hcol. fold st in Hr, Hcol.
  pose proof (reconstruct_produced C cs T file HC Hcs HT Hlen
                (World s' ((lg ++ feed_events new_session fs
                            ++ [LogAllReceived T]))) ) as Hbytes.
  fold st in Hbytes.
  rewrite reconstruct_complete in Hbytes by lia. cbn [fst] in Hbytes.
  exists s'. unfold receive_image, bind. rewrite Hrun.
  rewrite reconstruct_complete by lia. cbn [conn log].
  rewrite Hr, Hcol in *. unfold st at 2.
  rewrite grid_missing_produced by done.
  injection Hbytes as ->. by rewrite <- !app_assoc.
Qed.

Lemma complete_transfer_log_witness :
  exists s',
    receive_image (header_size + 2)
      (World [Data (concat (produced 4 2 6 twelve_bytes))] [])
    = (Done (Some (twelve_bytes ++ zeros (6 * 2 - len twelve_bytes))),
       World s' ([] ++ feed_events new_session (produced 4 2 6 twelve_bytes)
                    ++ [LogAllReceived 6]
                    ++ [LogMissingChunk 1 2; LogMissingChunk 1 3])).
Proof.
  apply (complete_transfer_log 4 2 6 twelve_bytes
           (produced 4 2 6 twelve_bytes));
    [lia | lia | lia | vm_compute; discriminate | reflexivity | reflexivity
    | vm_compute; reflexivity].
Defined.

End TransferLog.

(** ** The slot table over time *)

Module SlotTable.
Import Feeds SlotSpec Labels Slots.

Lemma first_index_from_insert_found {A} (P : nat -> A -> bool) (l : list A)
    (x : A) : forall i k,
  first_index_from P i l = Some k -> P k x = true ->
  first_index_from P i (<[(k - i)%nat := x]> l) = Some k.
Proof.
  induction l as [|y l IH]; intros i k H Hx; simpl in *; [done|].
  destruct (P i y) eqn:E.
  - inversion H; subst. rewrite Nat.sub_diag. simpl. by rewrite Hx.
  - pose proof (first_index_from_bound _ _ _ _ H) as Hb.
    replace (k - i)%nat with (S (k - S i)) by lia. simpl.
    rewrite E. by apply IH.
Qed.

Lemma first_index_from_insert_fresh {A} (P : nat -> A -> bool) (l : list A)
    (x : A) : forall i k,
  first_index_from P i l = None -> (k < length l)%nat ->
  P (i + k)%nat x = true ->
  first_index_from P i (<[k := x]> l) = Some (i + k)%nat.
Proof.
  induction l as [|y l IH]; intros i k H Hk Hx; simpl in *; [lia|].
  destruct (P i y) eqn:E; [done|].
  destruct k as [|k]; simpl.
  - rewrite Nat.add_0_r in *. by rewrite Hx.
  - rewrite E. rewrite (IH (S i) k); [f_equal; lia | done | lia |].
    by replace (S i + k)%nat with (i + S k)%nat by lia.
Qed.

Section Stable.
Context {image : Type}.
Implicit Types (feeds : list (feed image)) (prefs : gmap string Z).

Lemma held_by_own name (img : option image) :
  held_by name (Feed name img) = true.
Proof. by apply named_true. Qed.

(** The slot an identity was just given is the slot the rules give it
    again. *)
Lemma pick_slot_stable prefs feeds name (img : image) :
  feeds <> [] ->
  pick_slot prefs (<[pick_slot prefs feeds name := Feed name (Some img)]> feeds)
    name
  = pick_slot prefs feeds name.
Proof.
  intros Hne.
  destruct (pick_slot_cases prefs feeds name Hne) as [Hk _].
  set (k := pick_slot prefs feeds name) in *.
  set (feeds' := <[k := Feed name (Some img)]> feeds).
  assert (Hk' : feeds' !! k = Some (Feed name (Some img))).
  { by apply list_lookup_insert_eq. }
  unfold pick_slot.
  destruct (pick_preferred prefs feeds' name) as [j|] eqn:E1'.
  - (* rule 1 applies afterwards *)
    unfold pick_preferred in E1'.
    destruct (prefs !! name) as [p|] eqn:Ep; [|done].
    destruct (decide (Z.to_nat p = k)) as [Epk|Epk].
    + rewrite Epk, Hk', held_by_own, orb_true_r in E1'. by inversion E1'.
    + unfold feeds' in E1'. rewrite list_lookup_insert_ne in E1' by done.
      assert (E1 : pick_preferred prefs feeds name = Some j).
      { unfold pick_preferred. by rewrite Ep. }
      unfold k, pick_slot. rewrite E1.
      destruct (feeds !! Z.to_nat p); [|done].
      destruct (_ || _); by inversion E1'.
  - assert (E1 : pick_preferred prefs feeds name = None).
    { unfold pick_preferred in *.
      destruct (prefs !! name) as [p|] eqn:Ep; [|done].
      destruct (decide (Z.to_nat p = k)) as [Epk|Epk].
      - by rewrite Epk, Hk', held_by_own, orb_true_r in E1'.
      - unfold feeds' in E1'. by rewrite list_lookup_insert_ne in E1'. }
    assert (E2' : pick_existing feeds' name = Some k); [|by rewrite E2'].
    unfold pick_existing, first_index.
    destruct (pick_existing feeds name) as [i|] eqn:E2.
    + assert (k = i) as -> by (unfold k, pick_slot; by rewrite E1, E2).
      unfold feeds'. replace i with (i - 0)%nat at 1 by lia.
      apply first_index_from_insert_found; [done | apply held_by_own].
    + unfold feeds'.
      by rewrite (first_index_from_insert_fresh _ feeds _ O k);
        [| | | apply held_by_own].
Qed.
End Stable.

(** X12. A transmitter that sends image after image keeps its slot:
    the arrival that follows an arrival of the same identity is given
    the same slot, and changes nothing in the table but the image of
    that slot. *)
Theorem repeated_arrival_keeps_slot {image : Type} (prefs : gmap string Z)
    (feeds : list (feed image)) (name : string) (img img' : image) :
  prefs_in_range prefs feeds -> feeds <> [] ->
  exists k feeds',
    update_live_feed prefs feeds name img = Done (k, feeds')
    /\ update_live_feed prefs feeds' name img'
       = Done (k, <[Z.to_nat k := Feed name (Some img')]> feeds)
    /\ 0 <= k < Z.of_nat (length feeds).
Proof.
  intros Hr Hne.
  destruct (pick_slot_cases prefs feeds name Hne) as [Hk _].
  exists (Z.of_nat (pick_slot prefs feeds name)),
         (<[pick_slot prefs feeds name := Feed name (Some img)]> feeds).
  split; [by apply update_follows_rules|]. split; [|lia].
  rewrite update_follows_rules.
  - rewrite pick_slot_stable by done.
    by rewrite Nat2Z.id, list_insert_insert_eq.
  - intros n p Hp. rewrite length_insert. by eapply Hr.
  - intros E. apply (f_equal length) in E. rewrite length_insert in E.
    by destruct feeds.
Qed.

Lemma repeated_arrival_keeps_slot_witness :
  exists k feeds',
    update_live_feed preferred_assignments live_feed_assignments "Tx2" 1%nat
    = Done (k, feeds')
    /\ update_live_feed preferred_assignments feeds' "Tx2" 2%nat
       = Done (k, <[Z.to_nat k := Feed "Tx2" (Some 2%nat)]>
                    live_feed_assignments)
    /\ 0 <= k < Z.of_nat (length (@live_feed_assignments nat)).
Proof.
  apply repeated_arrival_keeps_slot;
    [apply preferred_assignments_in_range | discriminate].
Defined.

Section Runs.
Context {image : Type}.
Implicit Types (feeds : list (feed image)) (prefs : gmap string Z).

(** Any sequence of arrivals is served: every arrival is given a slot
    of the table, and the table keeps its size. *)
Lemma arrivals_run prefs (names : list (string * image)) : forall feeds,
  prefs_in_range prefs feeds -> feeds <> [] ->
  exists slots feeds',
    arrivals prefs feeds names = Done (slots, feeds')
    /\ length feeds' = length feeds
    /\ length slots = length names
    /\ Forall (fun k => 0 <= k < Z.of_nat (length feeds)) slots
    /\ (Forall (fun ni => ni.1 <> unassigned) names ->
        one_slot_each feeds -> preferred_taken prefs feeds ->
        one_slot_each feeds').
Proof.
  induction names as [|[n img] names IH]; intros feeds Hr Hne.
  - exists [], feeds. by split_and!.
  - destruct (pick_slot_cases prefs feeds n Hne) as [Hk _].
    simpl. rewrite update_follows_rules by done. simpl.
    destruct (IH (<[pick_slot prefs feeds n := Feed n (Some img)]> feeds))
      as (slots & feeds' & -> & Hl & Hs & Hall & Hinv).
    + intros m p Hp. rewrite length_insert. by eapply Hr.
    + intros E. apply Hne. apply (f_equal length) in E.
      rewrite length_insert in E. by destruct feeds.
    + simpl. rewrite length_insert in Hl, Hall.
      eexists _, _. split_and!; [done | done | simpl; by rewrite Hs | |].
      * apply Forall_cons. split; [lia | done].
      * intros Hn Hone Htk. apply Forall_cons in Hn as [Hn Hn']. simpl in Hn.
        destruct (update_keeps_one_slot prefs feeds n img Hr Hne Hn Hone Htk)
          as [Hone' Htk'].
        by apply Hinv.
Qed.
End Runs.

(** X13. The slot table over any sequence of arrivals, from [N >= 1]
    unassigned slots and preferences that name slots of the table: every
    arrival is served and given a slot of the table (the method never
    ends without an assignment and never indexes out of range), the
    table keeps its [N] slots, and as long as no arrival carries the
    label of the unassigned slots as its name no identity labels two
    slots. *)
Theorem arrivals_served_in_table {image : Type} (prefs : gmap string Z)
    (N : nat) (names : list (string * image)) :
  (0 < N)%nat ->
  (forall n p, prefs !! n = Some p -> 0 <= p < Z.of_nat N) ->
  exists slots feeds',
    arrivals prefs (replicate N (Feed unassigned None)) names
    = Done (slots, feeds')
    /\ length feeds' = N
    /\ length slots = length names
    /\ Forall (fun k => 0 <= k < Z.of_nat N) slots
    /\ (Forall (fun ni => ni.1 <> unassigned) names -> one_slot_each feeds').
Proof.
  intros HN Hp.
  destruct (arrivals_run prefs names (replicate N (Feed unassigned None)))
    as (slots & feeds' & Ha & Hl & Hs & Hall & Hinv).
  - intros n p H. rewrite length_replicate. by eapply Hp.
  - destruct N; [lia | done].
  - rewrite length_replicate in Hl, Hall.
    exists slots, feeds'. split_and!; try done.
    intros Hn. destruct (unassigned_table_invariant (image:=image) prefs N).
    by apply Hinv.
Qed.

Lemma arrivals_served_in_table_witness :
  exists slots feeds',
    arrivals preferred_assignments (replicate 4 (Feed unassigned None))
      [("Tx2"%string, tt); ("X"%string, tt); ("Tx2"%string, tt)]
    = Done (slots, feeds')
    /\ length feeds' = 4%nat
    /\ length slots = 3%nat
    /\ Forall (fun k => 0 <= k < Z.of_nat 4) slots
    /\ (Forall (fun ni => ni.1 <> unassigned)
          [("Tx2"%string, tt); ("X"%string, tt); ("Tx2"%string, tt)]
        -> one_slot_each feeds').
Proof.
  apply (arrivals_served_in_table preferred_assignments 4
           [("Tx2"%string, tt); ("X"%string, tt); ("Tx2"%string, tt)]);
    [lia|].
  intros n p H. apply (preferred_assignments_in_range (image:=unit) n p H).
Defined.

End SlotTable.

(** ** Frames that arrive more than once *)

Module Repeats.
Import PyBytes Transmitter Receiver Wire ExactRead FrameStep Splitter
       FrameLoop Reassembly Partial.

Lemma tops_insert proj grid m k0 v0 :
  0 <= proj k0 -> tops proj grid m ->
  tops proj (<[k0 := v0]> grid) (Z.max m (proj k0)).
Proof.
  intros H0 [Hb Ha]. split.
  - intros k v Hk. apply lookup_insert_Some in Hk as [[<- _]|[_ Hk]]; [lia|].
    apply Hb in Hk. lia.
  - right. destruct (Z.le_gt_cases m (proj k0)) as [Hle|Hgt].
    + exists k0, v0. split; [apply lookup_insert_eq | lia].
    + destruct Ha as [[-> _]|(k & v & Hk & Hp)]; [lia|].
      exists k, v. split; [|lia].
      rewrite lookup_insert_ne; [done|]. intros <-. lia.
Qed.

Lemma tops_empty proj : tops proj ∅ (-1).
Proof.
  split; [intros k v Hk; by rewrite lookup_empty in Hk | by left].
Qed.

Lemma tops_unique proj grid m1 m2 :
  tops proj grid m1 -> tops proj grid m2 -> m1 = m2.
Proof.
  intros [Hb1 Ha1] [Hb2 Ha2].
  destruct Ha1 as [[-> E1]|(k1 & v1 & Hk1 & Hp1)],
           Ha2 as [[-> E2]|(k2 & v2 & Hk2 & Hp2)]; try done.
  - rewrite E1 in Hk2. by rewrite lookup_empty in Hk2.
  - rewrite E2 in Hk1. by rewrite lookup_empty in Hk1.
  - apply Hb2 in Hk1. apply Hb1 in Hk2. lia.
Qed.

Lemma key_of_nonneg f : 0 <= (key_of f).1 /\ 0 <= (key_of f).2.
Proof. unfold key_of, parse_frame. simpl. split; apply from_bytes_nonneg. Qed.

Section Reference.
(** [ps]: the frames of a transfer of [T] frames, at distinct positions. *)
Variables (T : Z) (ps : list bytes).
Hypothesis Hag : agree T ps.
Hypothesis Hnd : NoDup (key_of <$> ps).
Hypothesis Hlen : Z.of_nat (length ps) = T.
Hypothesis HT : 1 <= T.

Lemma ps_nonempty : ps <> [].
Proof using Hlen HT. intros E. rewrite E in Hlen. simpl in Hlen. lia. Qed.

Lemma whole_expected : total_frames_expected (feed new_session ps) = T.
Proof using Hag Hlen HT.
  apply (feed_expected T); [done | apply ps_nonempty | by left].
Qed.

Lemma whole_size : Z.of_nat (size (frame_grid (feed new_session ps))) = T.
Proof using Hnd Hlen.
  rewrite feed_size by done. by rewrite new_session_size.
Qed.

Lemma whole_member f :
  f ∈ ps ->
  frame_grid (feed new_session ps) !! key_of f = Some (chunk (parse_frame f)).
Proof using Hnd. intros Hf. by apply feed_grid_member. Qed.

Lemma whole_keys k v :
  frame_grid (feed new_session ps) !! k = Some v ->
  exists f, f ∈ ps /\ key_of f = k.
Proof.
  intros Hk. destruct (decide (k ∈ key_of <$> ps)) as [Hin|Hout].
  - apply list_elem_of_fmap in Hin as (f & -> & Hf). eauto.
  - rewrite feed_grid_fresh in Hk by done.
    change (frame_grid new_session) with (∅ : gmap (Z * Z) bytes) in Hk.
    by rewrite lookup_empty in Hk.
Qed.

Lemma part_of_new : part_of (feed new_session ps) new_session.
Proof.
  refine (conj _ (conj _ (conj _ (conj _ _)))).
  - apply map_empty_subseteq.
  - done.
  - apply tops_empty.
  - apply tops_empty.
  - by right.
Qed.

Lemma part_of_next st f :
  part_of (feed new_session ps) st -> f ∈ ps ->
  part_of (feed new_session ps) (next_session st f).
Proof using Hag Hnd Hlen HT.
  intros (Hsub & Hrec & Hr & Hc & Hexp) Hf.
  destruct (key_of_nonneg f) as [Hk1 Hk2].
  unfold part_of. rewrite next_grid, next_max_row, next_max_col, next_expected.
  refine (conj _ (conj _ (conj _ (conj _ _)))).
  - apply insert_subseteq_l; [|done]. by apply whole_member.
  - apply next_received.
  - by apply (tops_insert fst _ _ (key_of f)).
  - by apply (tops_insert snd _ _ (key_of f)).
  - left. rewrite whole_expected in *.
    destruct Hexp as [->|[-> _]].
    + destruct (Z.eqb_spec T (-1)); [lia | done].
    + change (-1 =? -1) with true. cbv iota.
      by apply (proj1 (Forall_forall _ _) Hag).
Qed.

Lemma part_of_feed l : forall st,
  part_of (feed new_session ps) st -> (forall f, f ∈ l -> f ∈ ps) ->
  part_of (feed new_session ps) (feed st l).
Proof using Hag Hnd Hlen HT.
  induction l as [|f l IH]; intros st Hp Hl; [done|].
  rewrite feed_cons. apply IH.
  - apply part_of_next; [done|]. apply Hl. left.
  - intros g Hg. apply Hl. by right.
Qed.

(** A buffer of the transfer with [T] filled positions is the complete
    buffer. *)
Lemma part_of_whole st :
  part_of (feed new_session ps) st ->
  Z.of_nat (size (frame_grid st)) = T ->
  st = feed new_session ps.
Proof using Hag Hnd Hlen HT.
  intros (Hsub & Hrec & Hr & Hc & Hexp) Hsz.
  pose proof (part_of_feed ps new_session part_of_new ltac:(done))
    as (_ & Hrec' & Hr' & Hc' & _).
  assert (Hg : frame_grid st = frame_grid (feed new_session ps)).
  { apply map_subseteq_size_eq; [done|]. pose proof whole_size. lia. }
  apply session_eq.
  - done.
  - rewrite <- Hg in Hr'. by eapply tops_unique.
  - rewrite <- Hg in Hc'. by eapply tops_unique.
  - destruct Hexp as [->|[_ E]]; [done|].
    rewrite E, map_size_empty in Hsz. simpl in Hsz. lia.
  - by rewrite Hrec, Hrec', Hg.
Qed.

(** The loop on frames of the transfer, some of them more than once,
    that between them cover every position: it ends with the complete
    buffer. *)
Lemma run_frames_repeats fs : forall st,
  part_of (feed new_session ps) st ->
  Z.of_nat (size (frame_grid st)) < T ->
  (forall f, f ∈ fs -> f ∈ ps) ->
  (forall f, f ∈ ps -> is_Some (frame_grid st !! key_of f) \/ f ∈ fs) ->
  (run_frames st fs).1 = feed new_session ps.
Proof using Hag Hnd Hlen HT.
  induction fs as [|f fs IH]; intros st Hp Hsz Hin Hcov.
  - exfalso.
    assert (Hsub : frame_grid (feed new_session ps) ⊆ frame_grid st).
    { apply map_subseteq_spec. intros k v Hk.
      destruct (whole_keys k v Hk) as (f & Hf & <-).
      destruct (Hcov f Hf) as [[v' Hv']|Hn]; [|by apply elem_of_nil in Hn].
      destruct Hp as (Hsub & _).
      rewrite map_subseteq_spec in Hsub.
      pose proof (Hsub _ _ Hv') as Hw. congruence. }
    apply map_subseteq_size in Hsub. pose proof whole_size. lia.
  - assert (Hf : f ∈ ps) by (apply Hin; left).
    pose proof (part_of_next st f Hp Hf) as Hp1.
    cbn [run_frames]. unfold complete.
    destruct (Z.eqb_spec (total_frames_received (next_session st f))
                (total_frames_expected (next_session st f))) as [E|E].
    + cbn [fst]. apply part_of_whole; [done|].
      destruct Hp1 as (_ & Hrec & _ & _ & Hexp).
      rewrite <- Hrec, E. destruct Hexp as [->|[_ Hemp]].
      * apply whole_expected.
      * rewrite next_grid in Hemp. by apply insert_non_empty in Hemp.
    + cbn [fst]. apply IH.
      * done.
      * destruct Hp1 as (Hsub & Hrec & _ & _ & Hexp).
        apply map_subseteq_size in Hsub. pose proof whole_size.
        assert (total_frames_expected (next_session st f) = T).
        { destruct Hexp as [->|[_ Hemp]]; [apply whole_expected|].
          rewrite next_grid in Hemp. by apply insert_non_empty in Hemp. }
        lia.
      * intros g Hg. apply Hin. by right.
      * intros g Hg. destruct (Hcov g Hg) as [[v Hv]|Hm].
        -- left. rewrite next_grid.
           destruct (decide (key_of f = key_of g)) as [Ek|Ek].
           ++ unfold key_of in Ek. rewrite Ek.
              rewrite lookup_insert_eq. eauto.
           ++ rewrite lookup_insert_ne by done. eauto.
        -- apply elem_of_cons in Hm as [->|Hm]; [|by right].
           left. rewrite next_grid. unfold key_of.
           rewrite lookup_insert_eq. eauto.
Qed.
End Reference.

(** X14. Frames may arrive more than once. When every frame that
    arrives is a frame of the transfer and every frame of the transfer
    arrives at least once, in any order and with any repetitions, the
    engine reassembles the file followed by the padding of its last
    chunk. *)
Theorem reassemble_with_repeats (C cs T : Z) (file : bytes)
    (fs : list bytes) (s : socket) (lg : list log_event) :
  1 <= C -> 0 < cs -> 1 <= T <= 65535 -> len file <= T * cs ->
  (forall f, f ∈ fs <-> f ∈ produced C cs T file) ->
  clean s = true -> stream s = concat fs ->
  (receive_image (header_size + cs) (World s lg)).1
  = Done (Some (file ++ zeros (T * cs - len file))).
Proof.
  intros HC Hcs HT Hlen Hiff Hc Hs. unfold receive_image, bind.
  destruct (receive_frames_frames (header_size + cs)
              ltac:(unfold header_size; lia) fs new_session s lg Hc Hs)
    as (s' & ->).
  { apply Forall_forall. intros f Hf%Hiff. revert f Hf.
    apply Forall_forall. apply produced_len; lia. }
  rewrite (run_frames_repeats T (produced C cs T file)).
  - apply reconstruct_produced; done.
  - apply produced_agree; lia.
  - apply produced_NoDup; lia.
  - apply produced_length. lia.
  - lia.
  - apply part_of_new.
  - rewrite new_session_size. simpl. lia.
  - intros f. apply Hiff.
  - intros f Hf. right. by apply Hiff.
Qed.

Lemma reassemble_with_repeats_witness :
  (receive_image (header_size + 2)
     (World [Data (concat
               (produced 4 2 2 [Byte.x41; Byte.x42; Byte.x43]
                ++ produced 4 2 2 [Byte.x41; Byte.x42; Byte.x43]))] [])).1
  = Done (Some ([Byte.x41; Byte.x42; Byte.x43] ++ zeros (2 * 2 - 3))).
Proof.
  apply (reassemble_with_repeats 4 2 2 [Byte.x41; Byte.x42; Byte.x43]
           (produced 4 2 2 [Byte.x41; Byte.x42; Byte.x43]
            ++ produced 4 2 2 [Byte.x41; Byte.x42; Byte.x43]));
    [lia | lia | lia | vm_compute; discriminate | | reflexivity
    | vm_compute; reflexivity].
  intros f. rewrite elem_of_app. tauto.
Defined.

End Repeats.

(** ** Camera and capture modes *)

Module CaptureModes.
Import Capture.

Lemma safe_launched device frame_read : safe (launched device frame_read).
Proof. by destruct device, frame_read. Qed.

Lemma safe_step a ev : safe a -> safe (step a ev).
Proof.
  destruct a as [cr disp cp tm ct].
  intros (H1 & H2 & H3 & H4). simpl in *. subst cp.
  destruct ev as [device rd|rd| |d|d|c| |]; simpl.
  - destruct cr, disp, tm, ct, device, rd; simpl in *;
      repeat split; auto; try discriminate.
  - destruct cr, disp, tm, ct, rd; simpl in *;
      repeat split; auto; try discriminate.
  - destruct cr, disp, tm, ct; simpl in *;
      repeat split; auto; try discriminate.
  - unfold toggle_timer_capture. simpl.
    destruct ((d <? 55) || (100 <? d));
      destruct cr, disp, tm, ct; simpl in *;
      repeat split; auto; try discriminate.
  - unfold toggle_continuous_capture. simpl.
    destruct ((d <? 55) || (100 <? d));
      destruct cr, disp, tm, ct; simpl in *;
      repeat split; auto; try discriminate.
  - destruct cr, disp, tm, ct, c; simpl in *;
      repeat split; auto; try discriminate.
  - destruct cr, disp, tm, ct; simpl in *;
      repeat split; auto; try discriminate.
  - destruct cr, disp, tm, ct; simpl in *;
      repeat split; auto; try discriminate.
Qed.

Lemma safe_run evs : forall a, safe a -> safe (run a evs).
Proof.
  induction evs as [|ev evs IH]; intros a Ha; [done|].
  apply IH. by apply safe_step.
Qed.

(** X15. The camera and capture controls of the transmitter. Whatever
    buttons are pressed after the launch, with the camera available or
    not and whether or not its frames can be read: timer capture and continuous capture are never active
    together, a capture mode is only ever active while the camera runs
    (the camera cannot be stopped under an active capture), the camera
    runs exactly while its capture handle is open, and the display is
    only on while the camera runs. *)
Theorem capture_controls_safe (device frame_read : bool)
    (evs : list event) :
  let a := run (launched device frame_read) evs in
  is_timer_capture_active a && is_continuous_capture_active a = false
  /\ (is_timer_capture_active a || is_continuous_capture_active a = true ->
      camera_running a = true)
  /\ camera_running a = cap a
  /\ (is_camera_display_on a = true -> camera_running a = true).
Proof. apply safe_run, safe_launched. Qed.

End CaptureModes.

(** ** The ways the handler ends *)

Module Outcomes.
Import PyBytes Receiver Wire ExactRead FrameStep FrameLoop Totality Entries.

Lemma recv_all_loop_log fuel : forall n acc w,
  log (recv_all_loop fuel n acc w).2 = log w.
Proof.
  induction fuel as [|fuel IH]; intros n acc w; cbn [recv_all_loop]; [done|].
  destruct (len acc <? n); [|done].
  unfold bind, recv.
  destruct (recv_from (conn w) (n - len acc)) as [[[|b p]| |] s']; try done.
  by rewrite IH.
Qed.

Lemma recv_all_log n w r w' : _recv_all n w = (r, w') -> log w' = log w.
Proof.
  intros H. pose proof (recv_all_loop_log (S (Z.to_nat n)) n [] w) as L.
  unfold _recv_all in H. by rewrite H in L.
Qed.

Lemma frame_events_kind st f : forallb frame_event (frame_events st f) = true.
Proof.
  unfold frame_events.
  destruct (total_frames_expected st =? -1); [done|].
  by destruct (negb _).
Qed.

Lemma grid_missing_kind grid mr mc :
  forallb gap_event (grid_missing grid mr mc) = true.
Proof.
  unfold grid_missing. apply forallb_forall. intros ev Hin.
  apply in_flat_map in Hin as (r & _ & Hin). unfold row_missing in Hin.
  apply in_flat_map in Hin as (c & _ & Hin).
  destruct (grid !! (r, c)); [done|]. destruct Hin as [<-|[]]. done.
Qed.

(** The handshake, when it goes through. *)
Lemma makedirs_log os_makedirs d w r w' :
  makedirs os_makedirs d w = (r, w') -> w' = w.
Proof. unfold makedirs. destruct (os_makedirs d); by intros [= _ <-]. Qed.

Lemma handshake_done utf8_decode os_makedirs w n f d w1 :
  handshake utf8_decode os_makedirs w = (Done (n, f, d), w1) ->
  log w1 = log w ++ [LogTransmitterName n; LogFilename f; LogDataSize d]
  /\ 0 < d.
Proof.
  unfold handshake. intros H.
  unfold bind at 1 in H.
  destruct (_recv_all 50 w) as [[o1| |] w2] eqn:E1; try done.
  apply recv_all_log in E1.
  destruct (falsy o1); [done|].
  unfold bind at 1 in H. unfold decode at 1 in H.
  destruct (utf8_decode (default [] o1)) as [t1|]; [|done].
  unfold ret at 1 in H. unfold bind at 1 in H. unfold _log_event at 1 in H.
  unfold bind at 1 in H.
  destruct (makedirs os_makedirs (TransmitterFolder _) _)
    as [[[]| |] wa] eqn:M1; try done.
  apply makedirs_log in M1 as ->.
  unfold bind at 1 in H.
  destruct (makedirs os_makedirs (ImagesFolder _) _)
    as [[[]| |] wb] eqn:M2; try done.
  apply makedirs_log in M2 as ->.
  unfold bind at 1 in H.
  destruct (makedirs os_makedirs (FramesFolder _) _)
    as [[[]| |] wc] eqn:M3; try done.
  apply makedirs_log in M3 as ->.
  unfold bind at 1 in H.
  destruct (_recv_all 100 _) as [[o2| |] w3] eqn:E2; try done.
  apply recv_all_log in E2. cbn [log] in E2.
  destruct (falsy o2); [done|].
  unfold bind at 1 in H. unfold decode at 1 in H.
  destruct (utf8_decode (default [] o2)) as [t2|]; [|done].
  unfold ret at 1 in H. unfold bind at 1 in H. unfold _log_event at 1 in H.
  unfold bind at 1 in H.
  destruct (_recv_all 4 _) as [[o3| |] w4] eqn:E3; try done.
  apply recv_all_log in E3. cbn [log] in E3.
  destruct (falsy o3); [done|].
  destruct (Z.leb_spec (from_bytes (default [] o3)) 0); [done|].
  unfold bind, _log_event, ret in H. injection H as <- <- <- <-.
  cbn [log]. rewrite E3, E2, E1, <- !app_assoc. done.
Qed.

Lemma extends_ret {A} (a : A) : extends (ret a).
Proof. intros w. exists []. by rewrite app_nil_r. Qed.

Lemma extends_raise {A} e : extends (@raise A e).
Proof. intros w. exists []. by rewrite app_nil_r. Qed.

Lemma extends_log ev : extends (_log_event ev).
Proof. intros w. by exists [ev]. Qed.

Lemma extends_bind {A B} (m : M A) (k : A -> M B) :
  extends m -> (forall a, extends (k a)) -> extends (bind m k).
Proof.
  intros Hm Hk w. unfold bind. destruct (Hm w) as [l Hl].
  destruct (m w) as [[a|e|] w1]; simpl in *; [|by exists l|by exists l].
  destruct (Hk a w1) as [l' Hl']. exists (l ++ l').
  by rewrite Hl', Hl, <- app_assoc.
Qed.

Lemma extends_recv_all n : extends (_recv_all n).
Proof.
  intros w. exists []. rewrite app_nil_r.
  destruct (_recv_all n w) as [r w'] eqn:E. by apply recv_all_log in E.
Qed.

Lemma extends_decode utf8_decode b : extends (decode utf8_decode b).
Proof.
  unfold decode. destruct (utf8_decode b);
    [apply extends_ret | apply extends_raise].
Qed.

Lemma extends_makedirs os_makedirs d : extends (makedirs os_makedirs d).
Proof.
  unfold makedirs. destruct (os_makedirs d);
    [apply extends_raise | apply extends_ret].
Qed.

Lemma extends_handshake utf8_decode os_makedirs :
  extends (handshake utf8_decode os_makedirs).
Proof.
  unfold handshake.
  apply extends_bind; [apply extends_recv_all|]. intros r1.
  destruct (falsy r1); [apply extends_raise|].
  apply extends_bind; [apply extends_decode|]. intros n1.
  apply extends_bind; [apply extends_log|]. intros _.
  apply extends_bind; [apply extends_makedirs|]. intros _.
  apply extends_bind; [apply extends_makedirs|]. intros _.
  apply extends_bind; [apply extends_makedirs|]. intros _.
  apply extends_bind; [apply extends_recv_all|]. intros r2.
  destruct (falsy r2); [apply extends_raise|].
  apply extends_bind; [apply extends_decode|]. intros n2.
  apply extends_bind; [apply extends_log|]. intros _.
  apply extends_bind; [apply extends_recv_all|]. intros r3.
  destruct (falsy r3); [apply extends_raise|].
  destruct (_ <=? 0); [apply extends_raise|].
  apply extends_bind; [apply extends_log|]. intros _. apply extends_ret.
Qed.

(** How the frame loop ends, on any connection, from a buffer that is
    not complete: with the transfer complete and its completion logged
    last, with the buffer still incomplete, or with an exception. *)
Lemma receive_loop_outcome fuel : forall n st w r w',
  complete st = false ->
  receive_loop fuel n st w = (r, w') ->
  match r with
  | Done st' =>
    exists l,
      forallb frame_event l = true
      /\ ((complete st' = true
           /\ log w' = log w ++ l ++ [LogAllReceived (total_frames_expected st')])
          \/ (complete st' = false
              /\ log w' = log w ++ l ++ [LogDisconnected]))
  | _ => exists l, log w' = log w ++ l
  end.
Proof.
  induction fuel as [|fuel IH]; intros n st w r w' Hst H.
  { inversion H; subst. exists []. by rewrite app_nil_r. }
  cbn [receive_loop] in H. unfold bind at 1 in H.
  destruct (_recv_all n w) as [[o| |] w1] eqn:E; apply recv_all_log in E.
  - destruct o as [[|b bs]|].
    + unfold bind, _log_event, ret in H. inversion H; subst. cbn [log].
      exists []. split; [done|]. right. by rewrite E.
    + unfold bind at 1 in H. rewrite process_frame_eq in H.
      fold (complete (next_session st (b :: bs))) in H.
      destruct (complete (next_session st (b :: bs))) eqn:Ec.
      * unfold bind, _log_event, ret in H. inversion H; subst. cbn [log].
        exists (frame_events st (b :: bs)).
        split; [apply frame_events_kind|]. left.
        split; [done|]. by rewrite E, <- app_assoc.
      * apply IH in H; [|done]. cbn [log] in H. rewrite E in H.
        destruct r as [st'| |].
        -- destruct H as (l & Hk & Hl).
           exists (frame_events st (b :: bs) ++ l). split.
           { by rewrite forallb_app, frame_events_kind, Hk. }
           rewrite <- !app_assoc in *. exact Hl.
        -- destruct H as (l & Hl). exists (frame_events st (b :: bs) ++ l).
           by rewrite Hl, <- app_assoc.
        -- destruct H as (l & Hl). exists (frame_events st (b :: bs) ++ l).
           by rewrite Hl, <- app_assoc.
    + unfold bind, _log_event, ret in H. inversion H; subst. cbn [log].
      exists []. split; [done|]. right. by rewrite E.
  - inversion H; subst. exists []. by rewrite app_nil_r.
  - inversion H; subst. exists []. by rewrite app_nil_r.
Qed.

(** X16. The two ways the handler ends, on any connection (data,
    timeouts, errors, an early close), with any decoder and any file
    system. It always
    returns and always logs the close last. When it returns an image,
    the log it has written is: the three fields of the handshake, with
    a positive frame size; entries of stored frames; the completion with
    a positive frame count; reports of gaps; the close. It has logged no
    exception, no disconnection and no incomplete transfer. When it
    returns nothing, the entry before the close is an exception or the
    report of an incomplete transfer. *)
Theorem handler_outcomes (utf8_decode : bytes -> option string)
    (os_makedirs : folder -> option exn) (w : world) :
  exists r w',
    _handle_client_connection utf8_decode os_makedirs w = (Done r, w')
    /\ match r with
       | Some (name, data) =>
         exists f d T l g,
           log w' = log w
                    ++ [LogTransmitterName name; LogFilename f; LogDataSize d]
                    ++ l ++ [LogAllReceived T] ++ g ++ [LogClosed]
           /\ 0 < d /\ 0 < T
           /\ forallb frame_event l = true
           /\ forallb gap_event g = true
       | None =>
         exists l x,
           log w' = log w ++ l ++ [x; LogClosed]
           /\ ((exists e, x = LogException e)
               \/ (exists a b, x = LogIncomplete a b))
       end.
Proof.
  unfold _handle_client_connection. unfold bind at 1, try_except.
  unfold bind at 1.
  destruct (handshake utf8_decode os_makedirs w)
    as [[[[n f] d]|e|] w1] eqn:Eh.
  - apply handshake_done in Eh as [Hl1 Hd].
    unfold bind at 1.
    destruct (os_makedirs (RawFramesFolder n f)) as [e|] eqn:Ef.
    { rewrite (Handshake.makedirs_raises _ _ _ _ Ef).
      unfold bind, _log_event, ret. cbn [conn log].
      do 2 eexists. split; [reflexivity|]. cbn [log].
      exists [LogTransmitterName n; LogFilename f; LogDataSize d],
             (LogException e).
      split; [|left; eauto].
      rewrite Hl1. by rewrite <- !app_assoc. }
    rewrite (Handshake.makedirs_ok _ _ _ Ef).
    unfold bind at 1. unfold receive_image at 1. unfold bind at 1.
    destruct (receive_frames d new_session w1) as [[st'|e|] w2] eqn:Er.
    + unfold receive_frames in Er.
      apply receive_loop_outcome in Er as (l & Hk & Hcase); [|done].
      destruct Hcase as [[Hc Hl2]|[Hc Hl2]].
      * apply Z.eqb_eq in Hc.
        destruct (Z.lt_ge_cases 0 (total_frames_expected st')) as [Hp|Hp].
        -- rewrite reconstruct_complete by done.
           unfold bind, _log_event, ret. cbn [conn log option_map].
           do 2 eexists. split; [reflexivity|]. cbn [log].
           exists f, d, (total_frames_expected st'), l,
                  (grid_missing (frame_grid st') (max_row st') (max_col st')).
           split_and!; [|done|done|done|apply grid_missing_kind].
           rewrite Hl2, Hl1. by rewrite <- !app_assoc.
        -- rewrite reconstruct_incomplete by (left; lia).
           unfold bind, _log_event, ret. cbn [conn log option_map].
           do 2 eexists. split; [reflexivity|]. cbn [log].
           exists ([LogTransmitterName n; LogFilename f; LogDataSize d]
                   ++ l ++ [LogAllReceived (total_frames_expected st')]),
                  (LogIncomplete (total_frames_expected st')
                     (total_frames_received st')).
           split; [|right; eauto].
           rewrite Hl2, Hl1. by rewrite <- !app_assoc.
      * apply Z.eqb_neq in Hc.
        rewrite reconstruct_incomplete by (by right).
        unfold bind, _log_event, ret. cbn [conn log option_map].
        do 2 eexists. split; [reflexivity|]. cbn [log].
        exists ([LogTransmitterName n; LogFilename f; LogDataSize d]
                ++ l ++ [LogDisconnected]),
               (LogIncomplete (total_frames_expected st')
                  (total_frames_received st')).
        split; [|right; eauto].
        rewrite Hl2, Hl1. by rewrite <- !app_assoc.
    + unfold receive_frames in Er.
      apply receive_loop_outcome in Er as (l & Hl2); [|done].
      unfold bind, _log_event, ret. cbn [conn log].
      do 2 eexists. split; [reflexivity|]. cbn [log].
      exists ([LogTransmitterName n; LogFilename f; LogDataSize d] ++ l),
             (LogException e).
      split; [|left; eauto].
      rewrite Hl2, Hl1. by rewrite <- !app_assoc.
    + exfalso. pose proof (returns_receive_frames d new_session w1) as Hr.
      by rewrite Er in Hr.
  - destruct (extends_handshake utf8_decode os_makedirs w) as [l Hl].
    rewrite Eh in Hl.
    unfold bind, _log_event, ret. cbn [conn log].
    do 2 eexists. split; [reflexivity|]. cbn [log snd] in *.
    exists l, (LogException e). split; [|left; eauto].
    by rewrite Hl, <- !app_assoc.
  - exfalso. pose proof (returns_handshake utf8_decode os_makedirs w) as Hr.
    by rewrite Eh in Hr.
Qed.

End Outcomes.
